(** * Ising lattice simulation: command line, row partition and the
      coordinator/worker sweep protocol of the message-passing backend.

    The development embeds [src/main.cpp] (the single-process entry point
    followed by the MPI entry point with [master_to_slaves_sync], [simulate],
    [initialise] and [main]).  Every process of the MPI program runs the same
    code with its own [my_rank]; its control flow depends only on [my_rank],
    [world_size], [rows_per_slave], [lattice.size] and [lattice.loops], so
    each function is embedded as the sequence of actions it performs, in
    program order, and the actions are given a small-step semantics over a
    world made of one process per rank and the messages in flight. *)

From Stdlib Require Import ZArith QArith Reals Lra List Lia String Ascii Permutation.
From stdpp Require Import base gmap list strings.

Local Open Scope Z_scope.

(** ** Data *)

(** [int*] rows of [lattice.size] spins and the [int**] lattice. *)
Abbreviation Row := (list Z).
Abbreviation Grid := (list (list Z)).

Definition EXIT_SUCCESS : Z := 0.
Definition EXIT_FAILURE : Z := 1.

(** The fields of [Surface] that [main.cpp] touches.  The class itself
    ([surface.h]) is not part of the sources; its cells and both statistics
    arrays are reached through pointers (rows are handed to MPI as [int]
    buffers), so the by-value copies made at each call share them and a
    process is modelled with one lattice state. *)
Record Surface {Temp E M : Type} := mkSurface {
  name : string;
  loops : Z;
  size : Z;
  temperature : Temp;
  surface : Grid;
  avgEnergy : gmap Z E;
  avgMag : gmap Z M;
  complete : bool;
  out : bool;
  outName : string
}.
Arguments Surface : clear implicits.
Arguments mkSurface {Temp E M}.

Section Updates.
Context {Temp E M : Type}.
Implicit Type l : Surface Temp E M.

Definition set_surface (g : Grid) l : Surface Temp E M :=
  mkSurface (name l) (loops l) (size l) (temperature l) g
            (avgEnergy l) (avgMag l) (complete l) (out l) (outName l).

Definition set_stats (i : Z) (e : E) (m : M) l : Surface Temp E M :=
  mkSurface (name l) (loops l) (size l) (temperature l) (surface l)
            (<[i := e]> (avgEnergy l)) (<[i := m]> (avgMag l))
            (complete l) (out l) (outName l).

Definition set_complete (b : bool) l : Surface Temp E M :=
  mkSurface (name l) (loops l) (size l) (temperature l) (surface l)
            (avgEnergy l) (avgMag l) b (out l) (outName l).

Definition set_output (path : string) l : Surface Temp E M :=
  mkSurface (name l) (loops l) (size l) (temperature l) (surface l)
            (avgEnergy l) (avgMag l) (complete l) true path.

(** [lattice.surface[y]]; the programs below only index rows in
    [0, size), and an index outside the lattice reads as an empty row. *)
Definition row_at (g : Grid) (y : Z) : Row :=
  if decide (0 ≤ y) then default [] (g !! Z.to_nat y) else [].

(** Storing a received buffer into [lattice.surface[y]]. *)
Definition store_row (y : Z) (r : Row) (g : Grid) : Grid :=
  <[Z.to_nat y := r]> g.
End Updates.

(** ** Actions of one process *)

Inductive Source := MPI_ANY_SOURCE | FromRank (r : Z).

(** One constructor per effectful statement of the MPI translation unit. *)
Inductive Action :=
| MPI_Send (row dest tag : Z)        (* MPI_Send(lattice.surface[row], size, MPI_INT, dest, tag, ..) *)
| MPI_Recv (row : Z) (src : Source) (tag : Z)
                                     (* MPI_Recv(lattice.surface[row], size, MPI_INT, src, tag, ..) *)
| StoreStats (i : Z)                 (* avgEnergy[i] = calculate_energy(); avgMag[i] = calculate_magnetism() *)
| CalculateSpin (k j : Z)            (* int coords[2] = {k,j}; lattice.calculate_spin(coords) *)
| Clear                              (* lattice.clear() *)
| Save                               (* lattice.save() *)
| SetComplete                        (* lattice.complete = true *)
| Report.                            (* the two cout lines of initialise *)

Global Instance Source_eq_dec : EqDecision Source.
Proof. solve_decision. Defined.
Global Instance Action_eq_dec : EqDecision Action.
Proof. solve_decision. Defined.

(** [for (int v = lo; v < hi; ++v)] visits [range lo hi]. *)
Definition range (lo hi : Z) : list Z := seqZ lo (hi - lo).

(** ** The MPI translation unit *)

Section Program.
(** The process-wide globals. *)
Variables (world_size my_rank rows_per_slave : Z).
Context {Temp E M : Type}.
Variable lattice : Surface Temp E M.

Definition master_to_slaves_sync : list Action :=
  if my_rank =? 0 then
    i ← range 1 world_size;
    y ← range 0 (size lattice);
    [MPI_Send y i y]
  else
    y ← range 0 (size lattice);
    [MPI_Recv y (FromRank 0) y].

(** Row range of this process: [start, finish). *)
Definition start : Z := (my_rank - 1) * rows_per_slave.
Definition finish : Z := start + rows_per_slave.

(** Body of the sweep loop for sweep [i]. *)
Definition sweep (i : Z) : list Action :=
  (if my_rank =? 0 then
     [StoreStats i]
   else
     j ← range start finish;
     ((k ← range 0 (size lattice); [CalculateSpin k j])
        ++ [MPI_Send j 0 j]))
  ++ (if my_rank =? 0 then
        y ← range 0 (size lattice);
        [MPI_Recv y MPI_ANY_SOURCE y]
      else [])
  ++ master_to_slaves_sync.

(** [simulate]: the actions of the loop and the returned status. *)
Definition simulate : list Action * Z :=
  (i ← range 0 (loops lattice); sweep i, EXIT_SUCCESS).

Definition initialise : list Action * Z :=
  let '(body, status) := simulate in
  ((if my_rank =? 0 then [Clear; Save] else [])
     ++ body
     ++ (if my_rank =? 0 then [SetComplete; Save; Report] else []),
   status).
End Program.

(** ** Semantics: processes, channels, steps *)

(** Messages in flight, one first-in first-out queue per (source,
    destination, tag): MPI delivers the messages of one sender to one receiver
    that match the same receive in the order they were sent. *)
Abbreviation Net := (gmap (Z * Z * Z) (list (list Z))).

Definition chan (net : Net) (k : Z * Z * Z) : list Row := default [] (net !! k).

Definition push (k : Z * Z * Z) (r : Row) (net : Net) : Net :=
  <[k := chan net k ++ [r]]> net.

(** The lowest rank that has a message for [me] with tag [tag]. *)
Definition first_source (world_size me tag : Z) (net : Net) : option Z :=
  head (filter (λ s, chan net (s, me, tag) ≠ []) (range 0 world_size)).

(** The channel a receive takes its message from, if one is ready. *)
Definition matching (world_size me : Z) (src : Source) (tag : Z) (net : Net)
  : option (Z * Z * Z) :=
  match src with
  | FromRank s => if decide (chan net (s, me, tag) = []) then None
                  else Some (s, me, tag)
  | MPI_ANY_SOURCE => s ← first_source world_size me tag net; Some (s, me, tag)
  end.

Section Semantics.
Context {Temp E M : Type}.

(** The members of [Surface] called by the MPI translation unit; their
    bodies are in [surface.h], which is not part of the sources.
    [calculate_spin t n g k j] is the lattice after the call with
    [coords = {k, j}] at temperature [t], when it is the [n]-th call this
    process makes (each call may consult the random source once). *)
Variable clear : Grid → Grid.
Variable calculate_energy : Grid → E.
Variable calculate_magnetism : Grid → M.
Variable calculate_spin : Temp → nat → Grid → Z → Z → Grid.

(** A process: the actions still to run, its lattice, the number of
    [calculate_spin] calls made so far, and the actions already run, each
    with the lattice it ran on (oldest first). *)
Record Proc := mkProc {
  todo : list Action;
  lattice : Surface Temp E M;
  calls : nat;
  history : list (Action * Surface Temp E M)
}.

Record World := mkWorld {
  procs : gmap Z Proc;
  net : gmap (Z * Z * Z) (list (list Z))
}.

Variable world_size : Z.

(** Effect of action [a] run by rank [me]; [None] when it has to wait. *)
Definition perform (me : Z) (a : Action) (l : Surface Temp E M) (n : nat)
           (nt : Net) : option (Surface Temp E M * nat * Net) :=
  match a with
  | MPI_Send row dest tag =>
      Some (l, n, push (me, dest, tag) (row_at (surface l) row) nt)
  | MPI_Recv row src tag =>
      k ← matching world_size me src tag nt;
      match chan nt k with
      | r :: rest => Some (set_surface (store_row row r (surface l)) l, n,
                           <[k := rest]> nt)
      | [] => None
      end
  | StoreStats i =>
      Some (set_stats i (calculate_energy (surface l))
                      (calculate_magnetism (surface l)) l, n, nt)
  | CalculateSpin k j =>
      Some (set_surface (calculate_spin (temperature l) n (surface l) k j) l,
            S n, nt)
  | Clear => Some (set_surface (clear (surface l)) l, n, nt)
  | Save => Some (l, n, nt)
  | SetComplete => Some (set_complete true l, n, nt)
  | Report => Some (l, n, nt)
  end.

(** One step of process [p] with rank [me]. *)
Definition pstep (me : Z) (p : Proc) (nt : Net) : option (Proc * Net) :=
  match todo p with
  | [] => None
  | a :: rest =>
      '(l, n, nt') ← perform me a (lattice p) (calls p) nt;
      Some (mkProc rest l n (history p ++ [(a, lattice p)]), nt')
  end.

(** One step of rank [r] in the world; [None] when [r] has finished, waits
    in a receive, or is not a rank of the world. *)
Definition step (r : Z) (w : World) : option World :=
  p ← procs w !! r;
  '(p', nt') ← pstep r p (net w);
  Some (mkWorld (<[r := p']> (procs w)) nt').

(** A schedule names the rank that is given the next turn; a rank that
    cannot move loses its turn. *)
Fixpoint run (sched : list Z) (w : World) : World :=
  match sched with
  | [] => w
  | r :: sched' => run sched' (default w (step r w))
  end.

(** No rank can move: every process has finished or waits for ever. *)
Definition halted (w : World) : Prop := ∀ r, step r w = None.

(** Every process ran to the end of its program. *)
Definition finished (w : World) : Prop :=
  ∀ r p, procs w !! r = Some p → todo p = [].
End Semantics.

(** ** Command line *)

(** [atoi] of the C library: leading white space, an optional sign, then
    decimal digits up to the first other character; 0 when there is no
    digit.  (Values beyond [int] are outside the C standard and not
    modelled.) *)
Definition is_space (c : ascii) : bool :=
  let n := Z.of_nat (nat_of_ascii c) in
  (n =? 32) || ((9 <=? n) && (n <=? 13)).

Definition digit_of (c : ascii) : option Z :=
  let n := Z.of_nat (nat_of_ascii c) in
  if (48 <=? n) && (n <=? 57) then Some (n - 48) else None.

Fixpoint digits (acc : Z) (s : string) : Z :=
  match s with
  | EmptyString => acc
  | String c s' =>
      match digit_of c with
      | Some d => digits (10 * acc + d) s'
      | None => acc
      end
  end.

Fixpoint skip_spaces (s : string) : string :=
  match s with
  | String c s' => if is_space c then skip_spaces s' else s
  | EmptyString => s
  end.

Definition atoi (s : string) : Z :=
  match skip_spaces s with
  | String "-" s' => - digits 0 s'
  | String "+" s' => digits 0 s'
  | s' => digits 0 s'
  end.

(** [argv[i]] for [i < argc]. *)
Definition arg (argv : list string) (i : nat) : string := nth i argv EmptyString.
Definition argc (argv : list string) : Z := Z.of_nat (length argv).

Definition usage : string := "Usage: ./ising n size temperature {output}".
Definition n_not_positive : string := "'n' has to be a positive integer".
Definition rows_not_positive : string := "'rows' has to be a positive integer".

(** What [main] comes to on one process. *)
Inductive Outcome {Temp E M : Type} :=
| Exits (message : string) (status : Z)
    (* the message written to cout, then [return status] *)
| DividesByZero (lattice : Surface Temp E M)
    (* the lattice exists and [rows / (world_size - 1)] has a zero divisor:
       no behaviour is defined for the rest of the run *)
| Runs (lattice : Surface Temp E M) (rows_per_slave : Z)
       (program : list Action) (status : Z).
    (* the lattice handed on, the partition, the actions of the process in
       program order and the status returned when they have all run *)
Arguments Outcome : clear implicits.

Section Main.
Context {Temp E M : Type}.

(** [strtod] and the constructor of [Surface] ([surface.h], not part of the
    sources): [construct name n size temperature]. *)
Variable strtod : string → Temp.
Variable construct : string → Z → Z → Temp → Surface Temp E M.

(** Actions of one MPI process after the argument checks. *)
Definition mpi_program (world_size my_rank rows_per_slave : Z)
           (lattice : Surface Temp E M) : list Action * Z :=
  let '(body, status) := initialise world_size my_rank rows_per_slave lattice in
  (master_to_slaves_sync world_size my_rank lattice ++ body, status).

(** [main] of the MPI translation unit, on the process of rank [my_rank]
    in a group of [world_size] processes. *)
Definition main (world_size my_rank : Z) (argv : list string)
  : Outcome Temp E M :=
  if (argc argv <? 4) || (argc argv >? 5) then Exits usage EXIT_FAILURE
  else
    let n := atoi (arg argv 1) in
    if n <=? 0 then Exits n_not_positive EXIT_FAILURE
    else
      let rows := atoi (arg argv 2) in
      if rows <=? 0 then Exits rows_not_positive EXIT_FAILURE
      else
        let lattice := construct (arg argv 0) n rows (strtod (arg argv 3)) in
        let lattice :=
          if argc argv =? 5 then set_output (arg argv 4) lattice else lattice in
        if world_size - 1 =? 0 then DividesByZero lattice
        else
          let rows_per_slave := Z.quot rows (world_size - 1) in
          let '(program, status) :=
            mpi_program world_size my_rank rows_per_slave lattice in
          Runs lattice rows_per_slave program status.
End Main.

(** The single-process translation unit (the first [main] and [initialise]
    of [main.cpp]), whose [simulate] comes from one of [sim_serial.h],
    [sim_omp.h] and [sim_cuda.h]. *)
Module SingleProcess.
Section Unit.
Context {Temp E M : Type}.
Variable strtod : string → Temp.
Variable construct : string → Z → Z → Temp → Surface Temp E M.
Variable clear : Grid → Grid.
(** The backend's [simulate]: the lattice it leaves and its status. *)
Variable simulate : Surface Temp E M → Surface Temp E M * Z.

(** What the process did: messages on cout, and calls on the lattice. *)
Inductive Event :=
| Print (message : string)
| Constructed (lattice : Surface Temp E M)
| Saved (lattice : Surface Temp E M)
| Simulated (lattice : Surface Temp E M).

Definition initialise (lattice : Surface Temp E M) : list Event * Z :=
  let cleared := set_surface (clear (surface lattice)) lattice in
  let '(after, status) := simulate cleared in
  let final := set_complete true after in
  ([Saved cleared; Simulated cleared; Saved final; Print (name final)],
   status).

Definition main (argv : list string) : list Event * Z :=
  if (argc argv <? 4) || (argc argv >? 5) then ([Print usage], EXIT_FAILURE)
  else
    let n := atoi (arg argv 1) in
    if n <=? 0 then ([Print n_not_positive], EXIT_FAILURE)
    else
      let lattice :=
        construct (arg argv 0) n (atoi (arg argv 2)) (strtod (arg argv 3)) in
      let lattice :=
        if argc argv =? 5 then set_output (arg argv 4) lattice else lattice in
      let '(events, status) := initialise lattice in
      (Constructed lattice :: events, status).
End Unit.
End SingleProcess.

(** ** The world of one run *)

Section Boot.
Context {Temp E M : Type}.

(** The world when every process has passed the argument checks of [main]:
    rank [r] holds the lattice [lat r] it constructed and has its whole
    program to run; nothing is in flight. *)
Definition boot (world_size rows_per_slave : Z)
           (lat : Z → Surface Temp E M) : World (Temp:=Temp) (E:=E) (M:=M) :=
  mkWorld
    (list_to_map
       ((λ r, (r, mkProc (fst (mpi_program world_size r rows_per_slave (lat r)))
                         (lat r) 0%nat [])) <$> range 0 world_size))
    ∅.
End Boot.

(** A schedule that lets the processes move phase by phase: the coordinator
    sends a full lattice, each worker receives it; in every sweep the
    coordinator stores the statistics, each worker updates and sends its rows,
    the coordinator receives [size] rows and synchronises again. *)
Definition turns (r n : Z) : list Z := replicate (Z.to_nat n) r.

Definition sync_turns (world_size size : Z) : list Z :=
  (_ ← range 1 world_size; turns 0 size)
    ++ (w ← range 1 world_size; turns w size).

Definition sweep_turns (world_size rows_per_slave size : Z) : list Z :=
  turns 0 1
    ++ (w ← range 1 world_size; _ ← range 0 rows_per_slave; turns w (size + 1))
    ++ turns 0 size
    ++ sync_turns world_size size.

Definition phased (world_size rows_per_slave size loops : Z) : list Z :=
  sync_turns world_size size
    ++ turns 0 2
    ++ (_ ← range 0 loops; sweep_turns world_size rows_per_slave size)
    ++ turns 0 3.

(** ** The lattice operations, from their specification *)

Module Ising.

(** Modelled from the spec: the cell read of [Surface::calculate_spin] and of
    the statistics (sections 4.2 and 4.3): the spin at column [x], row [y] of
    a square lattice, with wrap-around at the edges. *)
Definition spin (g : Grid) (x y : Z) : Z :=
  let n := Z.of_nat (length g) in
  default 0 (row_at g (y mod n) !! Z.to_nat (x mod n)).

(** Modelled from the spec: the one write of [Surface::calculate_spin]
    (section 4.2), [surface[y][x] = v] for a cell of the lattice. *)
Definition set_spin (g : Grid) (x y v : Z) : Grid :=
  if decide (0 ≤ x ∧ 0 ≤ y)
  then <[Z.to_nat y := <[Z.to_nat x := v]> (row_at g y)]> g
  else g.

(** Modelled from the spec: the neighbourhood read by
    [Surface::calculate_spin] (section 4.2), the sum of the four neighbours of
    a cell on the torus. *)
Definition neighbours (g : Grid) (x y : Z) : Z :=
  spin g (x - 1) y + spin g (x + 1) y + spin g x (y - 1) + spin g x (y + 1).

(** Modelled from the spec: the energy change [Surface::calculate_spin]
    computes for flipping the spin at [(x, y)] under the nearest-neighbour
    Hamiltonian with coupling 1 (section 4.2). *)
Definition delta_energy (g : Grid) (x y : Z) : Z :=
  2 * spin g x y * neighbours g x y.

(** Modelled from the spec: the acceptance test of [Surface::calculate_spin]
    (section 4.2): accept unconditionally when the energy change is not
    positive, otherwise when the draw is below [exp (-dE / temperature)]. *)
Definition metropolis (t : R) (dE : Z) (u : R) : bool :=
  if dE <=? 0 then true
  else if Rlt_dec u (exp (- IZR dE / t)) then true else false.

(** Modelled from the spec: [Surface::calculate_spin] (section 4.2), with
    the uniform draws of the process given as [draw]: the call flips the
    addressed spin when the Metropolis test accepts and leaves the lattice as
    it is otherwise. *)
Definition calculate_spin (draw : nat → R) (t : R) (n : nat) (g : Grid)
           (k j : Z) : Grid :=
  if metropolis t (delta_energy g k j) (draw n)
  then set_spin g k j (- spin g k j)
  else g.

(** Modelled from the spec: [Surface::calculate_spin] (section 4.2) when the
    outcome of the comparison of each draw is given: [hot n] tells whether the
    [n]-th draw is below the threshold. *)
Definition decided (hot : nat → bool) (n : nat) (g : Grid) (k j : Z) : Grid :=
  if (delta_energy g k j <=? 0) || hot n
  then set_spin g k j (- spin g k j)
  else g.

(** A lattice of [n] rows of [n] spins. *)
Definition square (n : Z) (g : Grid) : Prop :=
  length g = Z.to_nat n ∧ Forall (λ r, length r = Z.to_nat n) g.

(** The cells of a lattice, row by row. *)
Definition cells (g : Grid) : list (Z * Z) :=
  let n := Z.of_nat (length g) in
  y ← range 0 n; x ← range 0 n; [(x, y)].

Definition sumZ (l : list Z) : Z := foldr Z.add 0 l.

(** Modelled from the spec: [Surface::calculate_energy] (section 4.3), the
    nearest-neighbour interaction energy with every edge counted once (each
    cell with its right and lower neighbour). *)
Definition calculate_energy (g : Grid) : Z :=
  - sumZ ((λ '(x, y), spin g x y * (spin g (x + 1) y + spin g x (y + 1)))
            <$> cells g).

(** Modelled from the spec: [Surface::calculate_magnetism] (section 4.3), the
    absolute value of the sum of all spins over the number of cells. *)
Definition calculate_magnetism (g : Grid) : Q :=
  (inject_Z (Z.abs (sumZ ((λ '(x, y), spin g x y) <$> cells g)))
   / inject_Z (Z.of_nat (length (cells g))))%Q.

(** Modelled from the spec: [Surface::clear] sets every spin to the initial
    configuration, all spins up (sections 3 and 8). *)
Definition clear (g : Grid) : Grid :=
  (λ r : list Z, (λ _ : Z, 1) <$> r) <$> g.

End Ising.


(** ** Notions used to reason about runs *)

(** What a step does to the messages in flight. *)
Inductive NetOp :=
| Keep
| Push (k : Z * Z * Z) (r : list Z)
| Pop (k : Z * Z * Z).

Definition apply_op (op : NetOp) (nt : Net) : Net :=
  match op with
  | Keep => nt
  | Push k r => push k r nt
  | Pop k => <[k := tail (chan nt k)]> nt
  end.

Section Observations.
Context {Temp E M : Type}.

(** The lattice a process holds when it is about to run its [k]-th action
    (counting from 0), once it has got that far. *)
Definition seen (p : Proc (Temp:=Temp) (E:=E) (M:=M)) (k : nat)
  : option (Surface Temp E M) :=
  match history p !! k with
  | Some (_, l) => Some l
  | None => if decide (k = length (history p)) then Some (lattice p) else None
  end.

Definition seen_at (w : World (Temp:=Temp) (E:=E) (M:=M)) (r : Z) (k : nat)
  : option (Surface Temp E M) :=
  p ← procs w !! r; seen p k.

(** The actions a process has run, in order. *)
Definition ran (p : Proc (Temp:=Temp) (E:=E) (M:=M)) : list Action :=
  (history p).*1.
End Observations.

(** What the sweep protocol needs of [calculate_spin] and [clear]: a call
    on [coords = {k, j}] leaves every other row as it is, and neither changes
    the number of rows. *)
Definition touches_own_row {Temp : Type}
           (calculate_spin : Temp → nat → Grid → Z → Z → Grid) : Prop :=
  ∀ t n g k j y, y ≠ j → row_at (calculate_spin t n g k j) y = row_at g y.

Definition keeps_rows (f : Grid → Grid) : Prop :=
  ∀ g, length (f g) = length g.

(** The blocks the programs are made of, for a lattice of [size] rows. *)
Definition sends_rows (dest size : Z) : list Action :=
  (λ y, MPI_Send y dest y) <$> range 0 size.

Definition sends_all (world_size size : Z) : list Action :=
  i ← range 1 world_size; sends_rows i size.

Definition recvs_rows (src : Source) (size : Z) : list Action :=
  (λ y, MPI_Recv y src y) <$> range 0 size.

Definition updates (size lo hi : Z) : list Action :=
  j ← range lo hi; ((λ k, CalculateSpin k j) <$> range 0 size) ++ [MPI_Send j 0 j].

(** The cells updated, the rows sent to [dest] and the rows received by a
    list of actions, in order. *)
Definition spins (acts : list Action) : list (Z * Z) :=
  omap (λ a, match a with CalculateSpin k j => Some (k, j) | _ => None end) acts.

Definition rows_sent (dest : Z) (acts : list Action) : list Z :=
  omap (λ a, match a with
             | MPI_Send row d _ => if decide (d = dest) then Some row else None
             | _ => None
             end) acts.

Definition rows_received (acts : list Action) : list Z :=
  omap (λ a, match a with MPI_Recv row _ _ => Some row | _ => None end) acts.

(** The actions that leave the cells of the lattice as they are. *)
Definition keeps_cells (a : Action) : Prop :=
  match a with
  | MPI_Recv _ _ _ | CalculateSpin _ _ | Clear => False
  | _ => True
  end.

(** Sends, saves and the report leave the lattice as it is. *)
Definition quiet (a : Action) : Prop :=
  match a with
  | MPI_Send _ _ _ | Save | Report => True
  | _ => False
  end.

(** The indices written by the [StoreStats] actions of a list, in order. *)
Definition stores (acts : list Action) : list Z :=
  omap (λ a, match a with StoreStats i => Some i | _ => None end) acts.

(** Where the processes stand, counted in actions run, for a lattice of
    [size] rows: the coordinator when it is about to store the statistics of
    sweep [i] and when it has received the rows of sweep [i]; a worker when it
    is about to start sweep [i], to send row [y] in sweep [i], and when it has
    updated and sent all its rows of sweep [i]. *)
Definition stats_at (world_size size : Z) (i : nat) : nat :=
  Z.to_nat (world_size - 1) * Z.to_nat size + 2
  + i * (1 + Z.to_nat size + Z.to_nat (world_size - 1) * Z.to_nat size).

Definition gathered_at (world_size size : Z) (i : nat) : nat :=
  stats_at world_size size i + 1 + Z.to_nat size.

Definition sweep_at (rows_per_slave size : Z) (i : nat) : nat :=
  Z.to_nat size
  + i * (Z.to_nat rows_per_slave * (Z.to_nat size + 1) + Z.to_nat size).

Definition sends_at (rows_per_slave size : Z) (i : nat) (r y : Z) : nat :=
  sweep_at rows_per_slave size i
  + (Z.to_nat (y - start r rows_per_slave) * (Z.to_nat size + 1)
     + Z.to_nat size).

Definition updated_at (rows_per_slave size : Z) (i : nat) : nat :=
  sweep_at rows_per_slave size i
  + Z.to_nat rows_per_slave * (Z.to_nat size + 1).

(** The rank whose range holds row [y]. *)
Definition owner (rows_per_slave y : Z) : Z := y / rows_per_slave + 1.

Section Runs.
Context {Temp E M : Type}.
Variable clear : Grid → Grid.
Variable calculate_energy : Grid → E.
Variable calculate_magnetism : Grid → M.
Variable calculate_spin : Temp → nat → Grid → Z → Z → Grid.
Variable world_size : Z.

Definition net_op (me : Z) (a : Action) (l : Surface Temp E M) (nt : Net)
  : NetOp :=
  match a with
  | MPI_Send row dest tag => Push (me, dest, tag) (row_at (surface l) row)
  | MPI_Recv row src tag =>
      match matching world_size me src tag nt with
      | Some k => Pop k
      | None => Keep
      end
  | _ => Keep
  end.

(** Rank [s] has, or may still send, a message for [d] with tag [t]. *)
Definition may_arrive (w : World (Temp:=Temp) (E:=E) (M:=M)) (s d t : Z) : Prop :=
  chan (net w) (s, d, t) ≠ []
  ∨ ∃ p row, procs w !! s = Some p ∧ MPI_Send row d t ∈ todo p.

(** Every receive from any source that a process still has to run can be
    served by one rank only. *)
Definition unambiguous (w : World (Temp:=Temp) (E:=E) (M:=M)) : Prop :=
  ∀ d p row t s s',
    procs w !! d = Some p → MPI_Recv row MPI_ANY_SOURCE t ∈ todo p →
    may_arrive w s d t → may_arrive w s' d t → s = s'.

(** A schedule in which every turn is a move. *)
Fixpoint exec (sched : list Z) (w : World (Temp:=Temp) (E:=E) (M:=M))
  : option World :=
  match sched with
  | [] => Some w
  | r :: sched' =>
      w' ← step clear calculate_energy calculate_magnetism calculate_spin
              world_size r w;
      exec sched' w'
  end.

(** The turns of a schedule that are moves. *)
Fixpoint moves (sched : list Z) (w : World (Temp:=Temp) (E:=E) (M:=M))
  : list Z :=
  match sched with
  | [] => []
  | r :: sched' =>
      match step clear calculate_energy calculate_magnetism calculate_spin
                 world_size r w with
      | Some w' => r :: moves sched' w'
      | None => moves sched' w
      end
  end.

(** [n] steps of one process. *)
Fixpoint psteps (n : nat) (me : Z) (p : Proc (Temp:=Temp) (E:=E) (M:=M))
         (nt : Net) : option (Proc * Net) :=
  match n with
  | O => Some (p, nt)
  | S n' =>
      '(p', nt') ← pstep clear calculate_energy calculate_magnetism
                     calculate_spin world_size me p nt;
      psteps n' me p' nt'
  end.

(** Row [y] as the coordinator holds it when it is about to run its
    [k0]-th action is the row its owner held when it sent it, in the sweep the
    owner started at its [kw]-th action; and, when [calculate_spin] only
    touches the row it is called on, the row the owner held at the end of its
    updates of that sweep. *)
Definition row_gathered (w : World (Temp:=Temp) (E:=E) (M:=M))
           (rows_per_slave size y : Z) (k0 kw : nat) : Prop :=
  ∃ lc lw,
    seen_at w 0 k0 = Some lc
    ∧ seen_at w (owner rows_per_slave y)
              (kw + (Z.to_nat (y - start (owner rows_per_slave y) rows_per_slave)
                     * (Z.to_nat size + 1) + Z.to_nat size))
      = Some lw
    ∧ row_at (surface lc) y = row_at (surface lw) y
    ∧ (touches_own_row calculate_spin →
       ∃ lw', seen_at w (owner rows_per_slave y)
                      (kw + Z.to_nat rows_per_slave * (Z.to_nat size + 1))
              = Some lw'
              ∧ row_at (surface lw') y = row_at (surface lc) y).

(** The lattice worker [r] holds when it is about to run its [ke]-th action
    is the one it held at its [km]-th action with the rows below [size]
    overwritten by those the coordinator held at its [k0]-th action. *)
Definition lattice_synced (w : World (Temp:=Temp) (E:=E) (M:=M))
           (r size : Z) (k0 km ke : nat) : Prop :=
  ∃ lc lm le,
    seen_at w 0 k0 = Some lc ∧ seen_at w r km = Some lm
    ∧ seen_at w r ke = Some le
    ∧ surface le
      = foldl (λ g y, store_row y (row_at (surface lc) y) g) (surface lm)
              (range 0 size).

(** The statistics arrays as the [StoreStats] actions of a history leave
    them. *)
Definition log_energy (m : gmap Z E) (e : Action * Surface Temp E M)
  : gmap Z E :=
  match e.1 with
  | StoreStats i => <[i := calculate_energy (surface e.2)]> m
  | _ => m
  end.

Definition log_magnetism (m : gmap Z M) (e : Action * Surface Temp E M)
  : gmap Z M :=
  match e.1 with
  | StoreStats i => <[i := calculate_magnetism (surface e.2)]> m
  | _ => m
  end.

(** The lattice [l'] a process holds after action [a], run on the lattice
    [l] it held before. *)
Definition follows (a : Action) (l l' : Surface Temp E M) : Prop :=
  match a with
  | MPI_Send _ _ _ | Save | Report => l' = l
  | MPI_Recv row _ _ => ∃ buf, l' = set_surface (store_row row buf (surface l)) l
  | StoreStats i =>
      l' = set_stats i (calculate_energy (surface l))
                     (calculate_magnetism (surface l)) l
  | CalculateSpin k j =>
      ∃ n, l' = set_surface (calculate_spin (temperature l) n (surface l) k j) l
  | Clear => l' = set_surface (clear (surface l)) l
  | SetComplete => l' = set_complete true l
  end.

(** No rank of [0, world_size) can move. *)
Definition haltedb (w : World (Temp:=Temp) (E:=E) (M:=M)) : bool :=
  forallb (λ r, match step clear calculate_energy calculate_magnetism
                           calculate_spin world_size r w with
                | Some _ => false
                | None => true
                end) (range 0 world_size).
End Runs.



(** ** Concrete runs *)

Module Example.

(** A lattice as the constructor leaves it: parameters set, no statistics,
    not complete, no output; temperature 1. *)
Definition lattice_of (g : Grid) (n size : Z) : Surface R Z Q :=
  mkSurface "./ising" n size 1%R g ∅ ∅ false false "".

Definition checkerboard : Grid := [[1; -1]; [-1; 1]].
Definition all_up : Grid := [[1; 1; 1]; [1; 1; 1]; [1; 1; 1]].
Definition four_up : Grid := [[1; 1]; [1; 1]].

(** Draws that are 0 at the calls where [hot] and 1/2 at the others. *)
Definition draws (hot : nat → bool) : nat → R :=
  λ n, if hot n then 0%R else (1 / 2)%R.

(** Runs of the protocol with the lattice operations of section 4 and the
    given draws. *)
Abbreviation run_with hot :=
  (run Ising.clear Ising.calculate_energy Ising.calculate_magnetism
       (Ising.calculate_spin (draws hot))).

(** The same runs with the outcome of every draw decided. *)
Abbreviation run_decided hot :=
  (run Ising.clear Ising.calculate_energy Ising.calculate_magnetism
       (λ _ : R, Ising.decided hot)).

Definition cold : nat → bool := λ _, false.
Definition first_hot : nat → bool := λ n, Nat.eqb n 0.

(** Worlds after the argument checks of [main]: every process constructed
    the same lattice. *)
Abbreviation start_world world_size rows_per_slave g n size :=
  (boot world_size rows_per_slave (λ _, lattice_of g n size)).

(** What a process saw and ran, without the real-valued temperature. *)
Definition surface_seen (w : World (Temp:=R) (E:=Z) (M:=Q)) (r : Z) (k : nat)
  : option Grid :=
  match seen_at w r k with
  | Some l => Some (surface l)
  | None => None
  end.

Definition ran_at (w : World (Temp:=R) (E:=Z) (M:=Q)) (r : Z) (k : nat)
  : option (Action * Grid) :=
  match procs w !! r with
  | Some p =>
      match history p !! k with
      | Some (a, l) => Some (a, surface l)
      | None => None
      end
  | None => None
  end.

Definition energy_logged (w : World (Temp:=R) (E:=Z) (M:=Q)) (i : Z)
  : option Z :=
  match procs w !! 0 with
  | Some p => avgEnergy (lattice p) !! i
  | None => None
  end.

Definition magnetism_logged (w : World (Temp:=R) (E:=Z) (M:=Q)) (i : Z)
  : option Q :=
  match procs w !! 0 with
  | Some p => avgMag (lattice p) !! i
  | None => None
  end.

Definition completed (w : World (Temp:=R) (E:=Z) (M:=Q)) : option bool :=
  match procs w !! 0 with
  | Some p => Some (complete (lattice p))
  | None => None
  end.

Definition left_to_do (w : World (Temp:=R) (E:=Z) (M:=Q)) (r : Z)
  : option (list Action) :=
  match procs w !! r with
  | Some p => Some (todo p)
  | None => None
  end.




End Example.

(** * Properties *)

(** ** Loops over an index range *)

Lemma elem_of_range (lo hi y : Z) : y ∈ range lo hi ↔ lo ≤ y < hi.
Proof. unfold range. rewrite elem_of_seqZ. lia. Qed.

Lemma range_empty (lo hi : Z) : hi ≤ lo → range lo hi = [].
Proof.
  intros H. unfold range, seqZ.
  replace (Z.to_nat (hi - lo)) with 0%nat by lia. reflexivity.
Qed.

Lemma range_cons (lo hi : Z) : lo < hi → range lo hi = lo :: range (lo + 1) hi.
Proof.
  intros H. unfold range.
  rewrite (seqZ_cons lo (hi - lo)) by lia.
  f_equal. f_equal; lia.
Qed.

Lemma range_snoc (lo hi : Z) : lo ≤ hi → range lo (hi + 1) = range lo hi ++ [hi].
Proof.
  intros H. unfold range.
  replace (hi + 1 - lo) with (hi - lo + 1) by lia.
  rewrite seqZ_app by lia. simpl.
  replace (lo + (hi - lo)) with hi by lia. reflexivity.
Qed.

Lemma range_length (lo hi : Z) : length (range lo hi) = Z.to_nat (hi - lo).
Proof. unfold range. apply length_seqZ. Qed.

(** ** Row partition *)

(** C3: with [rows_per_slave = rows / (world_size - 1)] as [main] computes
    it, the worker of index [i] (rank [i + 1]) visits exactly the rows of
    [i * rows_per_slave, (i + 1) * rows_per_slave); the ranges of two workers
    share no row; 100 rows over 4 workers give [0,25), [25,50), [50,75) and
    [75,100), which cover [0,100); and a remainder row belongs to no
    worker. *)
Theorem row_partition (rows world_size : Z) :
  0 ≤ rows → 0 < world_size - 1 →
  let workers := world_size - 1 in
  let rows_per_slave := Z.quot rows workers in
  (∀ i, 0 ≤ i < workers →
     start (i + 1) rows_per_slave = i * rows_per_slave
     ∧ finish (i + 1) rows_per_slave = (i + 1) * rows_per_slave
     ∧ ∀ y, y ∈ range (start (i + 1) rows_per_slave)
                      (finish (i + 1) rows_per_slave)
            ↔ i * rows_per_slave ≤ y < (i + 1) * rows_per_slave)
  ∧ (∀ i j y, 0 ≤ i < workers → 0 ≤ j < workers → i ≠ j →
       y ∈ range (start (i + 1) rows_per_slave) (finish (i + 1) rows_per_slave) →
       y ∉ range (start (j + 1) rows_per_slave) (finish (j + 1) rows_per_slave))
  ∧ (∀ y i, rows_per_slave * workers ≤ y < rows → 0 ≤ i < workers →
       y ∉ range (start (i + 1) rows_per_slave) (finish (i + 1) rows_per_slave))
  ∧ ((λ i, (start (i + 1) (Z.quot 100 4), finish (i + 1) (Z.quot 100 4)))
       <$> range 0 4 = [(0, 25); (25, 50); (50, 75); (75, 100)]
     ∧ (i ← range 0 4;
        range (start (i + 1) (Z.quot 100 4)) (finish (i + 1) (Z.quot 100 4)))
       = range 0 100).
Proof.
  intros Hrows Hw workers rps.
  assert (Hrps : 0 ≤ rps) by (apply Z.quot_pos; lia).
  clearbody rps.
  unfold finish, start.
  split; [|split; [|split]].
  - intros i Hi. split; [lia|]. split; [lia|].
    intros y. rewrite elem_of_range. lia.
  - intros i j y Hi Hj Hij. rewrite !elem_of_range. nia.
  - intros y i Hy Hi. rewrite elem_of_range. nia.
  - split; reflexivity.
Qed.

(** The partition of a lattice of 7 rows over 3 workers (2 rows each, row 6
    left over). *)
Lemma row_partition_witness :
  let rows_per_slave := Z.quot 7 (4 - 1) in
  start (1 + 1) rows_per_slave = 1 * rows_per_slave
  ∧ 6 ∉ range (start (2 + 1) rows_per_slave) (finish (2 + 1) rows_per_slave).
Proof.
  pose proof (row_partition 7 4 ltac:(lia) ltac:(lia)) as (Hr & _ & Hrem & _).
  split.
  - apply (Hr 1). lia.
  - apply (Hrem 6 2); vm_compute; split; congruence.
Defined.

(** ** Argument checks *)

Section ArgumentChecks.
Context {Temp E M : Type}.
Variable strtod : string → Temp.
Variable construct : string → Z → Z → Temp → Surface Temp E M.

Lemma atoi_examples :
  atoi "10" = 10 ∧ atoi "100" = 100 ∧ atoi "0" = 0 ∧ atoi "-3" = -3
  ∧ atoi " +42x" = 42 ∧ atoi "abc" = 0.
Proof. repeat split; reflexivity. Qed.

(** The MPI [main] turns away a bad argument count, a non-positive [n] and
    a non-positive [rows] before the lattice is constructed. *)
Lemma main_rejects_rows (world_size my_rank : Z) (argv : list string) :
  4 ≤ argc argv ≤ 5 → 0 < atoi (arg argv 1) → atoi (arg argv 2) ≤ 0 →
  main strtod construct world_size my_rank argv
  = Exits rows_not_positive EXIT_FAILURE.
Proof.
  intros Hc Hn Hr. unfold main.
  destruct (argc argv <? 4) eqn:H4; [lia|].
  destruct (argc argv >? 5) eqn:H5; [lia|]. simpl.
  destruct (atoi (arg argv 1) <=? 0) eqn:H1; [lia|].
  destruct (atoi (arg argv 2) <=? 0) eqn:H2; [reflexivity|lia].
Qed.

(** C4: started as the only process of its group ([world_size = 1], no
    worker) with good arguments, the MPI [main] constructs the lattice and
    then divides [rows] by [world_size - 1 = 0]; it neither prints a message
    nor returns [EXIT_FAILURE]. *)
Theorem no_worker_divides_by_zero :
  main strtod construct 1 0 ["./ising"; "10"; "100"; "2.0"]
  = DividesByZero (construct "./ising" 10 100 (strtod "2.0")).
Proof. reflexivity. Qed.

Variable clear : Grid → Grid.
Variable simulate : Surface Temp E M → Surface Temp E M * Z.

(** C7: the single-process [main] has no check of [size]: with [size] 0 (and
    likewise -3) it constructs the lattice, clears and saves it, runs the
    backend and returns its status, where the MPI [main] prints the message
    for [rows] and returns [EXIT_FAILURE]. *)
Theorem single_process_accepts_bad_size :
  (let lattice := construct "./ising" 5 0 (strtod "1.0") in
   let cleared := set_surface (clear (surface lattice)) lattice in
   SingleProcess.main strtod construct clear simulate
     ["./ising"; "5"; "0"; "1.0"]
   = ([SingleProcess.Constructed lattice;
       SingleProcess.Saved cleared;
       SingleProcess.Simulated cleared;
       SingleProcess.Saved (set_complete true (simulate cleared).1);
       SingleProcess.Print (name (set_complete true (simulate cleared).1))],
      (simulate cleared).2))
  ∧ (let lattice := construct "./ising" 5 (-3) (strtod "1.0") in
     let cleared := set_surface (clear (surface lattice)) lattice in
     (SingleProcess.main strtod construct clear simulate
        ["./ising"; "5"; "-3"; "1.0"]).2 = (simulate cleared).2
     ∧ SingleProcess.Constructed lattice
       ∈ (SingleProcess.main strtod construct clear simulate
            ["./ising"; "5"; "-3"; "1.0"]).1)
  ∧ main strtod construct 3 0 ["./ising"; "5"; "0"; "1.0"]
    = Exits rows_not_positive EXIT_FAILURE
  ∧ main strtod construct 3 0 ["./ising"; "5"; "-3"; "1.0"]
    = Exits rows_not_positive EXIT_FAILURE.
Proof.
  split; [|split; [|split]].
  - cbv zeta. unfold SingleProcess.main, SingleProcess.initialise. simpl.
    change (atoi "0") with 0.
    destruct (simulate _) as [after status]. reflexivity.
  - cbv zeta. unfold SingleProcess.main, SingleProcess.initialise. simpl.
    change (atoi "-3") with (-3).
    destruct (simulate _) as [after status]. simpl. split; [reflexivity|].
    apply list_elem_of_here.
  - reflexivity.
  - reflexivity.
Qed.
End ArgumentChecks.

(** ** What [main] decides *)

Section MainOutcomes.
Context {Temp E M : Type}.
Variable strtod : string → Temp.
Variable construct : string → Z → Z → Temp → Surface Temp E M.

(** The lattice [main] hands on: constructed from the arguments, with the
    output file set when there is a fifth argument. *)
Local Abbreviation lattice_of_args argv :=
  ((if argc argv =? 5 then set_output (arg argv 4) else (λ l, l))
     (construct (arg argv 0) (atoi (arg argv 1)) (atoi (arg argv 2))
                (strtod (arg argv 3)))).



Variable clear : Grid → Grid.
Variable simulate : Surface Temp E M → Surface Temp E M * Z.


End MainOutcomes.




(** ** Channels *)

Lemma chan_insert (nt : Net) (k k' : Z * Z * Z) (l : list Row) :
  chan (<[k := l]> nt) k' = if decide (k = k') then l else chan nt k'.
Proof.
  unfold chan. rewrite lookup_insert. destruct (decide (k = k')); reflexivity.
Qed.

Lemma chan_push (nt : Net) (k k' : Z * Z * Z) (r : Row) :
  chan (push k r nt) k' = if decide (k = k') then chan nt k ++ [r] else chan nt k'.
Proof. unfold push. apply chan_insert. Qed.

Lemma chan_empty (k : Z * Z * Z) : chan ∅ k = [].
Proof. unfold chan. rewrite lookup_empty. reflexivity. Qed.

Lemma first_source_ext (world_size me tag : Z) (nt nt' : Net) :
  (∀ s, chan nt (s, me, tag) = [] ↔ chan nt' (s, me, tag) = []) →
  first_source world_size me tag nt = first_source world_size me tag nt'.
Proof.
  intros H. unfold first_source. f_equal.
  apply list_filter_iff. intros s. rewrite (H s). reflexivity.
Qed.

Lemma first_source_ready (world_size me tag s : Z) (nt : Net) :
  first_source world_size me tag nt = Some s → chan nt (s, me, tag) ≠ [].
Proof.
  unfold first_source. intros H.
  apply head_Some_elem_of in H. apply list_elem_of_filter in H. tauto.
Qed.

Lemma matching_key (world_size me : Z) (src : Source) (tag : Z) (nt : Net)
      (k : Z * Z * Z) :
  matching world_size me src tag nt = Some k →
  ∃ s, k = (s, me, tag) ∧ chan nt k ≠ []
       ∧ match src with FromRank s' => s = s' | MPI_ANY_SOURCE => True end.
Proof.
  unfold matching. destruct src as [|s'].
  - destruct (first_source world_size me tag nt) as [s|] eqn:Hs; simpl; [|done].
    intros [= <-]. exists s. split; [done|]. split; [|done].
    eapply first_source_ready; eauto.
  - destruct (decide _) as [|Hne]; [done|]. intros [= <-]. eauto.
Qed.

(** A receive that is ready stays ready, on the same channel, in every
    net with the same sources ready for its destination and tag. *)
Lemma matching_ext (world_size me : Z) (src : Source) (tag : Z) (nt nt' : Net) :
  (∀ s, chan nt (s, me, tag) = [] ↔ chan nt' (s, me, tag) = []) →
  matching world_size me src tag nt = matching world_size me src tag nt'.
Proof.
  intros H. unfold matching. destruct src as [|s'].
  - rewrite (first_source_ext _ _ _ nt nt' H). reflexivity.
  - destruct (decide (chan nt (s', me, tag) = [])) as [He|He];
      destruct (decide (chan nt' (s', me, tag) = [])) as [He'|He']; try done.
    + apply H in He. done.
    + apply H in He'. done.
Qed.

(** ** Steps commute *)

Section Confluence.
Context {Temp E M : Type}.
Variable clear : Grid → Grid.
Variable calculate_energy : Grid → E.
Variable calculate_magnetism : Grid → M.
Variable calculate_spin : Temp → nat → Grid → Z → Z → Grid.
Variable world_size : Z.

Local Abbreviation perform' :=
  (perform clear calculate_energy calculate_magnetism calculate_spin world_size).
Local Abbreviation pstep' :=
  (pstep clear calculate_energy calculate_magnetism calculate_spin world_size).
Local Abbreviation step' :=
  (step clear calculate_energy calculate_magnetism calculate_spin world_size).
Local Abbreviation run' :=
  (run clear calculate_energy calculate_magnetism calculate_spin world_size).
Local Abbreviation exec' :=
  (exec clear calculate_energy calculate_magnetism calculate_spin world_size).
Local Abbreviation moves' :=
  (moves clear calculate_energy calculate_magnetism calculate_spin world_size).
Local Abbreviation halted' :=
  (halted clear calculate_energy calculate_magnetism calculate_spin world_size).
Local Abbreviation net_op' := (net_op world_size).
Implicit Types (w : World (Temp:=Temp) (E:=E) (M:=M))
               (pr : Proc (Temp:=Temp) (E:=E) (M:=M))
               (p q r me : Z)
               (l : Surface Temp E M) (nt : Net).

Lemma perform_net me a l n nt l' n' nt' :
  perform' me a l n nt = Some (l', n', nt') →
  nt' = apply_op (net_op' me a l nt) nt.
Proof.
  unfold net_op.
  destruct a; simpl; try (intros [= <- <- <-]; reflexivity).
  destruct (matching world_size me src tag nt) as [k|] eqn:Hk; simpl; [|done].
  destruct (chan nt k) as [|r rest] eqn:Hc; [done|].
  intros [= <- <- <-]. reflexivity.
Qed.

(** The outcome of an action depends on the net only through the channel a
    receive reads. *)
Lemma perform_stable me a l n nt nt2 l' n' nt' :
  perform' me a l n nt = Some (l', n', nt') →
  (∀ row src tag, a = MPI_Recv row src tag →
     matching world_size me src tag nt2 = matching world_size me src tag nt
     ∧ ∀ k, matching world_size me src tag nt = Some k →
            head (chan nt2 k) = head (chan nt k)) →
  perform' me a l n nt2 = Some (l', n', apply_op (net_op' me a l nt) nt2).
Proof.
  unfold net_op.
  destruct a; simpl; try (intros [= <- <- <-] _; reflexivity).
  intros H Hs. destruct (Hs row src tag eq_refl) as [Hm Hh].
  rewrite Hm.
  destruct (matching world_size me src tag nt) as [k|] eqn:Hk; simpl in *; [|done].
  specialize (Hh k eq_refl).
  destruct (chan nt k) as [|r rest] eqn:Hc; [done|].
  injection H as <- <- <-.
  destruct (chan nt2 k) as [|r2 rest2] eqn:Hc2; simpl in Hh; [done|].
  injection Hh as ->. reflexivity.
Qed.

Lemma perform_recv_ready me row src tag l n nt x :
  perform' me (MPI_Recv row src tag) l n nt = Some x →
  ∃ k, matching world_size me src tag nt = Some k.
Proof.
  unfold perform.
  destruct (matching world_size me src tag nt) as [k|] eqn:Hk; [eauto|done].
Qed.

Lemma step_inv r w w' :
  step' r w = Some w' →
  ∃ (p : Proc (Temp:=Temp) (E:=E) (M:=M)) a rest l n,
    procs w !! r = Some p ∧ todo p = a :: rest
    ∧ perform' r a (lattice p) (calls p) (net w) = Some (l, n, net w')
    ∧ procs w' = <[r := mkProc rest l n (history p ++ [(a, lattice p)])]> (procs w).
Proof.
  unfold step, pstep.
  destruct (procs w !! r) as [p|] eqn:Hp; simpl; [|done].
  destruct (todo p) as [|a rest] eqn:Ht; simpl; [done|].
  destruct (perform' r a (lattice p) (calls p) (net w)) as [[[l n] nt']|] eqn:Ha;
    simpl; [|done].
  intros [= <-]. exists p, a, rest, l, n. simpl. done.
Qed.

Lemma step_intro r w (p : Proc (Temp:=Temp) (E:=E) (M:=M)) a rest l n nt' :
  procs w !! r = Some p → todo p = a :: rest →
  perform' r a (lattice p) (calls p) (net w) = Some (l, n, nt') →
  step' r w
  = Some (mkWorld (<[r := mkProc rest l n (history p ++ [(a, lattice p)])]> (procs w))
                  nt').
Proof.
  intros Hp Ht Ha. unfold step, pstep.
  rewrite Hp. simpl. rewrite Ht. simpl. rewrite Ha. reflexivity.
Qed.

(** Whose channel an action touches. *)
Lemma net_op_owner me a l n nt l' n' nt' :
  perform' me a l n nt = Some (l', n', nt') →
  match net_op' me a l nt with
  | Keep => True
  | Push (s, d, t) _ => s = me ∧ ∃ row, a = MPI_Send row d t
  | Pop (s, d, t) =>
      d = me ∧ chan nt (s, d, t) ≠ []
      ∧ ∃ row src, a = MPI_Recv row src t
                   ∧ matching world_size me src t nt = Some (s, d, t)
  end.
Proof.
  unfold net_op. destruct a; simpl; try done.
  - intros _. eauto.
  - destruct (matching world_size me src tag nt) as [k|] eqn:Hk; simpl; [|done].
    intros _. destruct (matching_key _ _ _ _ _ _ Hk) as (s & -> & Hne & _).
    split; [done|]. split; [done|]. eauto.
Qed.

Lemma tail_snoc {A} (c : list A) (r : A) : c ≠ [] → tail (c ++ [r]) = tail c ++ [r].
Proof. destruct c; done. Qed.

Lemma head_snoc {A} (c : list A) (r : A) : c ≠ [] → head (c ++ [r]) = head c.
Proof. destruct c; done. Qed.

(** Two net operations commute when they touch different channels, or one
    appends to and the other takes from a channel that is not empty. *)
Lemma apply_op_commute (op1 op2 : NetOp) nt :
  match op1, op2 with
  | Push k1 _, Push k2 _ | Pop k1, Pop k2 => k1 ≠ k2
  | Push k1 _, Pop k2 | Pop k2, Push k1 _ => k1 = k2 → chan nt k2 ≠ []
  | _, _ => True
  end →
  apply_op op1 (apply_op op2 nt) = apply_op op2 (apply_op op1 nt).
Proof.
  destruct op1 as [|k1 r1|k1], op2 as [|k2 r2|k2]; simpl; try done.
  - intros Hne. unfold push. rewrite !chan_insert.
    destruct (decide (k2 = k1)) as [->|]; [done|].
    destruct (decide (k1 = k2)) as [->|]; [done|].
    apply insert_insert_ne. done.
  - intros Hc. unfold push. rewrite !chan_insert.
    destruct (decide (k2 = k1)) as [->|Hne].
    + rewrite decide_True by done. rewrite !insert_insert_eq.
      rewrite tail_snoc by auto. done.
    + rewrite decide_False by done. apply insert_insert_ne. done.
  - intros Hc. unfold push. rewrite !chan_insert.
    destruct (decide (k2 = k1)) as [->|Hne].
    + rewrite decide_True by done. rewrite !insert_insert_eq.
      rewrite tail_snoc by auto. done.
    + rewrite decide_False by done. apply insert_insert_ne. done.
  - intros Hne. rewrite !chan_insert.
    destruct (decide (k2 = k1)) as [->|]; [done|].
    destruct (decide (k1 = k2)) as [->|]; [done|].
    apply insert_insert_ne. done.
Qed.

(** A receive of [q] that is ready is not disturbed by the net operation
    of another rank [p]: it takes the same message from the same channel. *)
Lemma matching_after_op p q (op1 : NetOp) src tag nt k :
  p ≠ q →
  matching world_size q src tag nt = Some k →
  match op1 with
  | Keep => True
  | Push (s, d, t) _ =>
      s = p ∧ (src = MPI_ANY_SOURCE → d = q → t = tag → chan nt (s, d, t) ≠ [])
  | Pop (s, d, t) => d = p
  end →
  matching world_size q src tag (apply_op op1 nt) = Some k
  ∧ head (chan (apply_op op1 nt) k) = head (chan nt k).
Proof.
  intros Hpq Hk Hop.
  destruct (matching_key _ _ _ _ _ _ Hk) as (s0 & -> & Hne & Hsrc).
  destruct op1 as [|[[s d] t] r|[[s d] t]]; simpl.
  - done.
  - destruct Hop as [-> Hany]. split.
    + rewrite <- Hk. destruct src as [|s']; simpl.
      * f_equal. apply first_source_ext. intros s1. rewrite chan_push.
        destruct (decide ((p, d, t) = (s1, q, tag))) as [[= <- -> ->]|]; [|done].
        split; [by destruct (chan nt (p, q, tag))|].
        intros He. destruct (Hany eq_refl eq_refl eq_refl He).
      * subst s'. rewrite chan_push.
        destruct (decide ((p, d, t) = (s0, q, tag))) as [[= <- -> ->]|].
        -- rewrite decide_False by (by destruct (chan nt (p, q, tag))).
           rewrite decide_False by done. done.
        -- done.
    + rewrite chan_push.
      destruct (decide ((p, d, t) = (s0, q, tag))) as [[= <- -> ->]|]; [|done].
      apply head_snoc. done.
  - subst d. split.
    + rewrite <- Hk. apply matching_ext. intros s1. rewrite chan_insert.
      rewrite decide_False by congruence. done.
    + rewrite chan_insert. rewrite decide_False by congruence. done.
Qed.

(** Steps of two different ranks commute. *)
Lemma diamond p q w w1 w2 :
  unambiguous w → p ≠ q →
  step' p w = Some w1 → step' q w = Some w2 →
  ∃ w3, step' q w1 = Some w3 ∧ step' p w2 = Some w3.
Proof.
  intros Hu Hpq H1 H2.
  destruct (step_inv _ _ _ H1) as (pp & a & ra & la & na & Hp & Hta & Ha & Hw1).
  destruct (step_inv _ _ _ H2) as (qq & b & rb & lb & nb & Hq & Htb & Hb & Hw2).
  pose proof (perform_net _ _ _ _ _ _ _ _ Ha) as Hn1.
  pose proof (perform_net _ _ _ _ _ _ _ _ Hb) as Hn2.
  pose proof (net_op_owner _ _ _ _ _ _ _ _ Ha) as Ho1.
  pose proof (net_op_owner _ _ _ _ _ _ _ _ Hb) as Ho2.
  set (op1 := net_op' p a (lattice pp) (net w)) in *.
  set (op2 := net_op' q b (lattice qq) (net w)) in *.
  (* what each operation guarantees to a receive of the other rank *)
  assert (G1 : ∀ src tag, (∃ row, b = MPI_Recv row src tag) →
            match op1 with
            | Keep => True
            | Push (s, d, t) _ =>
                s = p ∧ (src = MPI_ANY_SOURCE → d = q → t = tag →
                         chan (net w) (s, d, t) ≠ [])
            | Pop (s, d, t) => d = p
            end).
  { intros src tag [row ->].
    destruct op1 as [|[[s d] t] r|[[s d] t]]; [done| |tauto].
    destruct Ho1 as [-> [row1 ->]]. split; [done|].
    intros -> -> -> He.
    destruct (perform_recv_ready _ _ _ _ _ _ _ _ Hb) as [k Hk].
    destruct (matching_key _ _ _ _ _ _ Hk) as (s0 & -> & Hne & _).
    assert (s0 = p) as ->; [|done].
    eapply (Hu q qq row tag s0 p Hq).
    - rewrite Htb. apply list_elem_of_here.
    - left. done.
    - right. exists pp, row1. rewrite Hta. split; [done|apply list_elem_of_here]. }
  assert (G2 : ∀ src tag, (∃ row, a = MPI_Recv row src tag) →
            match op2 with
            | Keep => True
            | Push (s, d, t) _ =>
                s = q ∧ (src = MPI_ANY_SOURCE → d = p → t = tag →
                         chan (net w) (s, d, t) ≠ [])
            | Pop (s, d, t) => d = q
            end).
  { intros src tag [row ->].
    destruct op2 as [|[[s d] t] r|[[s d] t]]; [done| |tauto].
    destruct Ho2 as [-> [row2 ->]]. split; [done|].
    intros -> -> -> He.
    destruct (perform_recv_ready _ _ _ _ _ _ _ _ Ha) as [k Hk].
    destruct (matching_key _ _ _ _ _ _ Hk) as (s0 & -> & Hne & _).
    assert (s0 = q) as ->; [|done].
    eapply (Hu p pp row tag s0 q Hp).
    - rewrite Hta. apply list_elem_of_here.
    - left. done.
    - right. exists qq, row2. rewrite Htb. split; [done|apply list_elem_of_here]. }
  assert (Hb1 : perform' q b (lattice qq) (calls qq) (net w1)
                = Some (lb, nb, apply_op op2 (net w1))).
  { rewrite Hn1. eapply perform_stable; [exact Hb|].
    intros row src tag ->.
    destruct (matching world_size q src tag (net w)) as [k|] eqn:Hk.
    - destruct (matching_after_op p q op1 src tag (net w) k Hpq Hk) as [Hm Hh].
      { apply G1. eauto. }
      split; [done|]. intros k' [= <-]. done.
    - destruct (perform_recv_ready _ _ _ _ _ _ _ _ Hb) as [k' Hk']. congruence. }
  assert (Ha2 : perform' p a (lattice pp) (calls pp) (net w2)
                = Some (la, na, apply_op op1 (net w2))).
  { rewrite Hn2. eapply perform_stable; [exact Ha|].
    intros row src tag ->.
    destruct (matching world_size p src tag (net w)) as [k|] eqn:Hk.
    - destruct (matching_after_op q p op2 src tag (net w) k
                  (not_eq_sym Hpq) Hk) as [Hm Hh].
      { apply G2. eauto. }
      split; [done|]. intros k' [= <-]. done.
    - destruct (perform_recv_ready _ _ _ _ _ _ _ _ Ha) as [k' Hk']. congruence. }
  assert (Hq1 : procs w1 !! q = Some qq).
  { rewrite Hw1. rewrite lookup_insert_ne by done. done. }
  assert (Hp2 : procs w2 !! p = Some pp).
  { rewrite Hw2. rewrite lookup_insert_ne by done. done. }
  rewrite (step_intro q w1 qq b rb lb nb _ Hq1 Htb Hb1).
  rewrite (step_intro p w2 pp a ra la na _ Hp2 Hta Ha2).
  eexists. split; [reflexivity|]. f_equal. f_equal.
  - rewrite Hw1, Hw2. apply insert_insert_ne. done.
  - rewrite Hn1, Hn2. apply apply_op_commute.
    destruct op1 as [|[[s1 d1] t1] r1|[[s1 d1] t1]],
             op2 as [|[[s2 d2] t2] r2|[[s2 d2] t2]]; try done.
    + destruct Ho1 as [-> _], Ho2 as [-> _]. congruence.
    + destruct Ho2 as (-> & Hne & _). intros _. done.
    + destruct Ho1 as (-> & Hne & _). intros _. done.
    + destruct Ho1 as (-> & _), Ho2 as (-> & _). congruence.
Qed.

(** A step adds nothing to what a process still has to run, nor to the
    messages that may still arrive. *)
Lemma todo_step r w w' d (pd : Proc (Temp:=Temp) (E:=E) (M:=M)) x :
  step' r w = Some w' → procs w' !! d = Some pd → x ∈ todo pd →
  ∃ pd', procs w !! d = Some pd' ∧ x ∈ todo pd'.
Proof.
  intros Hs Hd Hx.
  destruct (step_inv _ _ _ Hs) as (pr & a & rest & l & n & Hp & Ht & Ha & Hw).
  rewrite Hw in Hd. destruct (decide (r = d)) as [<-|Hne].
  - rewrite lookup_insert_eq in Hd. injection Hd as <-. simpl in Hx.
    exists pr. split; [done|]. rewrite Ht. by apply list_elem_of_further.
  - rewrite lookup_insert_ne in Hd by done. eauto.
Qed.

Lemma may_arrive_step r w w' s d t :
  step' r w = Some w' → may_arrive w' s d t → may_arrive w s d t.
Proof.
  intros Hs.
  destruct (step_inv _ _ _ Hs) as (pr & a & rest & l & n & Hp & Ht & Ha & Hw).
  pose proof (perform_net _ _ _ _ _ _ _ _ Ha) as Hn.
  pose proof (net_op_owner _ _ _ _ _ _ _ _ Ha) as Ho.
  intros [Hc|(ps & row & Hps & Hin)].
  - rewrite Hn in Hc.
    destruct (net_op' r a (lattice pr) (net w)) as [|k x|k]; simpl in Hc.
    + by left.
    + rewrite chan_push in Hc.
      destruct (decide (k = (s, d, t))) as [->|]; [|by left].
      destruct Ho as [-> [row ->]]. right.
      exists pr, row. rewrite Ht. split; [done|apply list_elem_of_here].
    + rewrite chan_insert in Hc.
      destruct (decide (k = (s, d, t))) as [->|]; [|by left].
      left. intros He. rewrite He in Hc. done.
  - destruct (todo_step _ _ _ _ _ _ Hs Hps Hin) as (ps' & Hps' & Hin').
    right. eauto.
Qed.

Lemma unambiguous_step r w w' :
  unambiguous w → step' r w = Some w' → unambiguous w'.
Proof.
  intros Hu Hs d pd row t s s' Hd Hin Hs1 Hs2.
  destruct (todo_step _ _ _ _ _ _ Hs Hd Hin) as (pd' & Hpd' & Hin').
  eapply Hu; eauto using may_arrive_step.
Qed.

Lemma exec_app (sc1 sc2 : list Z) w :
  exec' (sc1 ++ sc2) w = exec' sc1 w ≫= exec' sc2.
Proof.
  revert w. induction sc1 as [|r sc1 IH]; intros w; simpl; [done|].
  destruct (step' r w) as [w'|]; simpl; [apply IH|done].
Qed.

Lemma run_app (sc1 sc2 : list Z) w : run' (sc1 ++ sc2) w = run' sc2 (run' sc1 w).
Proof. revert w. induction sc1 as [|r sc1 IH]; intros w; simpl; [done|apply IH]. Qed.

Lemma may_arrive_run (sc : list Z) w s d t :
  may_arrive (run' sc w) s d t → may_arrive w s d t.
Proof.
  revert w. induction sc as [|r sc IH]; intros w; simpl; [done|].
  intros H. apply IH in H.
  destruct (step' r w) as [w'|] eqn:Hs; simpl in H; [|done].
  eapply may_arrive_step; eauto.
Qed.

(** A property of worlds that every step keeps holds along every run. *)
Lemma run_keeps (I : World (Temp:=Temp) (E:=E) (M:=M) → Prop) (sc : list Z) w :
  (∀ r w w', I w → step' r w = Some w' → I w') → I w → I (run' sc w).
Proof.
  intros Hstep. revert w. induction sc as [|r sc IH]; intros w Hw; simpl; [done|].
  apply IH. destruct (step' r w) as [w'|] eqn:Hs; simpl; eauto.
Qed.

(** A schedule does what its moves do. *)
Lemma exec_moves (sched : list Z) w : exec' (moves' sched w) w = Some (run' sched w).
Proof.
  revert w. induction sched as [|r sched IH]; intros w; simpl; [done|].
  destruct (step' r w) as [w'|] eqn:Hs; simpl.
  - rewrite Hs. simpl. apply IH.
  - apply IH.
Qed.

Lemma exec_run (sc : list Z) w w' : exec' sc w = Some w' → run' sc w = w'.
Proof.
  revert w. induction sc as [|r sc IH]; intros w; simpl.
  - by intros [= ->].
  - destruct (step' r w) as [w1|]; simpl; [apply IH|done].
Qed.

Lemma unambiguous_exec (sc : list Z) w w' :
  unambiguous w → exec' sc w = Some w' → unambiguous w'.
Proof.
  revert w. induction sc as [|r sc IH]; intros w Hu; simpl.
  - by intros [= <-].
  - destruct (step' r w) as [w1|] eqn:Hs; simpl; [|done].
    apply IH. eapply unambiguous_step; eauto.
Qed.

(** A move made first can be taken out of any run that ends halted. *)
Lemma exec_after_step (sc : list Z) w wf p w1 :
  unambiguous w → exec' sc w = Some wf → halted' wf → step' p w = Some w1 →
  ∃ sc', exec' sc' w1 = Some wf ∧ S (length sc') = length sc.
Proof.
  revert w w1. induction sc as [|q sc IH]; intros w w1 Hu He Hh Hs; simpl in He.
  - injection He as <-. rewrite (Hh p) in Hs. done.
  - destruct (step' q w) as [w2|] eqn:Hq; simpl in He; [|done].
    destruct (decide (p = q)) as [->|Hpq].
    + assert (w1 = w2) as -> by congruence. exists sc. done.
    + destruct (diamond p q w w1 w2 Hu Hpq Hs Hq) as (w3 & Hq1 & Hp2).
      destruct (IH w2 w3) as (sc' & Hl' & Hlen); auto.
      { eapply unambiguous_step; eauto. }
      exists (q :: sc'). simpl. rewrite Hq1. simpl. split; [done|]. lia.
Qed.

(** Confluence: if some run of an unambiguous world ends halted in [wf],
    every run of that world can be continued to [wf]. *)
Lemma exec_confluent (sc sc2 : list Z) w wf w2 :
  unambiguous w → exec' sc w = Some wf → halted' wf → exec' sc2 w = Some w2 →
  ∃ sc', exec' sc' w2 = Some wf ∧ (length sc2 + length sc' = length sc)%nat.
Proof.
  revert sc w. induction sc2 as [|p sc2 IH]; intros sc w Hu He Hh H2; simpl in H2.
  - injection H2 as <-. exists sc. done.
  - destruct (step' p w) as [w1|] eqn:Hp; simpl in H2; [|done].
    destruct (exec_after_step sc w wf p w1 Hu He Hh Hp) as (sc1 & Hl1 & Hlen).
    destruct (IH sc1 w1) as (sc' & Hl' & Hlen'); auto.
    { eapply unambiguous_step; eauto. }
    exists sc'. split; [done|]. simpl. lia.
Qed.

Theorem run_confluent (sc sched : list Z) w wf :
  unambiguous w → exec' sc w = Some wf → halted' wf →
  ∃ more, run' (sched ++ more) w = wf.
Proof.
  intros Hu He Hh.
  destruct (exec_confluent sc (moves' sched w) w wf (run' sched w) Hu He Hh
              (exec_moves sched w)) as (sc' & Hl' & _).
  exists sc'. rewrite run_app. by apply exec_run.
Qed.

(** A halted world does not change any more. *)
Lemma run_halted (sched : list Z) w : halted' w → run' sched w = w.
Proof.
  intros Hh. induction sched as [|r sched IH]; simpl; [done|].
  rewrite (Hh r). simpl. done.
Qed.
End Confluence.

(** ** One process along a run *)

Section Process.
Context {Temp E M : Type}.
Variable clear : Grid → Grid.
Variable calculate_energy : Grid → E.
Variable calculate_magnetism : Grid → M.
Variable calculate_spin : Temp → nat → Grid → Z → Z → Grid.
Variable world_size : Z.

Local Abbreviation perform' :=
  (perform clear calculate_energy calculate_magnetism calculate_spin world_size).
Local Abbreviation pstep' :=
  (pstep clear calculate_energy calculate_magnetism calculate_spin world_size).
Local Abbreviation psteps' :=
  (psteps clear calculate_energy calculate_magnetism calculate_spin world_size).
Local Abbreviation step' :=
  (step clear calculate_energy calculate_magnetism calculate_spin world_size).
Local Abbreviation run' :=
  (run clear calculate_energy calculate_magnetism calculate_spin world_size).
Local Abbreviation exec' :=
  (exec clear calculate_energy calculate_magnetism calculate_spin world_size).
Implicit Types (w : World (Temp:=Temp) (E:=E) (M:=M))
               (p : Proc (Temp:=Temp) (E:=E) (M:=M))
               (r me : Z) (nt : Net).

Lemma seen_grows p a l n rest k s :
  seen p k = Some s →
  seen (mkProc rest l n (history p ++ [(a, lattice p)])) k = Some s.
Proof.
  unfold seen. simpl. rewrite length_app. simpl.
  destruct (history p !! k) as [[a' l']|] eqn:Hk.
  - rewrite lookup_app_l by (eapply lookup_lt_Some; eauto).
    rewrite Hk. done.
  - destruct (decide (k = length (history p))) as [->|]; [|done].
    intros [= <-]. rewrite lookup_app_r by lia.
    replace (length (history p) - length (history p))%nat with 0%nat by lia.
    done.
Qed.

Lemma seen_now p : seen p (length (history p)) = Some (lattice p).
Proof.
  unfold seen. rewrite lookup_ge_None_2 by lia. rewrite decide_True; done.
Qed.

Lemma seen_step r' w w' r k s :
  step' r' w = Some w' → seen_at w r k = Some s → seen_at w' r k = Some s.
Proof.
  intros Hs. destruct (step_inv _ _ _ _ _ _ _ _ Hs)
    as (p & a & rest & l & n & Hp & Ht & Ha & Hw).
  unfold seen_at. rewrite Hw.
  destruct (decide (r' = r)) as [->|Hne].
  - rewrite lookup_insert_eq, Hp. simpl. apply seen_grows.
  - rewrite lookup_insert_ne by done. done.
Qed.

Lemma seen_run (sched : list Z) w r k s :
  seen_at w r k = Some s → seen_at (run' sched w) r k = Some s.
Proof.
  revert w. induction sched as [|r' sched IH]; intros w Hs; simpl; [done|].
  apply IH. destruct (step' r' w) as [w'|] eqn:Hst; simpl; [|done].
  eapply seen_step; eauto.
Qed.

Lemma seen_exec (sched : list Z) w w' r k s :
  exec' sched w = Some w' → seen_at w r k = Some s → seen_at w' r k = Some s.
Proof.
  intros He Hs. rewrite <- (exec_run _ _ _ _ _ _ _ _ He). by apply seen_run.
Qed.

(** The actions run so far followed by those still to run stay the same. *)
Lemma step_program r' w w' r p' :
  step' r' w = Some w' → procs w' !! r = Some p' →
  ∃ p, procs w !! r = Some p ∧ ran p ++ todo p = ran p' ++ todo p'.
Proof.
  intros Hs Hp'. destruct (step_inv _ _ _ _ _ _ _ _ Hs)
    as (p & a & rest & l & n & Hp & Ht & Ha & Hw).
  rewrite Hw in Hp'. destruct (decide (r' = r)) as [->|Hne].
  - rewrite lookup_insert_eq in Hp'. injection Hp' as <-.
    exists p. split; [done|]. unfold ran. simpl.
    rewrite fmap_app, Ht, <- app_assoc. done.
  - rewrite lookup_insert_ne in Hp' by done. eauto.
Qed.

Lemma run_program (sched : list Z) w r p' :
  procs (run' sched w) !! r = Some p' →
  ∃ p, procs w !! r = Some p ∧ ran p ++ todo p = ran p' ++ todo p'.
Proof.
  revert w. induction sched as [|r' sched IH]; intros w Hp'; simpl in Hp'.
  - eauto.
  - destruct (step' r' w) as [w1|] eqn:Hs; simpl in Hp'.
    + destruct (IH _ Hp') as (p1 & Hp1 & Heq).
      destruct (step_program _ _ _ _ _ Hs Hp1) as (p & Hp & Heq').
      exists p. split; [done|]. congruence.
    + eauto.
Qed.

(** Steps neither create nor remove processes. *)
Lemma step_dom r' w w' r :
  step' r' w = Some w' → procs w' !! r = None ↔ procs w !! r = None.
Proof.
  intros Hs. destruct (step_inv _ _ _ _ _ _ _ _ Hs)
    as (p & a & rest & l & n & Hp & Ht & Ha & Hw).
  rewrite Hw. destruct (decide (r' = r)) as [->|Hne].
  - rewrite lookup_insert_eq, Hp. done.
  - rewrite lookup_insert_ne by done. done.
Qed.

Lemma step_outside r w : procs w !! r = None → step' r w = None.
Proof. intros H. unfold step. rewrite H. done. Qed.
End Process.

(** ** Blocks of actions run by one process *)

Lemma bind_singleton {A B} (f : A → B) (xs : list A) :
  (x ← xs; [f x]) = f <$> xs.
Proof. induction xs as [|x xs IH]; csimpl; [done|]. by rewrite IH. Qed.

Lemma chan_pushes_other (f : Z → Z * Z * Z) (pay : Z → Row) (ys : list Z)
      (nt : Net) (k : Z * Z * Z) :
  (∀ y, y ∈ ys → f y ≠ k) →
  chan (foldl (λ nt y, push (f y) (pay y) nt) nt ys) k = chan nt k.
Proof.
  revert nt. induction ys as [|y ys IH]; intros nt H; simpl; [done|].
  rewrite IH by (intros; apply H; by apply list_elem_of_further).
  rewrite chan_push. rewrite decide_False; [done|].
  apply H. apply list_elem_of_here.
Qed.

Lemma chan_pushes_here (f : Z → Z * Z * Z) (pay : Z → Row) (ys : list Z)
      (nt : Net) (y : Z) :
  NoDup ys → y ∈ ys → (∀ y', y' ∈ ys → f y' = f y → y' = y) →
  chan (foldl (λ nt y, push (f y) (pay y) nt) nt ys) (f y)
  = chan nt (f y) ++ [pay y].
Proof.
  revert nt. induction ys as [|y0 ys IH]; intros nt Hnd Hin Hinj; simpl.
  - by apply elem_of_nil in Hin.
  - apply NoDup_cons in Hnd as [Hy0 Hnd].
    apply elem_of_cons in Hin as [->|Hin].
    + rewrite chan_pushes_other.
      * rewrite chan_push, decide_True; done.
      * intros y' Hy' Heq. apply Hy0.
        rewrite <- (Hinj y'); [done|by apply list_elem_of_further|done].
    + rewrite IH; [|done|done|].
      * rewrite chan_push. rewrite decide_False; [done|].
        intros Heq. apply Hy0.
        rewrite (Hinj y0); [done|apply list_elem_of_here|done].
      * intros y' Hy'. apply Hinj. by apply list_elem_of_further.
Qed.

Lemma chan_pops_other (f : Z → Z * Z * Z) (ys : list Z) (nt : Net)
      (k : Z * Z * Z) :
  (∀ y, y ∈ ys → f y ≠ k) →
  chan (foldl (λ nt y, <[f y := []]> nt) nt ys) k = chan nt k.
Proof.
  revert nt. induction ys as [|y ys IH]; intros nt H; simpl; [done|].
  rewrite IH by (intros; apply H; by apply list_elem_of_further).
  rewrite chan_insert. rewrite decide_False; [done|].
  apply H. apply list_elem_of_here.
Qed.

Lemma chan_pops_empty (f : Z → Z * Z * Z) (ys : list Z) (nt : Net)
      (k : Z * Z * Z) :
  chan nt k = [] ∨ (∃ y, y ∈ ys ∧ f y = k) →
  chan (foldl (λ nt y, <[f y := []]> nt) nt ys) k = [].
Proof.
  revert nt. induction ys as [|y0 ys IH]; intros nt H; simpl.
  - destruct H as [H|(y & Hy & _)]; [done|by apply elem_of_nil in Hy].
  - apply IH. rewrite chan_insert.
    destruct (decide (f y0 = k)) as [Hk|Hk]; [by left|].
    destruct H as [H|(y & Hy & He)]; [by left|].
    apply elem_of_cons in Hy as [->|Hy]; [done|]. right. eauto.
Qed.

Lemma chan_pops_here (f : Z → Z * Z * Z) (ys : list Z) (nt : Net) (y : Z) :
  y ∈ ys → chan (foldl (λ nt y, <[f y := []]> nt) nt ys) (f y) = [].
Proof. intros Hy. apply chan_pops_empty. right. eauto. Qed.

Lemma length_stores (pay : Z → Row) (ys : list Z) (g : Grid) :
  length (foldl (λ g y, store_row y (pay y) g) g ys) = length g.
Proof.
  revert g. induction ys as [|y ys IH]; intros g; simpl; [done|].
  rewrite IH. unfold store_row. apply length_insert.
Qed.

Lemma stores_other (pay : Z → Row) (ys : list Z) (g : Grid) (i : nat) :
  (∀ y, y ∈ ys → Z.to_nat y ≠ i) →
  foldl (λ g y, store_row y (pay y) g) g ys !! i = g !! i.
Proof.
  revert g. induction ys as [|y ys IH]; intros g H; simpl; [done|].
  rewrite IH by (intros; apply H; by apply list_elem_of_further).
  unfold store_row. apply list_lookup_insert_ne.
  apply H. apply list_elem_of_here.
Qed.

Lemma stores_here (pay : Z → Row) (ys : list Z) (g : Grid) (y : Z) :
  NoDup ys → (∀ y', y' ∈ ys → 0 ≤ y') → y ∈ ys →
  (Z.to_nat y < length g)%nat →
  foldl (λ g y, store_row y (pay y) g) g ys !! Z.to_nat y = Some (pay y).
Proof.
  revert g. induction ys as [|y0 ys IH]; intros g Hnd Hpos Hin Hlen; simpl.
  - by apply elem_of_nil in Hin.
  - apply NoDup_cons in Hnd as [Hy0 Hnd].
    assert (Hpos' : ∀ y', y' ∈ ys → 0 ≤ y')
      by (intros; apply Hpos; by apply list_elem_of_further).
    apply elem_of_cons in Hin as [->|Hin].
    + rewrite stores_other.
      * unfold store_row. by apply list_lookup_insert_eq.
      * intros y' Hy' Heq. apply Hy0.
        assert (0 ≤ y') by auto.
        assert (0 ≤ y0) by (apply Hpos; apply list_elem_of_here).
        replace y0 with y' by lia. done.
    + apply IH; try done. unfold store_row. by rewrite length_insert.
Qed.

(** Storing a row for every index of a lattice replaces the lattice. *)
Lemma stores_all (pay : Z → Row) (g : Grid) (n : Z) :
  length g = Z.to_nat n →
  foldl (λ g y, store_row y (pay y) g) g (range 0 n) = pay <$> range 0 n.
Proof.
  intros Hlen. apply list_eq. intros i.
  destruct (decide (i < Z.to_nat n)%nat) as [Hi|Hi].
  - replace i with (Z.to_nat (Z.of_nat i)) at 1 by lia.
    rewrite stores_here.
    + rewrite list_lookup_fmap. unfold range.
      rewrite lookup_seqZ_lt by lia. simpl. do 2 f_equal; lia.
    + apply NoDup_seqZ.
    + intros y'. rewrite elem_of_range. lia.
    + rewrite elem_of_range. lia.
    + lia.
  - rewrite (lookup_ge_None_2 (foldl _ _ _)) by (rewrite length_stores; lia).
    rewrite lookup_ge_None_2 by (rewrite length_fmap, range_length; lia).
    done.
Qed.

Lemma head_filter_unique {A} (P : A → Prop) `{∀ x, Decision (P x)}
      (xs : list A) (x : A) :
  x ∈ xs → P x → (∀ x', x' ∈ xs → P x' → x' = x) →
  head (filter P xs) = Some x.
Proof.
  induction xs as [|a xs IH]; intros Hin Hx Hu.
  - by apply elem_of_nil in Hin.
  - destruct (decide (P a)) as [Ha|Ha].
    + rewrite filter_cons_True by done. simpl. f_equal.
      apply Hu; [apply list_elem_of_here|done].
    + rewrite filter_cons_False by done.
      apply elem_of_cons in Hin as [->|Hin]; [done|].
      apply IH; [done|done|].
      intros x' Hx'. apply Hu. by apply list_elem_of_further.
Qed.

Lemma first_source_unique (world_size me tag s : Z) (nt : Net) :
  0 ≤ s < world_size → chan nt (s, me, tag) ≠ [] →
  (∀ s', s' ≠ s → chan nt (s', me, tag) = []) →
  first_source world_size me tag nt = Some s.
Proof.
  intros Hs Hne Hu. unfold first_source. apply head_filter_unique.
  - rewrite elem_of_range. lia.
  - done.
  - intros s' _ Hs'. destruct (decide (s' = s)) as [|Hd]; [done|].
    destruct Hs'. by apply Hu.
Qed.

Section Blocks.
Context {Temp E M : Type}.
Variable clear : Grid → Grid.
Variable calculate_energy : Grid → E.
Variable calculate_magnetism : Grid → M.
Variable calculate_spin : Temp → nat → Grid → Z → Z → Grid.
Variable world_size : Z.

Local Abbreviation perform' :=
  (perform clear calculate_energy calculate_magnetism calculate_spin world_size).
Local Abbreviation pstep' :=
  (pstep clear calculate_energy calculate_magnetism calculate_spin world_size).
Local Abbreviation psteps' :=
  (psteps clear calculate_energy calculate_magnetism calculate_spin world_size).
Local Abbreviation step' :=
  (step clear calculate_energy calculate_magnetism calculate_spin world_size).
Local Abbreviation run' :=
  (run clear calculate_energy calculate_magnetism calculate_spin world_size).
Implicit Types (w : World (Temp:=Temp) (E:=E) (M:=M))
               (p : Proc (Temp:=Temp) (E:=E) (M:=M))
               (l : Surface Temp E M) (h : list (Action * Surface Temp E M))
               (r me : Z) (nt : Net).

Lemma psteps_app (n m : nat) me p nt :
  psteps' (n + m) me p nt
  = psteps' n me p nt ≫= λ '(p', nt'), psteps' m me p' nt'.
Proof.
  revert p nt. induction n as [|n IH]; intros p nt; simpl.
  - done.
  - destruct (pstep' me p nt) as [[p1 nt1]|]; simpl; [apply IH|done].
Qed.

(** [n] turns of rank [r] are [n] steps of its process. *)
Lemma run_turns (n : nat) r w p p' nt' :
  procs w !! r = Some p → psteps' n r p (net w) = Some (p', nt') →
  run' (replicate n r) w = mkWorld (<[r := p']> (procs w)) nt'.
Proof.
  revert w p. induction n as [|n IH]; intros w p Hp Hs; simpl in *.
  - injection Hs as <- <-. destruct w as [ps nt]; simpl in *.
    by rewrite insert_id.
  - destruct (pstep' r p (net w)) as [[p1 nt1]|] eqn:H1; simpl in Hs; [|done].
    unfold step. rewrite Hp. simpl. rewrite H1. simpl.
    erewrite IH; [|simpl; apply lookup_insert_eq|simpl; exact Hs].
    simpl. by rewrite insert_insert_eq.
Qed.

Lemma psteps_S (m : nat) me a rest l n h nt l' n' nt' :
  perform' me a l n nt = Some (l', n', nt') →
  psteps' (S m) me (mkProc (a :: rest) l n h) nt
  = psteps' m me (mkProc rest l' n' (h ++ [(a, l)])) nt'.
Proof. intros Ha. simpl. unfold pstep. simpl. rewrite Ha. done. Qed.

(** Sends of the rows [ys] to [d], each tagged with its row index. *)
Lemma psteps_sends me d (ys : list Z) rest l n h nt :
  psteps' (length ys) me
          (mkProc (((λ y, MPI_Send y d y) <$> ys) ++ rest) l n h) nt
  = Some (mkProc rest l n (h ++ ((λ y, (MPI_Send y d y, l)) <$> ys)),
          foldl (λ nt y, push (me, d, y) (row_at (surface l) y) nt) nt ys).
Proof.
  revert h nt. induction ys as [|y ys IH]; intros h nt.
  - simpl. by rewrite app_nil_r.
  - rewrite !fmap_cons, <- app_comm_cons. simpl length.
    erewrite psteps_S by reflexivity. rewrite IH. simpl.
    by rewrite <- app_assoc.
Qed.

(** Calls of [calculate_spin] on the cells [(k, j)], [k] in [ks]: every
    property of the lattice that such a call keeps holds of the lattice each
    call runs on and of the lattice they leave. *)
Lemma psteps_spins (P : Grid → Prop) me j (ks : list Z) rest l n h nt :
  (∀ t n g k, P g → P (calculate_spin t n g k j)) → P (surface l) →
  ∃ g hs,
    psteps' (length ks) me
            (mkProc (((λ k, CalculateSpin k j) <$> ks) ++ rest) l n h) nt
    = Some (mkProc rest (set_surface g l) (n + length ks)%nat (h ++ hs), nt)
    ∧ length hs = length ks
    ∧ P g
    ∧ Forall (λ e, P (surface e.2) ∧ ∃ k, e.1 = CalculateSpin k j) hs.
Proof.
  intros HP. revert l n h. induction ks as [|k ks IH]; intros l n h Hl.
  - simpl. exists (surface l), []. rewrite app_nil_r, Nat.add_0_r.
    destruct l; done.
  - rewrite !fmap_cons, <- app_comm_cons. simpl length.
    erewrite psteps_S by reflexivity.
    destruct (IH (set_surface (calculate_spin (temperature l) n (surface l) k j) l)
                 (S n) (h ++ [(CalculateSpin k j, l)]))
      as (g & hs & Hs & Hlen & Hg & Hhs).
    { simpl. by apply HP. }
    exists g, ((CalculateSpin k j, l) :: hs).
    rewrite Hs. simpl. split; [|split; [by rewrite Hlen|split; [done|]]].
    + rewrite <- app_assoc. simpl. do 3 f_equal. lia.
    + constructor; [|done]. simpl. eauto.
Qed.

(** The update-and-send loop of a worker over the rows [js]. *)
Lemma psteps_compute (P : Grid → Prop) me (ks js : list Z) rest l n h nt :
  let acts := j ← js; ((λ k, CalculateSpin k j) <$> ks) ++ [MPI_Send j 0 j] in
  (∀ t n g k j, j ∈ js → P g → P (calculate_spin t n g k j)) →
  P (surface l) → NoDup js →
  ∃ g n' hs nt',
    psteps' (length acts) me (mkProc (acts ++ rest) l n h) nt
    = Some (mkProc rest (set_surface g l) n' (h ++ hs), nt')
    ∧ length hs = length acts
    ∧ P g
    ∧ Forall (λ e, P (surface e.2)) hs
    ∧ (∀ k, (∀ j, j ∈ js → k ≠ (me, 0, j)) → chan nt' k = chan nt k)
    ∧ (∀ idx j, js !! idx = Some j →
         ∃ lj, hs !! (idx * (length ks + 1) + length ks)%nat
               = Some (MPI_Send j 0 j, lj)
               ∧ chan nt' (me, 0, j) = chan nt (me, 0, j) ++ [row_at (surface lj) j]
               ∧ (touches_own_row calculate_spin →
                  row_at g j = row_at (surface lj) j)).
Proof.
  intros acts. subst acts. revert P l n h nt.
  induction js as [|j js IH]; intros P l n h nt HP Hl Hnd.
  - simpl. exists (surface l), n, [], nt. rewrite app_nil_r.
    split; [by destruct l|]. split; [done|]. split; [done|].
    split; [constructor|]. split; [done|]. intros idx j Hj. done.
  - apply NoDup_cons in Hnd as [Hj Hnd]. csimpl.
    set (acts := js ≫= λ j, ((λ k, CalculateSpin k j) <$> ks) ++ [MPI_Send j 0 j]) in *.
    rewrite !length_app, <- !app_assoc. simpl length.
    rewrite length_fmap.
    destruct (psteps_spins P me j ks ([MPI_Send j 0 j] ++ acts ++ rest) l n h nt)
      as (g1 & hs1 & Hs1 & Hlen1 & Hg1 & Hhs1).
    { intros. apply HP; [apply list_elem_of_here|done]. }
    { done. }
    set (l1 := set_surface g1 l) in *.
    set (nt1 := push (me, 0, j) (row_at (surface l1) j) nt).
    destruct (IH (λ g, P g ∧ (touches_own_row calculate_spin →
                              row_at g j = row_at g1 j))
                 l1 (n + length ks)%nat
                 ((h ++ hs1) ++ [(MPI_Send j 0 j, l1)]) nt1)
      as (g & n' & hs & nt' & Hs & Hlen & [Hg Hgj] & Hhs & Hother & Hsent).
    { intros t n0 g0 k j' Hj' [HP0 Hfr]. split.
      - apply HP; [by apply list_elem_of_further|done].
      - intros Htouch. rewrite Htouch; [by apply Hfr|].
        intros ->. done. }
    { done. }
    { done. }
    fold acts in Hs, Hlen.
    exists g, n', (hs1 ++ [(MPI_Send j 0 j, l1)] ++ hs), nt'.
    split; [|split; [|split; [|split; [|split]]]].
    + replace (length ks + 1 + length acts)%nat
        with (length ks + S (length acts))%nat by lia.
      rewrite psteps_app, Hs1. simpl.
      etrans; [exact Hs|]. subst l1. simpl. rewrite <- !app_assoc. done.
    + rewrite !length_app, Hlen1, Hlen. simpl. lia.
    + done.
    + apply Forall_app. split.
      * eapply Forall_impl; [exact Hhs1|]. simpl. tauto.
      * constructor; [done|]. eapply Forall_impl; [exact Hhs|]. simpl. tauto.
    + intros k Hk. rewrite Hother.
      * try subst nt1. rewrite chan_push, decide_False; [done|].
        intros <-. exact (Hk j (list_elem_of_here _ _) eq_refl).
      * intros j' Hj'. apply Hk. by apply list_elem_of_further.
    + intros idx j' Hidx. destruct idx as [|idx]; simpl in Hidx.
      * injection Hidx as <-. exists l1. split; [|split].
        -- simpl. rewrite lookup_app_r by lia.
           replace (length ks - length hs1)%nat with 0%nat by lia. done.
        -- rewrite Hother.
           ++ try subst nt1. rewrite chan_push, decide_True; done.
           ++ intros j' Hj' [= <-]. done.
        -- intros Htouch. by apply Hgj.
      * destruct (Hsent idx j' Hidx) as (lj & Hlj & Hch & Hfr).
        exists lj. split; [|split].
        -- rewrite lookup_app_r by (rewrite Hlen1; lia).
           rewrite Hlen1.
           replace (S idx * (length ks + 1) + length ks - length ks)%nat
             with (S (idx * (length ks + 1) + length ks)) by lia.
           simpl. done.
        -- rewrite Hch. try subst nt1. rewrite chan_push, decide_False; [done|].
           intros [= <-]. apply Hj. eapply list_elem_of_lookup_2; eauto.
        -- done.
Qed.

(** Receives of the rows [ys], each from the channel of its tag. *)
Lemma psteps_recvs me src (from : Z → Z) (pay : Z → Row) (ys : list Z)
      rest l n h nt :
  NoDup ys →
  (∀ y, y ∈ ys →
     chan nt (from y, me, y) = [pay y]
     ∧ matching world_size me src y nt = Some (from y, me, y)) →
  ∃ hs,
    psteps' (length ys) me
            (mkProc (((λ y, MPI_Recv y src y) <$> ys) ++ rest) l n h) nt
    = Some (mkProc rest
                   (set_surface (foldl (λ g y, store_row y (pay y) g)
                                       (surface l) ys) l)
                   n (h ++ hs),
            foldl (λ nt y, <[(from y, me, y) := []]> nt) nt ys)
    ∧ length hs = length ys.
Proof.
  revert l h nt. induction ys as [|y ys IH]; intros l h nt Hnd Hch.
  - simpl. exists []. rewrite app_nil_r. by destruct l.
  - apply NoDup_cons in Hnd as [Hy Hnd].
    destruct (Hch y (list_elem_of_here _ _)) as [Hc Hm].
    rewrite !fmap_cons, <- app_comm_cons. simpl length.
    erewrite psteps_S; cycle 1.
    { unfold perform. rewrite Hm. simpl. rewrite Hc. reflexivity. }
    destruct (IH (set_surface (store_row y (pay y) (surface l)) l)
                 (h ++ [(MPI_Recv y src y, l)])
                 (<[(from y, me, y) := []]> nt) Hnd) as (hs & Hs & Hlen).
    { intros y' Hy'.
      destruct (Hch y' (list_elem_of_further _ _ _ Hy')) as [Hc' Hm'].
      assert (y' ≠ y) by (intros ->; done).
      split.
      - rewrite chan_insert, decide_False by congruence. done.
      - rewrite <- Hm'. apply matching_ext. intros s.
        rewrite chan_insert, decide_False by congruence. done. }
    exists ((MPI_Recv y src y, l) :: hs).
    rewrite Hs. simpl. rewrite <- app_assoc. simpl.
    split; [done|by rewrite Hlen].
Qed.
End Blocks.

(** ** The programs, block by block *)

Lemma bind_ext {A B} (f g : A → list B) (xs : list A) :
  (∀ x, f x = g x) → xs ≫= f = xs ≫= g.
Proof.
  intros H. induction xs as [|x xs IH]; csimpl; [done|]. by rewrite H, IH.
Qed.

Lemma bind_app {A B} (f : A → list B) (xs ys : list A) :
  (xs ++ ys) ≫= f = (xs ≫= f) ++ (ys ≫= f).
Proof.
  induction xs as [|x xs IH]; csimpl; [done|]. by rewrite IH, app_assoc.
Qed.

Lemma length_bind_const {A B} (f : A → list B) (xs : list A) (n : nat) :
  (∀ x, length (f x) = n) → length (xs ≫= f) = (length xs * n)%nat.
Proof.
  intros H. induction xs as [|x xs IH]; csimpl; [done|].
  rewrite length_app, H, IH. lia.
Qed.

Lemma turns_bind {A} (xs : list A) (r n : Z) :
  (_ ← xs; turns r n) = replicate (length xs * Z.to_nat n) r.
Proof.
  induction xs as [|x xs IH]; csimpl; [done|].
  rewrite IH. unfold turns. by rewrite <- replicate_add.
Qed.

Section Blocks_of_programs.
Context {Temp E M : Type}.
Variables (world_size rows_per_slave : Z).
Implicit Type lattice : Surface Temp E M.

Lemma sync_coordinator lattice :
  master_to_slaves_sync world_size 0 lattice = sends_all world_size (size lattice).
Proof.
  unfold master_to_slaves_sync, sends_all, sends_rows. simpl.
  apply bind_ext. intros i. apply bind_singleton.
Qed.

Lemma sync_worker r lattice :
  r ≠ 0 →
  master_to_slaves_sync world_size r lattice
  = recvs_rows (FromRank 0) (size lattice).
Proof.
  intros Hr. unfold master_to_slaves_sync, recvs_rows.
  destruct (r =? 0) eqn:H0; [lia|]. apply bind_singleton.
Qed.

Lemma sweep_coordinator lattice i :
  sweep world_size 0 rows_per_slave lattice i
  = StoreStats i :: recvs_rows MPI_ANY_SOURCE (size lattice)
      ++ sends_all world_size (size lattice).
Proof.
  unfold sweep. simpl. rewrite sync_coordinator.
  unfold recvs_rows. by rewrite bind_singleton.
Qed.

Lemma sweep_worker r lattice i :
  r ≠ 0 →
  sweep world_size r rows_per_slave lattice i
  = updates (size lattice) (start r rows_per_slave) (finish r rows_per_slave)
      ++ recvs_rows (FromRank 0) (size lattice).
Proof.
  intros Hr. unfold sweep. rewrite sync_worker by done.
  destruct (r =? 0) eqn:H0; [lia|]. simpl. f_equal.
Qed.

Lemma length_sends_rows d n : length (sends_rows d n) = Z.to_nat n.
Proof. unfold sends_rows. by rewrite length_fmap, range_length, Z.sub_0_r. Qed.

Lemma length_recvs_rows src n : length (recvs_rows src n) = Z.to_nat n.
Proof. unfold recvs_rows. by rewrite length_fmap, range_length, Z.sub_0_r. Qed.

Lemma length_updates n lo hi :
  length (updates n lo hi) = (Z.to_nat (hi - lo) * (Z.to_nat n + 1))%nat.
Proof.
  unfold updates. erewrite length_bind_const.
  - by rewrite range_length.
  - intros j. rewrite length_app, length_fmap, range_length, Z.sub_0_r.
    simpl. lia.
Qed.
End Blocks_of_programs.

Lemma owner_range (rps workers y : Z) :
  0 ≤ rps → 0 ≤ y < rps * workers →
  1 ≤ owner rps y < workers + 1
  ∧ start (owner rps y) rps ≤ y < finish (owner rps y) rps.
Proof.
  intros Hrps Hy. unfold owner, finish, start.
  assert (0 < rps) by (destruct (decide (rps = 0)) as [->|]; lia).
  pose proof (Z.div_mod y rps ltac:(lia)).
  pose proof (Z.mod_pos_bound y rps ltac:(lia)).
  assert (0 ≤ y / rps) by (apply Z.div_pos; lia).
  assert (y / rps < workers) by (apply Z.div_lt_upper_bound; lia).
  nia.
Qed.

Lemma owner_unique (rps r y : Z) :
  start r rps ≤ y < finish r rps → r = owner rps y.
Proof.
  unfold owner, finish, start. intros Hy.
  assert (0 < rps) by lia.
  assert (y / rps = r - 1); [|lia].
  symmetry. apply (Z.div_unique_pos y rps (r - 1) (y - (r - 1) * rps)); lia.
Qed.

(** ** Phases of a run *)

Section Phases.
Context {Temp E M : Type}.
Variable clear : Grid → Grid.
Variable calculate_energy : Grid → E.
Variable calculate_magnetism : Grid → M.
Variable calculate_spin : Temp → nat → Grid → Z → Z → Grid.
Variable world_size : Z.

Local Abbreviation psteps' :=
  (psteps clear calculate_energy calculate_magnetism calculate_spin world_size).
Local Abbreviation step' :=
  (step clear calculate_energy calculate_magnetism calculate_spin world_size).
Local Abbreviation run' :=
  (run clear calculate_energy calculate_magnetism calculate_spin world_size).
Implicit Types (w : World (Temp:=Temp) (E:=E) (M:=M))
               (p : Proc (Temp:=Temp) (E:=E) (M:=M))
               (r me : Z) (nt : Net).

Lemma run_bind {A} (xs : list A) (f : A → list Z) w :
  run' (xs ≫= f) w = foldl (λ w x, run' (f x) w) w xs.
Proof.
  revert w. induction xs as [|x xs IH]; intros w; csimpl; [done|].
  by rewrite run_app, IH.
Qed.

Lemma seen_appended p (hs : list (Action * Surface Temp E M)) h (k : nat) a l :
  history p = h ++ hs → hs !! k = Some (a, l) →
  seen p (length h + k) = Some l.
Proof.
  intros Hh Hk. unfold seen. rewrite Hh.
  rewrite lookup_app_r by lia.
  replace (length h + k - length h)%nat with k by lia. by rewrite Hk.
Qed.

(** A worker updates and sends the rows [lo, hi). *)
Lemma compute_one r w p rest (n lo hi : Z) :
  procs w !! r = Some p → todo p = updates n lo hi ++ rest →
  let w' := run' (replicate (Z.to_nat (hi - lo) * (Z.to_nat n + 1)) r) w in
  ∃ p', procs w' = <[r := p']> (procs w) ∧ todo p' = rest
    ∧ length (history p')
      = (length (history p) + Z.to_nat (hi - lo) * (Z.to_nat n + 1))%nat
    ∧ (∀ k, (∀ j, lo ≤ j < hi → k ≠ (r, 0, j)) →
         chan (net w') k = chan (net w) k)
    ∧ (∀ j, lo ≤ j < hi →
         ∃ lj, seen p' (length (history p)
                        + (Z.to_nat (j - lo) * (Z.to_nat n + 1) + Z.to_nat n))
               = Some lj
           ∧ chan (net w') (r, 0, j)
             = chan (net w) (r, 0, j) ++ [row_at (surface lj) j]
           ∧ (touches_own_row calculate_spin →
              row_at (surface (lattice p')) j = row_at (surface lj) j)).
Proof.
  intros Hp Ht w'.
  destruct p as [td l c h]. simpl in Ht. subst td.
  destruct (psteps_compute clear calculate_energy calculate_magnetism
              calculate_spin world_size (λ _, True) r (range 0 n) (range lo hi)
              rest l c h (net w))
    as (g & c' & hs & nt' & Hs & Hlen & _ & _ & Hother & Hsent).
  { done. } { done. } { apply NoDup_seqZ. }
  fold (updates n lo hi) in Hs, Hlen.
  rewrite length_updates in Hs, Hlen.
  subst w'. erewrite run_turns; [|exact Hp|exact Hs].
  eexists. split; [reflexivity|]. simpl.
  split; [done|]. split; [rewrite length_app; lia|]. split.
  - intros k Hk. apply Hother. intros j Hj. apply Hk.
    by apply elem_of_range in Hj.
  - intros j Hj.
    destruct (Hsent (Z.to_nat (j - lo)) j) as (lj & Hlj & Hch & Hfr).
    { unfold range. rewrite lookup_seqZ. split; lia. }
    rewrite range_length, Z.sub_0_r in Hlj.
    exists lj. split; [|split; [done|]].
    + eapply seen_appended; [reflexivity|exact Hlj].
    + intros Htouch. simpl. by apply Hfr.
Qed.

(** Every worker of [rs] in turn updates and sends its rows. *)
Lemma compute_each (rs : list Z) w (n rps : Z) (rest : Z → list Action) :
  NoDup rs → 0 ≤ rps →
  (∀ r, r ∈ rs →
     ∃ p, procs w !! r = Some p
          ∧ todo p = updates n (start r rps) (finish r rps) ++ rest r) →
  let w' := run' (r ← rs; replicate (Z.to_nat rps * (Z.to_nat n + 1)) r) w in
  (∀ r, r ∉ rs → procs w' !! r = procs w !! r)
  ∧ (∀ k, (∀ r j, r ∈ rs → start r rps ≤ j < finish r rps → k ≠ (r, 0, j)) →
       chan (net w') k = chan (net w) k)
  ∧ (∀ r, r ∈ rs →
       ∃ p p', procs w !! r = Some p ∧ procs w' !! r = Some p'
         ∧ todo p' = rest r
         ∧ length (history p')
           = (length (history p) + Z.to_nat rps * (Z.to_nat n + 1))%nat
         ∧ ∀ j, start r rps ≤ j < finish r rps →
             ∃ lj, seen p' (length (history p)
                            + (Z.to_nat (j - start r rps) * (Z.to_nat n + 1)
                               + Z.to_nat n))
                   = Some lj
               ∧ chan (net w') (r, 0, j)
                 = chan (net w) (r, 0, j) ++ [row_at (surface lj) j]
               ∧ (touches_own_row calculate_spin →
                  row_at (surface (lattice p')) j = row_at (surface lj) j)).
Proof.
  intros Hnd Hrps. revert w.
  induction rs as [|r rs IH]; intros w Hpre w'.
  - subst w'. simpl. split; [done|]. split; [done|].
    intros r Hr. by apply elem_of_nil in Hr.
  - apply NoDup_cons in Hnd as [Hr Hnd].
    subst w'. csimpl. rewrite run_app.
    destruct (Hpre r (list_elem_of_here _ _)) as (p & Hp & Ht).
    assert (Hfs : finish r rps - start r rps = rps) by (unfold finish; lia).
    pose proof (compute_one r w p (rest r) n (start r rps) (finish r rps) Hp Ht)
      as Hone.
    rewrite Hfs in Hone. cbv zeta in Hone.
    set (w1 := run' (replicate (Z.to_nat rps * (Z.to_nat n + 1)) r) w) in *.
    destruct Hone as (p1 & Hw1 & Ht1 & Hlen1 & Hother1 & Hsent1).
    destruct (IH Hnd w1) as (Hout & Hother & Hin).
    { intros r' Hr'. rewrite Hw1, lookup_insert_ne by (intros ->; done).
      apply Hpre. by apply list_elem_of_further. }
    split; [|split].
    + intros r0 Hr0. apply not_elem_of_cons in Hr0 as [Hne Hr0].
      rewrite Hout by done. rewrite Hw1, lookup_insert_ne by done. done.
    + intros k Hk. rewrite Hother.
      * apply Hother1. intros j Hj. apply Hk; [apply list_elem_of_here|done].
      * intros r' j Hr' Hj. apply Hk; [by apply list_elem_of_further|done].
    + intros r0 Hr0. apply elem_of_cons in Hr0 as [->|Hr0].
      * exists p, p1. split; [done|]. split.
        { rewrite Hout by done. rewrite Hw1, lookup_insert_eq. done. }
        split; [done|]. split; [done|].
        intros j Hj. destruct (Hsent1 j Hj) as (lj & Hlj & Hch & Hfr).
        exists lj. split; [done|]. split; [|done].
        rewrite Hother; [done|].
        intros r' j' Hr' _ [= -> _]. done.
      * destruct (Hin r0 Hr0) as (p0 & p0' & Hp0 & Hp0' & Ht0 & Hl0 & Hs0).
        assert (r0 ≠ r) by (intros ->; done).
        rewrite Hw1, lookup_insert_ne in Hp0 by done.
        exists p0, p0'. split; [done|]. split; [done|].
        split; [done|]. split; [done|].
        intros j Hj. destruct (Hs0 j Hj) as (lj & Hlj & Hch & Hfr).
        exists lj. split; [done|]. split; [|done].
        rewrite Hch. f_equal. apply Hother1.
        intros j' _ [= -> _]. done.
Qed.

(** A process receives the rows [0, n), row [y] from rank [from y]. *)
Lemma recv_one me src w p rest (n : Z) (from : Z → Z) (pay : Z → Row) :
  procs w !! me = Some p → todo p = recvs_rows src n ++ rest →
  (∀ y, 0 ≤ y < n →
     chan (net w) (from y, me, y) = [pay y]
     ∧ matching world_size me src y (net w) = Some (from y, me, y)) →
  let w' := run' (replicate (Z.to_nat n) me) w in
  ∃ p', procs w' = <[me := p']> (procs w) ∧ todo p' = rest
    ∧ length (history p') = (length (history p) + Z.to_nat n)%nat
    ∧ surface (lattice p')
      = foldl (λ g y, store_row y (pay y) g) (surface (lattice p)) (range 0 n)
    ∧ (∀ y, 0 ≤ y < n → chan (net w') (from y, me, y) = [])
    ∧ (∀ k, (∀ y, 0 ≤ y < n → k ≠ (from y, me, y)) →
         chan (net w') k = chan (net w) k).
Proof.
  intros Hp Ht Hch w'.
  destruct p as [td l c h]. simpl in Ht. subst td.
  destruct (psteps_recvs clear calculate_energy calculate_magnetism
              calculate_spin world_size me src from pay (range 0 n)
              rest l c h (net w)) as (hs & Hs & Hlen).
  { apply NoDup_seqZ. }
  { intros y Hy. apply Hch. by apply elem_of_range in Hy. }
  rewrite range_length, Z.sub_0_r in Hs, Hlen.
  subst w'. erewrite run_turns; [|exact Hp|exact Hs].
  eexists. split; [reflexivity|]. simpl.
  split; [done|]. split; [rewrite length_app; lia|]. split; [done|]. split.
  - intros y Hy.
    apply (chan_pops_here (λ y, (from y, me, y))). apply elem_of_range. lia.
  - intros k Hk. apply (chan_pops_other (λ y, (from y, me, y))).
    intros y Hy Heq. apply elem_of_range in Hy. eapply Hk; [|by symmetry]. lia.
Qed.

(** A process sends the rows [0, n) of its lattice to [d]. *)
Lemma send_one me d w p rest (n : Z) :
  procs w !! me = Some p → todo p = sends_rows d n ++ rest →
  let w' := run' (replicate (Z.to_nat n) me) w in
  ∃ p', procs w' = <[me := p']> (procs w) ∧ todo p' = rest
    ∧ lattice p' = lattice p
    ∧ length (history p') = (length (history p) + Z.to_nat n)%nat
    ∧ (∀ y, 0 ≤ y < n →
         chan (net w') (me, d, y)
         = chan (net w) (me, d, y) ++ [row_at (surface (lattice p)) y])
    ∧ (∀ k, (∀ y, 0 ≤ y < n → k ≠ (me, d, y)) →
         chan (net w') k = chan (net w) k).
Proof.
  intros Hp Ht w'.
  destruct p as [td l c h]. simpl in Ht. subst td.
  pose proof (psteps_sends clear calculate_energy calculate_magnetism
                calculate_spin world_size me d (range 0 n) rest l c h (net w))
    as Hs.
  rewrite range_length, Z.sub_0_r in Hs.
  subst w'. erewrite run_turns; [|exact Hp|exact Hs].
  eexists. split; [reflexivity|]. simpl.
  split; [done|]. split; [done|]. split.
  { rewrite length_app, length_fmap, range_length. lia. }
  split.
  - intros y Hy.
    apply (chan_pushes_here (λ y, (me, d, y)) (λ y, row_at (surface l) y)).
    + apply NoDup_seqZ.
    + apply elem_of_range. lia.
    + intros y' _ [= ->]. done.
  - intros k Hk.
    apply (chan_pushes_other (λ y, (me, d, y)) (λ y, row_at (surface l) y)).
    intros y Hy Heq. apply elem_of_range in Hy. eapply Hk; [|by symmetry]. lia.
Qed.

(** A process sends the rows [0, n) of its lattice to every rank of [ds]. *)
Lemma send_each me (ds : list Z) w p rest (n : Z) :
  NoDup ds →
  procs w !! me = Some p → todo p = (d ← ds; sends_rows d n) ++ rest →
  let w' := run' (_ ← ds; turns me n) w in
  ∃ p', procs w' = <[me := p']> (procs w) ∧ todo p' = rest
    ∧ lattice p' = lattice p
    ∧ length (history p') = (length (history p) + length ds * Z.to_nat n)%nat
    ∧ (∀ d y, d ∈ ds → 0 ≤ y < n →
         chan (net w') (me, d, y)
         = chan (net w) (me, d, y) ++ [row_at (surface (lattice p)) y])
    ∧ (∀ k, (∀ d y, d ∈ ds → 0 ≤ y < n → k ≠ (me, d, y)) →
         chan (net w') k = chan (net w) k).
Proof.
  intros Hnd. revert w p.
  induction ds as [|d ds IH]; intros w p Hp Ht w'.
  - subst w'. simpl in *. exists p.
    split; [by rewrite insert_id|]. split; [done|]. split; [done|].
    split; [lia|]. split; [|done].
    intros d y Hd. by apply elem_of_nil in Hd.
  - apply NoDup_cons in Hnd as [Hd Hnd].
    subst w'. csimpl. csimpl in Ht. rewrite <- app_assoc in Ht.
    rewrite run_app.
    pose proof (send_one me d w p _ n Hp Ht) as Hone. cbv zeta in Hone.
    fold (turns me n) in Hone.
    set (w1 := run' (turns me n) w) in *.
    destruct Hone as (p1 & Hw1 & Ht1 & Hl1 & Hlen1 & Hhere1 & Hother1).
    destruct (IH Hnd w1 p1) as (p' & Hw' & Ht' & Hl' & Hlen' & Hhere & Hother).
    { rewrite Hw1. apply lookup_insert_eq. }
    { done. }
    exists p'. split; [|split; [done|split; [congruence|split; [lia|split]]]].
    + rewrite Hw', Hw1. apply insert_insert_eq.
    + intros d' y Hd' Hy. apply elem_of_cons in Hd' as [->|Hd'].
      * rewrite Hother; [by apply Hhere1|].
        intros d' y' Hd' _ [= -> _]. done.
      * rewrite Hhere by done. rewrite Hl1. f_equal. apply Hother1.
        intros y' _ [= -> _]. done.
    + intros k Hk. rewrite Hother.
      * apply Hother1. intros y Hy. apply Hk; [apply list_elem_of_here|done].
      * intros d' y Hd' Hy. apply Hk; [by apply list_elem_of_further|done].
Qed.

(** Every rank of [rs] in turn receives the rows [0, n) sent by [src]. *)
Lemma recv_each (src : Z) (rs : list Z) w (n : Z) (rest : Z → list Action)
      (pay : Z → Row) :
  NoDup rs →
  (∀ r, r ∈ rs →
     (∃ p, procs w !! r = Some p
           ∧ todo p = recvs_rows (FromRank src) n ++ rest r)
     ∧ ∀ y, 0 ≤ y < n → chan (net w) (src, r, y) = [pay y]) →
  let w' := run' (r ← rs; turns r n) w in
  (∀ r, r ∉ rs → procs w' !! r = procs w !! r)
  ∧ (∀ k, (∀ r y, r ∈ rs → 0 ≤ y < n → k ≠ (src, r, y)) →
       chan (net w') k = chan (net w) k)
  ∧ (∀ r, r ∈ rs →
       (∀ y, 0 ≤ y < n → chan (net w') (src, r, y) = [])
       ∧ ∃ p p', procs w !! r = Some p ∧ procs w' !! r = Some p'
           ∧ todo p' = rest r
           ∧ length (history p') = (length (history p) + Z.to_nat n)%nat
           ∧ surface (lattice p')
             = foldl (λ g y, store_row y (pay y) g) (surface (lattice p))
                     (range 0 n)).
Proof.
  intros Hnd. revert w.
  induction rs as [|r rs IH]; intros w Hpre w'.
  - subst w'. simpl. split; [done|]. split; [done|].
    intros r Hr. by apply elem_of_nil in Hr.
  - apply NoDup_cons in Hnd as [Hr Hnd].
    subst w'. csimpl. rewrite run_app.
    destruct (Hpre r (list_elem_of_here _ _)) as ((p & Hp & Ht) & Hch).
    pose proof (recv_one r (FromRank src) w p (rest r) n (λ _, src) pay Hp Ht)
      as Hone.
    cbv zeta in Hone. fold (turns r n) in Hone.
    set (w1 := run' (turns r n) w) in *.
    destruct Hone as (p1 & Hw1 & Ht1 & Hlen1 & Hsurf1 & Hhere1 & Hother1).
    { intros y Hy. split; [by apply Hch|].
      unfold matching. rewrite decide_False; [done|].
      rewrite Hch by done. done. }
    destruct (IH Hnd w1) as (Hout & Hother & Hin).
    { intros r' Hr'. assert (r' ≠ r) by (intros ->; done).
      destruct (Hpre r' (list_elem_of_further _ _ _ Hr')) as (Hp' & Hch').
      split.
      - rewrite Hw1, lookup_insert_ne by done. done.
      - intros y Hy. rewrite Hother1; [by apply Hch'|].
        intros y' _ [= ? _]. done. }
    split; [|split].
    + intros r0 Hr0. apply not_elem_of_cons in Hr0 as [Hne Hr0].
      rewrite Hout by done. rewrite Hw1, lookup_insert_ne by done. done.
    + intros k Hk. rewrite Hother.
      * apply Hother1. intros y Hy. apply Hk; [apply list_elem_of_here|done].
      * intros r' y Hr' Hy. apply Hk; [by apply list_elem_of_further|done].
    + intros r0 Hr0. apply elem_of_cons in Hr0 as [->|Hr0].
      * split.
        -- intros y Hy. rewrite Hother; [by apply Hhere1|].
           intros r' y' Hr' _ [= -> _]. done.
        -- exists p, p1. split; [done|]. split; [|done].
           rewrite Hout by done. rewrite Hw1, lookup_insert_eq. done.
      * destruct (Hin r0 Hr0) as (Hempty & p0 & p0' & Hp0 & Hrest).
        assert (r0 ≠ r) by (intros ->; done).
        rewrite Hw1, lookup_insert_ne in Hp0 by done.
        split; [done|]. exists p0, p0'. done.
Qed.

Lemma seen_at_now w r p :
  procs w !! r = Some p → seen_at w r (length (history p)) = Some (lattice p).
Proof. intros Hp. unfold seen_at. rewrite Hp. simpl. apply seen_now. Qed.

Lemma seen_at_proc w r p k l :
  procs w !! r = Some p → seen p k = Some l → seen_at w r k = Some l.
Proof. intros Hp Hs. unfold seen_at. rewrite Hp. done. Qed.

(** One sweep, phase by phase: from a world with nothing in flight where
    every process is at the start of its sweep, to such a world again. *)
Lemma sweep_phase (S rps : Z) w i p0 rest0 (rest : Z → list Action) :
  0 ≤ S → 0 ≤ rps → rps * (world_size - 1) = S →
  (∀ k, chan (net w) k = []) →
  procs w !! 0 = Some p0 →
  todo p0 = StoreStats i :: recvs_rows MPI_ANY_SOURCE S
              ++ sends_all world_size S ++ rest0 →
  length (surface (lattice p0)) = Z.to_nat S →
  (∀ r, 1 ≤ r < world_size →
     ∃ p, procs w !! r = Some p
          ∧ todo p = updates S (start r rps) (finish r rps)
                       ++ recvs_rows (FromRank 0) S ++ rest r) →
  let w' := run' (sweep_turns world_size rps S) w in
  let sz := Z.to_nat S in
  let rp := Z.to_nat rps in
  let nw := Z.to_nat (world_size - 1) in
  (∀ k, chan (net w') k = [])
  ∧ (∀ r, r ≠ 0 → ¬ (1 ≤ r < world_size) → procs w' !! r = procs w !! r)
  ∧ (∃ p0', procs w' !! 0 = Some p0' ∧ todo p0' = rest0
       ∧ length (history p0') = (length (history p0) + (1 + sz + nw * sz))%nat
       ∧ length (surface (lattice p0')) = sz)
  ∧ (∀ r, 1 ≤ r < world_size →
       ∃ p p', procs w !! r = Some p ∧ procs w' !! r = Some p'
         ∧ todo p' = rest r
         ∧ length (history p') = (length (history p) + (rp * (sz + 1) + sz))%nat)
  ∧ (∀ y, 0 ≤ y < S →
       ∃ pr lc lw,
         procs w !! owner rps y = Some pr
         ∧ seen_at w' 0 (length (history p0) + 1 + sz) = Some lc
         ∧ seen_at w' (owner rps y)
                   (length (history pr)
                    + (Z.to_nat (y - start (owner rps y) rps) * (sz + 1) + sz))
           = Some lw
         ∧ row_at (surface lc) y = row_at (surface lw) y
         ∧ (touches_own_row calculate_spin →
            ∃ lw', seen_at w' (owner rps y) (length (history pr) + rp * (sz + 1))
                   = Some lw'
                   ∧ row_at (surface lw') y = row_at (surface lc) y))
  ∧ (∀ r, 1 ≤ r < world_size →
       ∃ p, procs w !! r = Some p
            ∧ lattice_synced w' r S
                (length (history p0) + 1 + sz)
                (length (history p) + rp * (sz + 1))
                (length (history p) + (rp * (sz + 1) + sz))).
Proof.
  intros HS Hrps Hdiv Hnet Hp0 Ht0 Hlen0 Hworkers w' sz rp nw.
  unfold sweep_turns in w'.
  (* the coordinator stores the statistics *)
  set (w1 := run' (turns 0 1) w).
  destruct p0 as [td0 l0 c0 h0]. simpl in Ht0, Hlen0. subst td0.
  assert (Hw1 : w1 = mkWorld
                  (<[0 := mkProc (recvs_rows MPI_ANY_SOURCE S
                                    ++ sends_all world_size S ++ rest0)
                                 (set_stats i (calculate_energy (surface l0))
                                    (calculate_magnetism (surface l0)) l0)
                                 c0 (h0 ++ [(StoreStats i, l0)])]> (procs w))
                  (net w)).
  { subst w1. eapply run_turns with (n := 1%nat); [exact Hp0|]. reflexivity. }
  (* every worker updates and sends its rows *)
  set (w2 := run' (w ← range 1 world_size;
                   replicate (Z.to_nat rps * (Z.to_nat S + 1)) w) w1).
  assert (Hsched2 : (w ← range 1 world_size; _ ← range 0 rps; turns w (S + 1))
                    = (w ← range 1 world_size;
                       replicate (Z.to_nat rps * (Z.to_nat S + 1)) w)).
  { apply bind_ext. intros r. rewrite turns_bind, range_length.
    f_equal. f_equal; lia. }
  destruct (compute_each (range 1 world_size) w1 S rps
              (λ r, recvs_rows (FromRank 0) S ++ rest r))
    as (Hout2 & Hother2 & Hin2).
  { apply NoDup_seqZ. }
  { done. }
  { intros r Hr. apply elem_of_range in Hr.
    rewrite Hw1. simpl. rewrite lookup_insert_ne by lia.
    apply Hworkers. lia. }
  fold w2 in Hout2, Hother2, Hin2.
  assert (Hnet1 : ∀ k, chan (net w1) k = []) by (rewrite Hw1; done).
  (* the rows in flight *)
  set (pay := λ y, default [] (head (chan (net w2) (owner rps y, 0, y)))).
  assert (Hsent : ∀ y, 0 ≤ y < S →
            chan (net w2) (owner rps y, 0, y) = [pay y]
            ∧ ∀ s, s ≠ owner rps y → chan (net w2) (s, 0, y) = []).
  { intros y Hy.
    destruct (owner_range rps (world_size - 1) y Hrps ltac:(lia)) as [Ho Hr].
    split.
    - destruct (Hin2 (owner rps y)) as (p & p' & _ & _ & _ & _ & Hrows).
      { apply elem_of_range. lia. }
      destruct (Hrows y Hr) as (lj & _ & Hch & _).
      unfold pay. rewrite Hch, Hnet1. done.
    - intros s Hs. rewrite Hother2; [apply Hnet1|].
      intros r j _ Hj [= -> ->]. apply Hs. by apply owner_unique. }
  (* the coordinator receives them *)
  set (w3 := run' (turns 0 S) w2).
  assert (Hp02 : procs w2 !! 0
                 = Some (mkProc (recvs_rows MPI_ANY_SOURCE S
                                   ++ sends_all world_size S ++ rest0)
                                (set_stats i (calculate_energy (surface l0))
                                   (calculate_magnetism (surface l0)) l0)
                                c0 (h0 ++ [(StoreStats i, l0)]))).
  { rewrite Hout2.
    - rewrite Hw1. simpl. apply lookup_insert_eq.
    - rewrite elem_of_range. lia. }
  destruct (recv_one 0 MPI_ANY_SOURCE w2 _ (sends_all world_size S ++ rest0) S
              (owner rps) pay Hp02 eq_refl)
    as (p3 & Hw3 & Ht3 & Hlen3 & Hsurf3 & Hhere3 & Hother3).
  { intros y Hy. destruct (Hsent y Hy) as [Hc Hothers]. split; [done|].
    unfold matching. erewrite first_source_unique; [reflexivity| | |done].
    - destruct (owner_range rps (world_size - 1) y Hrps ltac:(lia)). lia.
    - rewrite Hc. done. }
  fold (turns 0 S) in Hw3, Hhere3, Hother3. fold w3 in Hw3, Hhere3, Hother3.
  simpl in Hlen3, Hsurf3.
  assert (Hnet3 : ∀ k, chan (net w3) k = []).
  { intros [[s d] t].
    destruct (decide (d = 0 ∧ 0 ≤ t < S ∧ s = owner rps t)) as [(-> & Ht & ->)|Hn].
    - by apply Hhere3.
    - rewrite Hother3 by (intros y Hy [= -> -> ->]; apply Hn; done).
      destruct (decide (d = 0 ∧ 0 ≤ t < S)) as [[-> Ht]|Hn'].
      + apply Hsent; [done|]. intros ->. apply Hn. done.
      + rewrite Hother2; [apply Hnet1|].
        intros r j Hr Hj [= -> -> ->]. apply Hn'. split; [done|].
        apply elem_of_range in Hr. unfold finish, start in Hj. nia. }
  (* ... and sends the lattice to every worker *)
  set (w4 := run' (_ ← range 1 world_size; turns 0 S) w3).
  assert (Hp03 : procs w3 !! 0 = Some p3) by (rewrite Hw3; apply lookup_insert_eq).
  destruct (send_each 0 (range 1 world_size) w3 p3 rest0 S (NoDup_seqZ _ _) Hp03 Ht3)
    as (p4 & Hw4 & Ht4 & Hl4 & Hlen4 & Hhere4 & Hother4).
  fold w4 in Hw4, Hhere4, Hother4.
  (* every worker receives it *)
  set (w5 := run' (w ← range 1 world_size; turns w S) w4).
  destruct (recv_each 0 (range 1 world_size) w4 S rest
              (λ y, row_at (surface (lattice p3)) y) (NoDup_seqZ _ _))
    as (Hout5 & Hother5 & Hin5).
  { intros r Hr. pose proof Hr as Hr'. apply elem_of_range in Hr'. split.
    - destruct (Hin2 r Hr) as (p & p' & Hp & Hp' & Ht' & _).
      exists p'. split; [|done].
      rewrite Hw4, lookup_insert_ne by lia.
      rewrite Hw3, lookup_insert_ne by lia. done.
    - intros y Hy. rewrite Hhere4 by done. rewrite Hnet3. done. }
  fold w5 in Hout5, Hother5, Hin5.
  assert (Hw' : w' = w5).
  { subst w' w5 w4 w3 w2 w1. unfold sync_turns. rewrite Hsched2.
    rewrite !run_app. done. }
  rewrite Hw'. clear Hw' w'.
  assert (Hlen3' : length (surface (lattice p3)) = sz).
  { rewrite Hsurf3, length_stores. done. }
  split; [|split; [|split; [|split; [|split]]]].
  - intros [[s d] t].
    destruct (decide (s = 0 ∧ 1 ≤ d < world_size ∧ 0 ≤ t < S)) as [(-> & Hd & Ht)|Hn].
    + apply Hin5; [apply elem_of_range; lia|done].
    + rewrite Hother5.
      * rewrite Hother4; [apply Hnet3|].
        intros d' y Hd' Hy [= -> -> ->]. apply Hn. apply elem_of_range in Hd'. lia.
      * intros r y Hr Hy [= -> -> ->]. apply Hn. apply elem_of_range in Hr. lia.
  - intros r Hr0 Hr. rewrite Hout5 by (rewrite elem_of_range; lia).
    rewrite Hw4, lookup_insert_ne by lia.
    rewrite Hw3, lookup_insert_ne by lia.
    rewrite Hout2 by (rewrite elem_of_range; lia).
    rewrite Hw1. simpl. rewrite lookup_insert_ne by lia. done.
  - exists p4. split; [|split; [done|split]].
    + rewrite Hout5 by (rewrite elem_of_range; lia).
      rewrite Hw4. apply lookup_insert_eq.
    + rewrite Hlen4, Hlen3, length_app, range_length. simpl. subst sz nw. lia.
    + rewrite Hl4. done.
  - intros r Hr.
    assert (Hr' : r ∈ range 1 world_size) by (apply elem_of_range; lia).
    destruct (Hin2 r Hr') as (p & p2 & Hp & Hp2 & Ht2 & Hlen2 & _).
    destruct (Hin5 r Hr') as (_ & p4' & p5 & Hp4' & Hp5 & Ht5 & Hlen5 & _).
    rewrite Hw4, lookup_insert_ne in Hp4' by lia.
    rewrite Hw3, lookup_insert_ne in Hp4' by lia.
    assert (p4' = p2) as -> by congruence.
    rewrite Hw1 in Hp. simpl in Hp. rewrite lookup_insert_ne in Hp by lia.
    exists p, p5. split; [done|]. split; [done|]. split; [done|].
    rewrite Hlen5, Hlen2. subst sz rp. lia.
  - intros y Hy.
    destruct (owner_range rps (world_size - 1) y Hrps ltac:(lia)) as [Ho Hr].
    assert (Hr' : owner rps y ∈ range 1 world_size) by (apply elem_of_range; lia).
    destruct (Hin2 _ Hr') as (p & p2 & Hp & Hp2 & Ht2 & Hlen2 & Hrows).
    destruct (Hrows y Hr) as (lj & Hseen & Hch & Hfr).
    rewrite Hw1 in Hp. simpl in Hp. rewrite lookup_insert_ne in Hp by lia.
    assert (Hsched : w5 = run' ((turns 0 S)
                                  ++ (_ ← range 1 world_size; turns 0 S)
                                  ++ (w ← range 1 world_size; turns w S)) w2).
    { subst w5 w4 w3. rewrite !run_app. done. }
    exists p, (lattice p3), lj. split; [done|]. cbn [history].
    split; [|split; [|split]].
    + subst w5 w4. apply seen_run, seen_run.
      replace (length h0 + 1 + sz)%nat with (length (history p3)).
      * by apply seen_at_now.
      * rewrite Hlen3, length_app. simpl. subst sz. lia.
    + rewrite Hsched. apply seen_run. eapply seen_at_proc; eauto.
    + rewrite Hsurf3.
      rewrite stores_all by (simpl; done).
      unfold row_at at 1. rewrite decide_True by lia.
      rewrite list_lookup_fmap. unfold range.
      rewrite lookup_seqZ_lt by lia. simpl.
      replace (0 + Z.of_nat (Z.to_nat y)) with y by lia.
      unfold pay. rewrite Hch, Hnet1. done.
    + intros Htouch. exists (lattice p2). split.
      * rewrite Hsched. apply seen_run.
        subst sz rp. rewrite <- Hlen2. by apply seen_at_now.
      * rewrite (Hfr Htouch). rewrite Hsurf3.
        rewrite stores_all by (simpl; done).
        unfold row_at at 2. rewrite decide_True by lia.
        rewrite list_lookup_fmap. unfold range.
        rewrite lookup_seqZ_lt by lia. simpl.
        replace (0 + Z.of_nat (Z.to_nat y)) with y by lia.
        unfold pay. rewrite Hch, Hnet1. done.
  - intros r Hr.
    assert (Hr' : r ∈ range 1 world_size) by (apply elem_of_range; lia).
    destruct (Hin2 r Hr') as (p & p2 & Hp & Hp2 & Ht2 & Hlen2 & _).
    destruct (Hin5 r Hr') as (_ & p4' & p5 & Hp4' & Hp5 & Ht5 & Hlen5 & Hsurf5).
    rewrite Hw4, lookup_insert_ne in Hp4' by lia.
    rewrite Hw3, lookup_insert_ne in Hp4' by lia.
    assert (p4' = p2) as -> by congruence.
    rewrite Hw1 in Hp. simpl in Hp. rewrite lookup_insert_ne in Hp by lia.
    exists p. split; [done|]. cbn [history].
    exists (lattice p3), (lattice p2), (lattice p5).
    split; [|split; [|split]].
    + subst w5 w4. apply seen_run, seen_run.
      replace (length h0 + 1 + sz)%nat with (length (history p3)).
      * by apply seen_at_now.
      * rewrite Hlen3, length_app. simpl. subst sz. lia.
    + subst w5 w4 w3. do 3 apply seen_run.
      subst sz rp. rewrite <- Hlen2. by apply seen_at_now.
    + replace (length (history p) + (rp * (sz + 1) + sz))%nat
        with (length (history p5)) by (rewrite Hlen5, Hlen2; subst sz rp; lia).
      by apply seen_at_now.
    + exact Hsurf5.
Qed.

Lemma lattice_synced_run (sched : list Z) w r S (k0 km ke : nat) :
  lattice_synced w r S k0 km ke →
  lattice_synced (run' sched w) r S k0 km ke.
Proof.
  intros (lc & lm & le & Hc & Hm & He & Hs).
  exists lc, lm, le. split; [by apply seen_run|]. split; [by apply seen_run|].
  split; [by apply seen_run|done].
Qed.

Lemma row_gathered_run (sched : list Z) w rps S y (k0 kw : nat) :
  row_gathered calculate_spin w rps S y k0 kw →
  row_gathered calculate_spin (run' sched w) rps S y k0 kw.
Proof.
  intros (lc & lw & Hc & Hw & Hrow & Htouch).
  exists lc, lw. split; [by apply seen_run|]. split; [by apply seen_run|].
  split; [done|]. intros Ht. destruct (Htouch Ht) as (lw' & Hw' & Hrow').
  exists lw'. split; [by apply seen_run|done].
Qed.

(** The sweeps [sws], one after the other. *)
Lemma sweeps_phase (S rps : Z) (sws : list Z) w p0 rest0
      (rest : Z → list Action) (kw : Z → nat) :
  0 ≤ S → 0 ≤ rps → rps * (world_size - 1) = S →
  (∀ k, chan (net w) k = []) →
  procs w !! 0 = Some p0 →
  todo p0 = (i ← sws; StoreStats i :: recvs_rows MPI_ANY_SOURCE S
                       ++ sends_all world_size S) ++ rest0 →
  length (surface (lattice p0)) = Z.to_nat S →
  (∀ r, 1 ≤ r < world_size →
     ∃ p, procs w !! r = Some p
          ∧ todo p = (_ ← sws; updates S (start r rps) (finish r rps)
                                ++ recvs_rows (FromRank 0) S) ++ rest r
          ∧ length (history p) = kw r) →
  let w' := run' (_ ← sws; sweep_turns world_size rps S) w in
  let sz := Z.to_nat S in
  let rp := Z.to_nat rps in
  let nw := Z.to_nat (world_size - 1) in
  (∀ k, chan (net w') k = [])
  ∧ (∀ r, r ≠ 0 → ¬ (1 ≤ r < world_size) → procs w' !! r = procs w !! r)
  ∧ (∃ p0', procs w' !! 0 = Some p0' ∧ todo p0' = rest0
       ∧ length (history p0')
         = (length (history p0) + length sws * (1 + sz + nw * sz))%nat
       ∧ length (surface (lattice p0')) = sz)
  ∧ (∀ r, 1 ≤ r < world_size →
       ∃ p', procs w' !! r = Some p' ∧ todo p' = rest r
         ∧ length (history p') = (kw r + length sws * (rp * (sz + 1) + sz))%nat)
  ∧ (∀ (idx : nat) y, (idx < length sws)%nat → 0 ≤ y < S →
       row_gathered calculate_spin w' rps S y
         (length (history p0) + idx * (1 + sz + nw * sz) + 1 + sz)
         (kw (owner rps y) + idx * (rp * (sz + 1) + sz)))
  ∧ (∀ (idx : nat) r, (idx < length sws)%nat → 1 ≤ r < world_size →
       lattice_synced w' r S
         (length (history p0) + idx * (1 + sz + nw * sz) + 1 + sz)
         (kw r + idx * (rp * (sz + 1) + sz) + rp * (sz + 1))
         (kw r + (idx + 1) * (rp * (sz + 1) + sz))).
Proof.
  intros HS Hrps Hdiv. revert w p0 kw.
  induction sws as [|i sws IH]; intros w p0 kw Hnet Hp0 Ht0 Hlen0 Hworkers w' sz rp nw.
  - subst w'. simpl in *. split; [done|]. split; [done|]. split.
    { exists p0. split; [done|]. split; [done|]. split; [lia|done]. }
    split.
    { intros r Hr. destruct (Hworkers r Hr) as (p & Hp & Ht & Hl).
      exists p. split; [done|]. split; [done|]. lia. }
    split; intros idx y Hidx; lia.
  - subst w'. rewrite bind_cons, run_app. rewrite bind_cons in Ht0.
    pose proof (sweep_phase S rps w i p0
                  ((sws ≫= λ i, StoreStats i :: recvs_rows MPI_ANY_SOURCE S
                                 ++ sends_all world_size S) ++ rest0)
                  (λ r, (sws ≫= λ _, updates S (start r rps) (finish r rps)
                                      ++ recvs_rows (FromRank 0) S) ++ rest r)
                  HS Hrps Hdiv Hnet Hp0) as Hone.
    cbv zeta in Hone.
    set (w1 := run' (sweep_turns world_size rps S) w) in *.
    destruct Hone as (Hnet1 & Hframe1 & (p1 & Hp1 & Ht1 & Hl1 & Hlen1) & Hw1 & Hrows1
                      & Hsync1).
    { rewrite Ht0. simpl. rewrite <- ?app_assoc. done. }
    { done. }
    { intros r Hr. destruct (Hworkers r Hr) as (p & Hp & Ht & Hl).
      exists p. split; [done|]. rewrite Ht, bind_cons.
      rewrite <- !app_assoc. done. }
    destruct (IH w1 p1 (λ r, (kw r + (rp * (sz + 1) + sz))%nat) Hnet1 Hp1 Ht1 Hlen1)
      as (Hnet' & Hframe' & (p' & Hp' & Ht' & Hl' & Hlen') & Hw' & Hrows' & Hsync').
    { intros r Hr. destruct (Hw1 r Hr) as (p & p2 & Hp & Hp2 & Ht2 & Hl2).
      destruct (Hworkers r Hr) as (q & Hq & _ & Hlq).
      assert (q = p) as -> by congruence.
      exists p2. split; [done|]. split; [done|]. subst sz rp. lia. }
    split; [done|]. split.
    { intros r Hr0 Hr. rewrite Hframe' by done. by apply Hframe1. }
    split.
    { exists p'. split; [done|]. split; [done|]. split; [|done].
      rewrite Hl', Hl1. simpl. subst sz nw. lia. }
    split.
    { intros r Hr. destruct (Hw' r Hr) as (q & Hq & Htq & Hlq).
      exists q. split; [done|]. split; [done|]. rewrite Hlq. simpl. lia. }
    split; cycle 1.
    { intros idx r Hidx Hr. destruct idx as [|idx].
      - apply lattice_synced_run.
        destruct (Hsync1 r Hr) as (p & Hp & Hsync).
        destruct (Hworkers r Hr) as (q & Hq & _ & Hlq).
        assert (q = p) as -> by congruence.
        rewrite <- Hlq. rewrite !Nat.mul_0_l, !Nat.add_0_r.
        replace ((0 + 1) * (rp * (sz + 1) + sz))%nat
          with (rp * (sz + 1) + sz)%nat by lia.
        exact Hsync.
      - simpl in Hidx.
        pose proof (Hsync' idx r ltac:(lia) Hr) as Hsync. cbv beta in Hsync.
        rewrite Hl1 in Hsync.
        replace (length (history p0) + Datatypes.S idx * (1 + sz + nw * sz) + 1 + sz)%nat
          with (length (history p0) + (1 + Z.to_nat S + Z.to_nat (world_size - 1) * Z.to_nat S)
                + idx * (1 + sz + nw * sz) + 1 + sz)%nat by (subst sz nw; lia).
        replace (kw r + Datatypes.S idx * (rp * (sz + 1) + sz) + rp * (sz + 1))%nat
          with (kw r + (rp * (sz + 1) + sz) + idx * (rp * (sz + 1) + sz)
                + rp * (sz + 1))%nat by lia.
        replace (kw r + (Datatypes.S idx + 1) * (rp * (sz + 1) + sz))%nat
          with (kw r + (rp * (sz + 1) + sz)
                + (idx + 1) * (rp * (sz + 1) + sz))%nat by lia.
        exact Hsync. }
    intros idx y Hidx Hy. destruct idx as [|idx].
    + apply row_gathered_run.
      destruct (Hrows1 y Hy) as (pr & lc & lw & Hpr & Hc & Hw & Hrow & Htouch).
      destruct (owner_range rps (world_size - 1) y Hrps ltac:(lia)) as [Ho _].
      destruct (Hworkers (owner rps y) ltac:(lia)) as (q & Hq & _ & Hlq).
      assert (q = pr) as -> by congruence.
      exists lc, lw. rewrite <- Hlq.
      rewrite !Nat.mul_0_l, !Nat.add_0_r.
      split; [done|]. split; [done|]. split; [done|]. done.
    + simpl in Hidx.
      pose proof (Hrows' idx y ltac:(lia) Hy) as Hrow. cbv beta in Hrow.
      rewrite Hl1 in Hrow.
      replace (length (history p0) + Datatypes.S idx * (1 + sz + nw * sz) + 1 + sz)%nat
        with (length (history p0) + (1 + Z.to_nat S + Z.to_nat (world_size - 1) * Z.to_nat S)
              + idx * (1 + sz + nw * sz) + 1 + sz)%nat by (subst sz nw; lia).
      replace (kw (owner rps y) + Datatypes.S idx * (rp * (sz + 1) + sz))%nat
        with (kw (owner rps y) + (rp * (sz + 1) + sz)
              + idx * (rp * (sz + 1) + sz))%nat by lia.
      exact Hrow.
Qed.
End Phases.

(** ** The whole run *)

Section Whole_run.
Context {Temp E M : Type}.
Variable clear : Grid → Grid.
Variable calculate_energy : Grid → E.
Variable calculate_magnetism : Grid → M.
Variable calculate_spin : Temp → nat → Grid → Z → Z → Grid.
Variables (world_size rows_per_slave : Z).

Local Abbreviation step' :=
  (step clear calculate_energy calculate_magnetism calculate_spin world_size).
Local Abbreviation run' :=
  (run clear calculate_energy calculate_magnetism calculate_spin world_size).
Local Abbreviation exec' :=
  (exec clear calculate_energy calculate_magnetism calculate_spin world_size).
Local Abbreviation halted' :=
  (halted clear calculate_energy calculate_magnetism calculate_spin world_size).
Implicit Types (w : World (Temp:=Temp) (E:=E) (M:=M))
               (p : Proc (Temp:=Temp) (E:=E) (M:=M))
               (lat : Z → Surface Temp E M) (r : Z).

Lemma program_coordinator (l : Surface Temp E M) :
  (mpi_program world_size 0 rows_per_slave l).1
  = sends_all world_size (size l)
      ++ [Clear; Save]
      ++ (i ← range 0 (loops l);
          StoreStats i :: recvs_rows MPI_ANY_SOURCE (size l)
            ++ sends_all world_size (size l))
      ++ [SetComplete; Save; Report].
Proof.
  unfold mpi_program, initialise, simulate. simpl.
  rewrite sync_coordinator.
  do 4 f_equal; try (apply bind_ext; intros i; apply sweep_coordinator).
Qed.

Lemma program_worker r (l : Surface Temp E M) :
  r ≠ 0 →
  (mpi_program world_size r rows_per_slave l).1
  = recvs_rows (FromRank 0) (size l)
      ++ (_ ← range 0 (loops l);
          updates (size l) (start r rows_per_slave) (finish r rows_per_slave)
            ++ recvs_rows (FromRank 0) (size l)).
Proof.
  intros Hr. unfold mpi_program, initialise, simulate. simpl.
  rewrite sync_worker by done.
  destruct (r =? 0) eqn:H0; [lia|]. simpl. rewrite app_nil_r.
  f_equal; try (apply bind_ext; intros i; by apply sweep_worker).
Qed.

Lemma sends_of_program s (l : Surface Temp E M) row d t :
  MPI_Send row d t ∈ (mpi_program world_size s rows_per_slave l).1 →
  (s = 0 ∧ 1 ≤ d) ∨ (s ≠ 0 ∧ d = 0 ∧ start s rows_per_slave ≤ t < finish s rows_per_slave).
Proof.
  destruct (decide (s = 0)) as [->|Hs].
  - rewrite program_coordinator. unfold sends_all, sends_rows, recvs_rows.
    intros H. left. split; [done|]. set_unfold in H. naive_solver lia.
  - rewrite program_worker by done. unfold updates, recvs_rows.
    intros H. right. split; [done|]. set_unfold in H. naive_solver lia.
Qed.

Lemma any_recvs_of_program d (l : Surface Temp E M) row t :
  MPI_Recv row MPI_ANY_SOURCE t ∈ (mpi_program world_size d rows_per_slave l).1 →
  d = 0.
Proof.
  destruct (decide (d = 0)) as [->|Hd]; [done|].
  rewrite program_worker by done. unfold updates, recvs_rows.
  intros H. set_unfold in H. naive_solver.
Qed.

Lemma boot_lookup lat r :
  procs (boot world_size rows_per_slave lat) !! r
  = if decide (0 ≤ r < world_size)
    then Some (mkProc (mpi_program world_size r rows_per_slave (lat r)).1
                      (lat r) 0%nat [])
    else None.
Proof.
  unfold boot. simpl. destruct (decide (0 ≤ r < world_size)) as [Hr|Hr].
  - apply elem_of_list_to_map_1.
    + rewrite <- list_fmap_compose. simpl. rewrite list_fmap_id.
      apply NoDup_seqZ.
    + apply list_elem_of_fmap. exists r. split; [done|].
      by apply elem_of_range.
  - apply not_elem_of_list_to_map_1.
    rewrite <- list_fmap_compose. simpl. rewrite list_fmap_id.
    by rewrite elem_of_range.
Qed.

Lemma boot_net lat k : chan (net (boot world_size rows_per_slave lat)) k = [].
Proof. apply chan_empty. Qed.

(** The phased schedule runs every process to the end of its program when
    the workers' ranges cover the lattice; along it every gather gives the
    coordinator the rows the workers sent and every synchronisation gives the
    workers the rows of the coordinator; no message is left in flight. *)
Lemma phased_run_full lat (S L : Z) :
  1 ≤ world_size → 0 ≤ S → 0 ≤ L → 0 ≤ rows_per_slave →
  rows_per_slave * (world_size - 1) = S →
  (∀ r, size (lat r) = S ∧ loops (lat r) = L) →
  length (surface (lat 0)) = Z.to_nat S →
  keeps_rows clear →
  let wf := run' (phased world_size rows_per_slave S L)
                 (boot world_size rows_per_slave lat) in
  let sz := Z.to_nat S in
  let rp := Z.to_nat rows_per_slave in
  let nw := Z.to_nat (world_size - 1) in
  finished wf
  ∧ (∃ p0, procs wf !! 0 = Some p0 ∧ complete (lattice p0) = true)
  ∧ (∀ (i : nat) y, (i < Z.to_nat L)%nat → 0 ≤ y < S →
       row_gathered calculate_spin wf rows_per_slave S y
         (nw * sz + 2 + i * (1 + sz + nw * sz) + 1 + sz)
         (sz + i * (rp * (sz + 1) + sz)))
  ∧ seen_at wf 0 (nw * sz + 2)
    = Some (set_surface (clear (surface (lat 0))) (lat 0))
  ∧ (∀ r, 1 ≤ r < world_size →
       ∃ lr, seen_at wf r sz = Some lr
             ∧ surface lr
               = foldl (λ g y, store_row y (row_at (surface (lat 0)) y) g)
                       (surface (lat r)) (range 0 S))
  ∧ (∀ k, chan (net wf) k = [])
  ∧ (∀ (i : nat) r, (i < Z.to_nat L)%nat → 1 ≤ r < world_size →
       lattice_synced wf r S
         (nw * sz + 2 + i * (1 + sz + nw * sz) + 1 + sz)
         (sz + i * (rp * (sz + 1) + sz) + rp * (sz + 1))
         (sz + (i + 1) * (rp * (sz + 1) + sz))).
Proof.
  intros Hws HS HL Hrps Hdiv Hlat Hlen0 Hclear wf sz rp nw.
  set (w0 := boot world_size rows_per_slave lat) in *.
  destruct (Hlat 0) as [HS0 HL0].
  (* first synchronisation *)
  assert (Hp0 : procs w0 !! 0
                = Some (mkProc (mpi_program world_size 0 rows_per_slave (lat 0)).1
                               (lat 0) 0%nat [])).
  { subst w0. rewrite boot_lookup, decide_True by lia. done. }
  rewrite program_coordinator, HS0, HL0 in Hp0.
  set (w1 := run' (_ ← range 1 world_size; turns 0 S) w0).
  destruct (send_each clear calculate_energy calculate_magnetism calculate_spin
              world_size 0 (range 1 world_size) w0 _ _ S (NoDup_seqZ _ _)
              Hp0 eq_refl)
    as (p1 & Hw1 & Ht1 & Hl1 & Hlen1 & Hhere1 & Hother1).
  fold w1 in Hw1, Hhere1, Hother1. cbn [lattice history length] in Hl1, Hlen1, Hhere1.
  set (w2 := run' (w ← range 1 world_size; turns w S) w1).
  destruct (recv_each clear calculate_energy calculate_magnetism calculate_spin
              world_size 0 (range 1 world_size) w1 S
              (λ r, _ ← range 0 L;
                    updates S (start r rows_per_slave) (finish r rows_per_slave)
                      ++ recvs_rows (FromRank 0) S)
              (λ y, row_at (surface (lat 0)) y) (NoDup_seqZ _ _))
    as (Hout2 & Hother2 & Hin2).
  { intros r Hr. pose proof Hr as Hr'. apply elem_of_range in Hr'. split.
    - eexists. split.
      + rewrite Hw1, lookup_insert_ne by lia.
        subst w0. rewrite boot_lookup, decide_True by lia. reflexivity.
      + cbn [todo]. rewrite program_worker by lia.
        destruct (Hlat r) as [-> ->]. done.
    - intros y Hy. rewrite Hhere1 by done.
      subst w0. rewrite boot_net. done. }
  fold w2 in Hout2, Hother2, Hin2.
  assert (Hnet2 : ∀ k, chan (net w2) k = []).
  { intros [[s d] t].
    destruct (decide (s = 0 ∧ 1 ≤ d < world_size ∧ 0 ≤ t < S)) as [(-> & Hd & Ht)|Hn].
    - apply Hin2; [apply elem_of_range; lia|done].
    - rewrite Hother2.
      + rewrite Hother1; [subst w0; apply boot_net|].
        intros d' y Hd' Hy [= -> -> ->]. apply Hn. apply elem_of_range in Hd'. lia.
      + intros r y Hr Hy [= -> -> ->]. apply Hn. apply elem_of_range in Hr. lia. }
  (* the coordinator clears and saves *)
  assert (Hp02 : procs w2 !! 0 = Some p1).
  { rewrite Hout2 by (rewrite elem_of_range; lia).
    rewrite Hw1. apply lookup_insert_eq. }
  set (w3 := run' (turns 0 2) w2).
  destruct p1 as [td1 l1 c1 h1]. simpl in Ht1, Hl1, Hlen1. subst td1 l1.
  set (sweeps := range 0 L ≫= λ i, StoreStats i :: recvs_rows MPI_ANY_SOURCE S
                                      ++ sends_all world_size S) in *.
  set (p3 := mkProc (sweeps ++ [SetComplete; Save; Report])
                    (set_surface (clear (surface (lat 0))) (lat 0)) c1
                    ((h1 ++ [(Clear, lat 0)])
                       ++ [(Save, set_surface (clear (surface (lat 0))) (lat 0))])).
  assert (Hw3 : w3 = mkWorld (<[0 := p3]> (procs w2)) (net w2)).
  { subst w3. eapply run_turns with (n := 2%nat); [exact Hp02|]. reflexivity. }
  (* the sweeps *)
  set (w4 := run' (_ ← range 0 L; sweep_turns world_size rows_per_slave S) w3).
  destruct (sweeps_phase clear calculate_energy calculate_magnetism calculate_spin
              world_size S rows_per_slave (range 0 L) w3 p3
              [SetComplete; Save; Report] (λ _, []) (λ _, sz)
              HS Hrps Hdiv)
    as (Hnet4 & Hframe4 & (p4 & Hp4 & Ht4 & Hl4 & Hlen4) & Hw4 & Hrows4 & Hsync4).
  { rewrite Hw3. done. }
  { rewrite Hw3. simpl. apply lookup_insert_eq. }
  { done. }
  { simpl. rewrite Hclear. done. }
  { intros r Hr. destruct (Hin2 r) as (_ & q & q' & Hq & Hq' & Htq & Hlq & _).
    { apply elem_of_range. lia. }
    exists q'. split; [|split].
    - rewrite Hw3. simpl. rewrite lookup_insert_ne by lia. done.
    - rewrite Htq, app_nil_r. done.
    - rewrite Hlq. rewrite Hw1, lookup_insert_ne in Hq by lia.
      subst w0. rewrite boot_lookup, decide_True in Hq by lia.
      injection Hq as <-. simpl. subst sz. lia. }
  fold w4 in Hnet4, Hframe4, Hp4, Hw4, Hrows4.
  (* the coordinator completes *)
  set (w5 := run' (turns 0 3) w4).
  destruct p4 as [td4 l4 c4 h4]. simpl in Ht4, Hl4, Hlen4. subst td4.
  set (p5 := mkProc [] (set_complete true l4) c4
                    (((h4 ++ [(SetComplete, l4)])
                        ++ [(Save, set_complete true l4)])
                       ++ [(Report, set_complete true l4)])).
  assert (Hw5 : w5 = mkWorld (<[0 := p5]> (procs w4)) (net w4)).
  { subst w5. eapply run_turns with (n := 3%nat); [exact Hp4|]. reflexivity. }
  assert (Hwf : wf = w5).
  { subst wf w5 w4 w3 w2 w1. unfold phased, sync_turns.
    rewrite !run_app. done. }
  rewrite Hwf. clear Hwf wf.
  split; [|split; [|split; [|split; [|split; [|split]]]]].
  - intros r p Hp. rewrite Hw5 in Hp. simpl in Hp.
    destruct (decide (r = 0)) as [->|Hr0].
    { rewrite lookup_insert_eq in Hp. injection Hp as <-. done. }
    rewrite lookup_insert_ne in Hp by done.
    destruct (decide (1 ≤ r < world_size)) as [Hr|Hr].
    { destruct (Hw4 r Hr) as (q & Hq & Htq & _). congruence. }
    rewrite Hframe4 in Hp by done.
    rewrite Hw3 in Hp. simpl in Hp. rewrite lookup_insert_ne in Hp by done.
    rewrite Hout2 in Hp by (rewrite elem_of_range; lia).
    rewrite Hw1, lookup_insert_ne in Hp by done.
    subst w0. rewrite boot_lookup, decide_False in Hp by lia. done.
  - exists p5. rewrite Hw5. simpl. rewrite lookup_insert_eq. done.
  - intros i y Hi Hy. subst w5. apply row_gathered_run.
    pose proof (Hrows4 i y) as Hrow. rewrite range_length in Hrow.
    specialize (Hrow ltac:(lia) Hy).
    subst p3. simpl in Hrow. rewrite !length_app in Hrow. simpl in Hrow.
    rewrite Hlen1, range_length in Hrow.
    replace (nw * sz + 2 + i * (1 + sz + nw * sz) + 1 + sz)%nat
      with (Z.to_nat (world_size - 1) * Z.to_nat S + 1 + 1
            + i * Datatypes.S (Z.to_nat S + Z.to_nat (world_size - 1) * Z.to_nat S)
            + 1 + Z.to_nat S)%nat by (subst sz nw; lia).
    exact Hrow.
  - subst w5 w4. do 2 apply seen_run.
    replace (nw * sz + 2)%nat with (length (history p3)).
    + apply seen_at_now. rewrite Hw3. simpl. apply lookup_insert_eq.
    + subst p3. simpl. rewrite !length_app. simpl.
      rewrite Hlen1, range_length. subst nw sz. lia.
  - intros r Hr.
    destruct (Hin2 r) as (_ & q & q' & Hq & Hq' & Htq & Hlq & Hsq).
    { apply elem_of_range. lia. }
    rewrite Hw1, lookup_insert_ne in Hq by lia.
    subst w0. rewrite boot_lookup, decide_True in Hq by lia.
    injection Hq as <-. simpl in Hlq, Hsq.
    exists (lattice q'). split; [|done].
    subst w5 w4 w3. do 3 apply seen_run.
    replace sz with (length (history q')) by (subst sz; lia).
    by apply seen_at_now.
  - intros k. rewrite Hw5. simpl. apply Hnet4.
  - intros i r Hi Hr. subst w5. apply lattice_synced_run.
    pose proof (Hsync4 i r) as Hsync. rewrite range_length in Hsync.
    specialize (Hsync ltac:(lia) Hr).
    subst p3. simpl in Hsync. rewrite !length_app in Hsync. simpl in Hsync.
    rewrite Hlen1, range_length in Hsync.
    replace (nw * sz + 2 + i * (1 + sz + nw * sz) + 1 + sz)%nat
      with (Z.to_nat (world_size - 1) * Z.to_nat S + 1 + 1
            + i * Datatypes.S (Z.to_nat S + Z.to_nat (world_size - 1) * Z.to_nat S)
            + 1 + Z.to_nat S)%nat by (subst sz nw; lia).
    exact Hsync.
Qed.


(** The phased schedule runs every process to the end of its program when
    the workers' ranges cover the lattice, and along it every gather gives
    the coordinator the rows the workers sent. *)
Lemma phased_run lat (S L : Z) :
  1 ≤ world_size → 0 ≤ S → 0 ≤ L → 0 ≤ rows_per_slave →
  rows_per_slave * (world_size - 1) = S →
  (∀ r, size (lat r) = S ∧ loops (lat r) = L) →
  length (surface (lat 0)) = Z.to_nat S →
  keeps_rows clear →
  let wf := run' (phased world_size rows_per_slave S L)
                 (boot world_size rows_per_slave lat) in
  let sz := Z.to_nat S in
  let rp := Z.to_nat rows_per_slave in
  let nw := Z.to_nat (world_size - 1) in
  finished wf
  ∧ (∃ p0, procs wf !! 0 = Some p0 ∧ complete (lattice p0) = true)
  ∧ (∀ (i : nat) y, (i < Z.to_nat L)%nat → 0 ≤ y < S →
       row_gathered calculate_spin wf rows_per_slave S y
         (nw * sz + 2 + i * (1 + sz + nw * sz) + 1 + sz)
         (sz + i * (rp * (sz + 1) + sz)))
  ∧ seen_at wf 0 (nw * sz + 2)
    = Some (set_surface (clear (surface (lat 0))) (lat 0))
  ∧ (∀ r, 1 ≤ r < world_size →
       ∃ lr, seen_at wf r sz = Some lr
             ∧ surface lr
               = foldl (λ g y, store_row y (row_at (surface (lat 0)) y) g)
                       (surface (lat r)) (range 0 S)).
Proof.
  intros Hws HS HL Hrps Hdiv Hlat Hlen0 Hclear.
  destruct (phased_run_full lat S L Hws HS HL Hrps Hdiv Hlat Hlen0 Hclear)
    as (H1 & H2 & H3 & H4 & H5 & _).
  cbv zeta. done.
Qed.

Lemma unambiguous_boot lat :
  unambiguous (boot world_size rows_per_slave lat).
Proof.
  assert (Hsend : ∀ s t, may_arrive (boot world_size rows_per_slave lat) s 0 t →
            start s rows_per_slave ≤ t < finish s rows_per_slave).
  { intros s t [Hc|(p & row & Hp & Hin)].
    - rewrite boot_net in Hc. done.
    - rewrite boot_lookup in Hp. destruct (decide _); [|done].
      injection Hp as <-. simpl in Hin.
      apply sends_of_program in Hin as [[_ ?]|(_ & _ & ?)]; [lia|done]. }
  intros d p row t s s' Hp Hin Hs Hs'.
  rewrite boot_lookup in Hp. destruct (decide _); [|done].
  injection Hp as <-. simpl in Hin.
  apply any_recvs_of_program in Hin as ->.
  rewrite (owner_unique rows_per_slave s t) by auto.
  rewrite (owner_unique rows_per_slave s' t) by auto. done.
Qed.

Lemma finished_halted w : finished w → halted' w.
Proof.
  intros Hf r. unfold step.
  destruct (procs w !! r) as [p|] eqn:Hp; simpl; [|done].
  unfold pstep. rewrite (Hf r p Hp). done.
Qed.

(** Whatever the schedule, the run can be continued to the world the
    phased schedule ends in. *)
Lemma every_run_completes lat (S L : Z) (sched : list Z) :
  1 ≤ world_size → 0 ≤ S → 0 ≤ L → 0 ≤ rows_per_slave →
  rows_per_slave * (world_size - 1) = S →
  (∀ r, size (lat r) = S ∧ loops (lat r) = L) →
  length (surface (lat 0)) = Z.to_nat S →
  keeps_rows clear →
  ∃ more,
    run' (sched ++ more) (boot world_size rows_per_slave lat)
    = run' (phased world_size rows_per_slave S L)
           (boot world_size rows_per_slave lat).
Proof.
  intros Hws HS HL Hrps Hdiv Hlat Hlen0 Hclear.
  destruct (phased_run lat S L Hws HS HL Hrps Hdiv Hlat Hlen0 Hclear)
    as (Hfin & _).
  eapply run_confluent.
  - apply unambiguous_boot.
  - apply exec_moves.
  - by apply finished_halted.
Qed.
End Whole_run.

(** ** Runs with two versions of [calculate_spin] *)

Section Extensionality.
Context {Temp E M : Type}.
Variable clear : Grid → Grid.
Variable calculate_energy : Grid → E.
Variable calculate_magnetism : Grid → M.
Variables f f' : Temp → nat → Grid → Z → Z → Grid.
Variable world_size : Z.
Variable ok : Temp → Prop.
Hypothesis agree : ∀ t n g k j, ok t → f t n g k j = f' t n g k j.

Implicit Types (w : World (Temp:=Temp) (E:=E) (M:=M))
               (p : Proc (Temp:=Temp) (E:=E) (M:=M))
               (l : Surface Temp E M) (r me : Z) (nt : Net).

Lemma perform_temperature me a l n nt l' n' nt' :
  perform clear calculate_energy calculate_magnetism f world_size me a l n nt
  = Some (l', n', nt') →
  temperature l' = temperature l.
Proof.
  destruct a; simpl; try (intros [= <- _ _]; done).
  destruct (matching world_size me src tag nt) as [k|]; simpl; [|done].
  destruct (chan nt k); [done|]. intros [= <- _ _]. done.
Qed.

Lemma perform_ext me a l n nt :
  ok (temperature l) →
  perform clear calculate_energy calculate_magnetism f world_size me a l n nt
  = perform clear calculate_energy calculate_magnetism f' world_size me a l n nt.
Proof. intros Hok. destruct a; simpl; try done. by rewrite agree. Qed.

Lemma step_ext r w :
  (∀ r p, procs w !! r = Some p → ok (temperature (lattice p))) →
  step clear calculate_energy calculate_magnetism f world_size r w
  = step clear calculate_energy calculate_magnetism f' world_size r w.
Proof.
  intros Hok. unfold step. destruct (procs w !! r) as [p|] eqn:Hp; simpl; [|done].
  unfold pstep. destruct (todo p) as [|a rest]; simpl; [done|].
  rewrite perform_ext by eauto. done.
Qed.

Lemma step_temperature r w w' :
  (∀ r p, procs w !! r = Some p → ok (temperature (lattice p))) →
  step clear calculate_energy calculate_magnetism f world_size r w = Some w' →
  ∀ r p, procs w' !! r = Some p → ok (temperature (lattice p)).
Proof.
  intros Hok Hs r0 p0 Hp0.
  destruct (step_inv _ _ _ _ _ _ _ _ Hs)
    as (p & a & rest & l & n & Hp & Ht & Ha & Hw).
  rewrite Hw in Hp0. destruct (decide (r = r0)) as [->|Hne].
  - rewrite lookup_insert_eq in Hp0. injection Hp0 as <-. simpl.
    rewrite (perform_temperature _ _ _ _ _ _ _ _ Ha). eauto.
  - rewrite lookup_insert_ne in Hp0 by done. eauto.
Qed.

(** Two versions of [calculate_spin] that agree at the temperatures of the
    lattices give the same runs. *)
Lemma run_ext (sched : list Z) w :
  (∀ r p, procs w !! r = Some p → ok (temperature (lattice p))) →
  run clear calculate_energy calculate_magnetism f world_size sched w
  = run clear calculate_energy calculate_magnetism f' world_size sched w.
Proof.
  revert w. induction sched as [|r sched IH]; intros w Hok; simpl; [done|].
  rewrite <- step_ext by done.
  destruct (step clear calculate_energy calculate_magnetism f world_size r w)
    as [w'|] eqn:Hs; simpl.
  - apply IH. eapply step_temperature; eauto.
  - by apply IH.
Qed.
End Extensionality.

Section Halting.
Context {Temp E M : Type}.
Variable clear : Grid → Grid.
Variable calculate_energy : Grid → E.
Variable calculate_magnetism : Grid → M.
Variable calculate_spin : Temp → nat → Grid → Z → Z → Grid.
Variable world_size : Z.
Implicit Types (w : World (Temp:=Temp) (E:=E) (M:=M)).

Lemma run_dom (sched : list Z) w r :
  procs (run clear calculate_energy calculate_magnetism calculate_spin
             world_size sched w) !! r = None
  ↔ procs w !! r = None.
Proof.
  revert w. induction sched as [|r' sched IH]; intros w; simpl; [done|].
  rewrite IH.
  destruct (step clear calculate_energy calculate_magnetism calculate_spin
                 world_size r' w) as [w'|] eqn:Hs; simpl; [|done].
  eapply step_dom; eauto.
Qed.

Lemma haltedb_halted w :
  (∀ r, ¬ (0 ≤ r < world_size) → procs w !! r = None) →
  haltedb clear calculate_energy calculate_magnetism calculate_spin
          world_size w = true →
  halted clear calculate_energy calculate_magnetism calculate_spin world_size w.
Proof.
  intros Hdom Hb r. destruct (decide (0 ≤ r < world_size)) as [Hr|Hr].
  - unfold haltedb in Hb. rewrite forallb_forall in Hb.
    specialize (Hb r). rewrite <- list_elem_of_In, elem_of_range in Hb.
    specialize (Hb Hr).
    destruct (step clear calculate_energy calculate_magnetism calculate_spin
                   world_size r w); done.
  - apply step_outside. by apply Hdom.
Qed.

(** A process that has finished stays as it is. *)
Lemma run_finished_proc (sched : list Z) w r p :
  procs w !! r = Some p → todo p = [] →
  procs (run clear calculate_energy calculate_magnetism calculate_spin
             world_size sched w) !! r = Some p.
Proof.
  revert w. induction sched as [|r' sched IH]; intros w Hp Ht; simpl; [done|].
  destruct (step clear calculate_energy calculate_magnetism calculate_spin
                 world_size r' w) as [w'|] eqn:Hs; simpl; [|by apply IH].
  apply IH; [|done].
  destruct (step_inv _ _ _ _ _ _ _ _ Hs)
    as (p' & a & rest & l & n & Hp' & Ht' & Ha & Hw).
  rewrite Hw. destruct (decide (r' = r)) as [->|Hne].
  - congruence.
  - rewrite lookup_insert_ne by done. done.
Qed.
End Halting.

(** ** The spin update rule *)

Module IsingFacts.
Import Ising.

Lemma length_set_spin (g : Grid) (x y v : Z) :
  length (set_spin g x y v) = length g.
Proof.
  unfold set_spin. destruct (decide _); [|done]. apply length_insert.
Qed.

Lemma row_at_set_spin_other (g : Grid) (x y v y' : Z) :
  y' ≠ y → row_at (set_spin g x y v) y' = row_at g y'.
Proof.
  intros Hne. unfold set_spin. destruct (decide _) as [[Hx Hy]|]; [|done].
  unfold row_at. destruct (decide (0 ≤ y')); [|done].
  rewrite list_lookup_insert_ne by lia. done.
Qed.

Lemma row_at_set_spin_same (g : Grid) (x y v : Z) :
  0 ≤ x → 0 ≤ y → (Z.to_nat y < length g)%nat →
  row_at (set_spin g x y v) y = <[Z.to_nat x := v]> (row_at g y).
Proof.
  intros Hx Hy Hlen. unfold set_spin. rewrite decide_True by done.
  unfold row_at at 1. rewrite decide_True by done.
  rewrite list_lookup_insert_eq by done. done.
Qed.

Lemma spin_in_range (g : Grid) (x y : Z) :
  0 ≤ x < Z.of_nat (length g) → 0 ≤ y < Z.of_nat (length g) →
  spin g x y = default 0 (row_at g y !! Z.to_nat x).
Proof.
  intros Hx Hy. unfold spin. cbv zeta.
  rewrite !Z.mod_small by lia. done.
Qed.

Lemma square_row (n : Z) (g : Grid) (y : Z) :
  square n g → 0 ≤ y < n → length (row_at g y) = Z.to_nat n.
Proof.
  intros [Hlen Hrows] Hy. unfold row_at. rewrite decide_True by lia.
  destruct (g !! Z.to_nat y) as [r|] eqn:Hr.
  - simpl. eapply Forall_lookup_1 in Hrows; eauto.
  - apply lookup_ge_None_1 in Hr. lia.
Qed.

(** A write changes the cell it addresses and no other. *)
Lemma spin_set_spin (n : Z) (g : Grid) (k j v x y : Z) :
  square n g → 0 ≤ k < n → 0 ≤ j < n → 0 ≤ x < n → 0 ≤ y < n →
  spin (set_spin g k j v) x y
  = if decide (x = k ∧ y = j) then v else spin g x y.
Proof.
  intros Hsq Hk Hj Hx Hy. pose proof Hsq as [Hlen _].
  rewrite !spin_in_range by (rewrite ?length_set_spin; lia).
  destruct (decide (y = j)) as [->|Hyj].
  - rewrite row_at_set_spin_same by lia.
    destruct (decide (x = k)) as [->|Hxk].
    + rewrite decide_True by done.
      rewrite list_lookup_insert_eq; [done|].
      rewrite (square_row n) by done. lia.
    + rewrite decide_False by tauto.
      rewrite list_lookup_insert_ne by lia. done.
  - rewrite decide_False by tauto.
    rewrite row_at_set_spin_other by done. done.
Qed.

Lemma square_set_spin (n : Z) (g : Grid) (k j v : Z) :
  square n g → square n (set_spin g k j v).
Proof.
  intros [Hlen Hrows]. split; [by rewrite length_set_spin|].
  unfold set_spin. destruct (decide _) as [[Hk Hj]|]; [|done].
  destruct (g !! Z.to_nat j) as [r|] eqn:Hr.
  - apply Forall_insert; [done|]. rewrite length_insert.
    unfold row_at. rewrite decide_True by done. rewrite Hr. simpl.
    eapply Forall_lookup_1 in Hrows; eauto.
  - apply lookup_ge_None_1 in Hr. rewrite list_insert_ge by lia. done.
Qed.

Lemma metropolis_downhill (t : R) (dE : Z) (u : R) :
  dE ≤ 0 → metropolis t dE u = true.
Proof. intros H. unfold metropolis. destruct (dE <=? 0) eqn:E; [done|lia]. Qed.

Lemma metropolis_uphill (t : R) (dE : Z) (u : R) :
  0 < dE → metropolis t dE u = true ↔ (u < exp (- IZR dE / t))%R.
Proof.
  intros H. unfold metropolis. destruct (dE <=? 0) eqn:E; [lia|].
  destruct (Rlt_dec u (exp (- IZR dE / t))); split; done.
Qed.

(** A draw of 0 accepts every flip, whatever the temperature. *)
Lemma metropolis_zero (t : R) (dE : Z) : metropolis t dE 0%R = true.
Proof.
  unfold metropolis. destruct (dE <=? 0); [done|].
  destruct (Rlt_dec 0 (exp (- IZR dE / t))) as [|Hn]; [done|].
  destruct Hn. apply exp_pos.
Qed.

Lemma exp_minus_one_below_half : (exp (- (1)) < 1 / 2)%R.
Proof.
  rewrite exp_Ropp.
  assert (2 < exp 1)%R.
  { pose proof (exp_ineq1 1 ltac:(lra)). lra. }
  assert (0 < exp 1)%R by apply exp_pos.
  apply (Rmult_lt_reg_r (exp 1)); [done|].
  rewrite Rinv_l by lra. lra.
Qed.

(** At temperature 1 a draw of 1/2 rejects every flip that costs energy. *)
Lemma metropolis_half (dE : Z) :
  metropolis 1 dE (1 / 2)%R = (dE <=? 0).
Proof.
  unfold metropolis. destruct (dE <=? 0) eqn:E; [done|].
  destruct (Rlt_dec (1 / 2) (exp (- IZR dE / 1))) as [Hlt|]; [|done].
  exfalso. apply Z.leb_gt in E.
  assert (1 <= IZR dE)%R by (apply (IZR_le 1); lia).
  assert (exp (- IZR dE / 1) <= exp (- (1)))%R.
  { destruct (Req_dec (- IZR dE / 1) (- (1))) as [->|Hne]; [lra|].
    left. apply exp_increasing. lra. }
  pose proof exp_minus_one_below_half. lra.
Qed.

(** With draws that are 0 where [hot] and 1/2 elsewhere, at temperature 1,
    the rule is the decided rule. *)
Lemma calculate_spin_decided (hot : nat → bool) (n : nat) (g : Grid) (k j : Z) :
  calculate_spin (λ n, if hot n then 0%R else (1 / 2)%R) 1 n g k j
  = decided hot n g k j.
Proof.
  unfold calculate_spin, decided. destruct (hot n).
  - rewrite metropolis_zero, orb_true_r. done.
  - rewrite metropolis_half, orb_false_r. done.
Qed.

Lemma touches_own_row_calculate_spin (draw : nat → R) :
  touches_own_row (calculate_spin draw).
Proof.
  intros t n g k j y Hy. unfold calculate_spin.
  destruct (metropolis _ _ _); [|done]. by apply row_at_set_spin_other.
Qed.

Lemma touches_own_row_decided (hot : nat → bool) :
  touches_own_row (λ _ : R, decided hot).
Proof.
  intros t n g k j y Hy. unfold decided.
  destruct (_ || _); [|done]. by apply row_at_set_spin_other.
Qed.

Lemma keeps_rows_clear : keeps_rows clear.
Proof. intros g. unfold clear. apply length_fmap. Qed.

Lemma keeps_rows_calculate_spin (draw : nat → R) (t : R) (n : nat) (k j : Z) :
  keeps_rows (λ g, calculate_spin draw t n g k j).
Proof.
  intros g. unfold calculate_spin.
  destruct (metropolis _ _ _); [|done]. apply length_set_spin.
Qed.

(** C9: the update rule of section 4.2 on a square lattice at a positive
    temperature: the outcome is fixed by the lattice and the draw; only the
    addressed cell can change; a flip that does not cost energy is accepted
    whatever the draw; a flip that costs energy is accepted exactly when the
    draw is below [exp (-dE / temperature)], so a draw at or above that
    threshold leaves the lattice as it is. *)
Theorem spin_update_rule (draw : nat → R) (t : R) (n : nat) (size : Z)
        (g : Grid) (k j : Z) :
  (0 < t)%R → square size g → 0 ≤ k < size → 0 ≤ j < size →
  let dE := delta_energy g k j in
  let g' := calculate_spin draw t n g k j in
  (∀ draw', draw' n = draw n → calculate_spin draw' t n g k j = g')
  ∧ square size g'
  ∧ (∀ x y, 0 ≤ x < size → 0 ≤ y < size → ¬ (x = k ∧ y = j) →
       spin g' x y = spin g x y)
  ∧ (spin g' k j = - spin g k j ∨ g' = g)
  ∧ (dE ≤ 0 → spin g' k j = - spin g k j)
  ∧ (0 < dE →
     ((draw n < exp (- IZR dE / t))%R → spin g' k j = - spin g k j)
     ∧ ((exp (- IZR dE / t) <= draw n)%R → g' = g)).
Proof.
  intros Ht Hsq Hk Hj dE g'.
  assert (Hflip : metropolis t dE (draw n) = true →
                  g' = set_spin g k j (- spin g k j)).
  { intros H. subst g' dE. unfold calculate_spin. by rewrite H. }
  assert (Hkeep : metropolis t dE (draw n) = false → g' = g).
  { intros H. subst g' dE. unfold calculate_spin. by rewrite H. }
  assert (Hset : spin (set_spin g k j (- spin g k j)) k j = - spin g k j).
  { rewrite (spin_set_spin size) by done. rewrite decide_True; done. }
  split; [|split; [|split; [|split; [|split]]]].
  - intros draw' Hd. subst g'. unfold calculate_spin. by rewrite Hd.
  - destruct (metropolis t dE (draw n)) eqn:Hm.
    + rewrite Hflip by done. by apply square_set_spin.
    + rewrite Hkeep by done. done.
  - intros x y Hx Hy Hne. destruct (metropolis t dE (draw n)) eqn:Hm.
    + rewrite Hflip by done. rewrite (spin_set_spin size) by done.
      rewrite decide_False; done.
    + rewrite Hkeep by done. done.
  - destruct (metropolis t dE (draw n)) eqn:Hm.
    + left. rewrite Hflip by done. done.
    + right. by apply Hkeep.
  - intros HdE. rewrite Hflip; [done|]. by apply metropolis_downhill.
  - intros HdE. split.
    + intros Hu. rewrite Hflip; [done|]. by apply metropolis_uphill.
    + intros Hu. apply Hkeep.
      destruct (metropolis t dE (draw n)) eqn:Hm; [|done].
      apply metropolis_uphill in Hm; [|done]. lra.
Qed.

(** On the lattice of four spins up at temperature 1, every flip costs
    energy 8: a draw of 1/2 leaves the lattice as it is. *)
Lemma spin_update_rule_witness :
  calculate_spin (λ _, (1 / 2)%R) 1 0 [[1; 1]; [1; 1]] 0 0 = [[1; 1]; [1; 1]].
Proof.
  pose proof (spin_update_rule (λ _, (1 / 2)%R) 1 0 2 [[1; 1]; [1; 1]] 0 0)
    as H.
  cbv zeta in H.
  destruct H as (_ & _ & _ & _ & _ & Hup).
  - lra.
  - split; [reflexivity|]. repeat constructor.
  - lia.
  - lia.
  - apply Hup.
    + vm_compute. reflexivity.
    + change (delta_energy [[1; 1]; [1; 1]] 0 0) with 8.
      left. apply Rlt_trans with (exp (- (1))).
      * apply exp_increasing. lra.
      * apply exp_minus_one_below_half.
Defined.
End IsingFacts.

(** ** What the coordinator stores *)

Lemma stores_app (xs ys : list Action) : stores (xs ++ ys) = stores xs ++ stores ys.
Proof. unfold stores. apply omap_app. Qed.

Lemma stores_sends_rows d n : stores (sends_rows d n) = [].
Proof.
  unfold sends_rows. induction (range 0 n) as [|y ys IH]; simpl; [done|].
  apply IH.
Qed.

Lemma stores_sends_all ws n : stores (sends_all ws n) = [].
Proof.
  unfold sends_all. induction (range 1 ws) as [|i is_ IH]; csimpl; [done|].
  rewrite stores_app, stores_sends_rows, IH. done.
Qed.

Lemma stores_recvs_rows src n : stores (recvs_rows src n) = [].
Proof.
  unfold recvs_rows. induction (range 0 n) as [|y ys IH]; simpl; [done|].
  apply IH.
Qed.

Lemma stores_sweeps ws n (sws : list Z) :
  stores (i ← sws; StoreStats i :: recvs_rows MPI_ANY_SOURCE n ++ sends_all ws n)
  = sws.
Proof.
  induction sws as [|i sws IH]; [done|].
  rewrite bind_cons.
  change (StoreStats i :: recvs_rows MPI_ANY_SOURCE n ++ sends_all ws n)
    with ([StoreStats i] ++ recvs_rows MPI_ANY_SOURCE n ++ sends_all ws n).
  rewrite !stores_app, stores_recvs_rows, stores_sends_all, IH. done.
Qed.

Lemma elem_of_stores (acts : list Action) (i : Z) :
  i ∈ stores acts ↔ StoreStats i ∈ acts.
Proof.
  unfold stores. rewrite list_elem_of_omap. split.
  - intros (a & Ha & Hi). destruct a; try done. by injection Hi as ->.
  - intros H. exists (StoreStats i). done.
Qed.

Lemma range_split (lo hi i : Z) :
  lo ≤ i < hi → range lo hi = range lo i ++ i :: range (i + 1) hi.
Proof.
  intros Hi. unfold range.
  replace (hi - lo) with ((i - lo) + (hi - i)) by lia.
  rewrite seqZ_app by lia. f_equal.
  replace (lo + (i - lo)) with i by lia.
  rewrite (seqZ_cons i) by lia. f_equal. f_equal; lia.
Qed.

Lemma length_sends_all ws n :
  length (sends_all ws n) = (Z.to_nat (ws - 1) * Z.to_nat n)%nat.
Proof.
  unfold sends_all. erewrite length_bind_const.
  - by rewrite range_length.
  - intros d. unfold sends_rows. by rewrite length_fmap, range_length, Z.sub_0_r.
Qed.

(** Storing every row of [g0] into a lattice of as many rows gives [g0]. *)
Lemma store_rows_prefix (g0 g : Grid) (n : nat) :
  (n ≤ length g0)%nat → length g = length g0 →
  foldl (λ g y, store_row y (row_at g0 y) g) g (range 0 (Z.of_nat n))
  = take n g0 ++ drop n g.
Proof.
  intros Hn Hlen. induction n as [|n IH].
  - done.
  - rewrite Nat2Z.inj_succ. unfold Z.succ. rewrite range_snoc by lia.
    rewrite foldl_app. simpl. rewrite IH by lia.
    destruct (lookup_lt_is_Some_2 g0 n ltac:(lia)) as [x Hx].
    destruct (lookup_lt_is_Some_2 g n ltac:(lia)) as [x' Hx'].
    unfold store_row, row_at. rewrite decide_True by lia.
    rewrite Nat2Z.id, Hx. simpl.
    rewrite (take_S_r _ _ _ Hx), <- app_assoc. simpl.
    rewrite insert_app_r_alt by (rewrite length_take; lia).
    rewrite length_take. replace (n - n `min` length g0)%nat with 0%nat by lia.
    rewrite (drop_S _ _ _ Hx'). done.
Qed.

Lemma store_all_rows (g0 g : Grid) (S : Z) :
  length g0 = Z.to_nat S → length g = Z.to_nat S → 0 ≤ S →
  foldl (λ g y, store_row y (row_at g0 y) g) g (range 0 S) = g0.
Proof.
  intros H0 Hg HS.
  rewrite <- (Z2Nat.id S) by done.
  rewrite store_rows_prefix by lia.
  rewrite <- H0, firstn_all. rewrite drop_ge by lia. apply app_nil_r.
Qed.

Lemma app_split_at {A} (xs ys a b : list A) :
  xs ++ ys = a ++ b → (length a ≤ length xs)%nat →
  ∃ b', xs = a ++ b' ∧ b = b' ++ ys.
Proof.
  revert xs. induction a as [|x a IH]; intros xs Heq Hlen; simpl in *.
  - exists xs. done.
  - destruct xs as [|x' xs]; simpl in *; [lia|].
    injection Heq as -> Heq.
    destruct (IH xs Heq ltac:(lia)) as (b' & -> & ->). exists b'. done.
Qed.

Lemma app_split_elem {A} `{EqDecision A} (xs ys a b : list A) (c : A) :
  xs ++ ys = a ++ c :: b → c ∈ xs → c ∉ a →
  ∃ b', xs = a ++ c :: b' ∧ b = b' ++ ys.
Proof.
  intros Heq Hin Hnot.
  destruct (decide (length a < length xs)%nat) as [Hlt|Hge].
  - destruct (app_split_at xs ys a (c :: b) Heq ltac:(lia)) as (b' & -> & Hb).
    destruct b' as [|c' b']; simpl in *.
    + rewrite length_app in Hlt. simpl in Hlt. lia.
    + injection Hb as <- ->. eauto.
  - exfalso. symmetry in Heq.
    destruct (app_split_at a (c :: b) xs ys Heq ltac:(lia)) as (b' & -> & Hb).
    apply Hnot. apply elem_of_app. by left.
Qed.

Section Invariants.
Context {Temp E M : Type}.
Variable clear : Grid → Grid.
Variable calculate_energy : Grid → E.
Variable calculate_magnetism : Grid → M.
Variable calculate_spin : Temp → nat → Grid → Z → Z → Grid.
Variable world_size : Z.

Local Abbreviation perform' :=
  (perform clear calculate_energy calculate_magnetism calculate_spin world_size).
Local Abbreviation step' :=
  (step clear calculate_energy calculate_magnetism calculate_spin world_size).
Local Abbreviation run' :=
  (run clear calculate_energy calculate_magnetism calculate_spin world_size).
Implicit Types (w : World (Temp:=Temp) (E:=E) (M:=M))
               (p : Proc (Temp:=Temp) (E:=E) (M:=M))
               (l : Surface Temp E M) (r me : Z) (nt : Net).

(** A property of processes that every action keeps holds along every
    run. *)
Lemma run_invariant (I : Z → Proc (Temp:=Temp) (E:=E) (M:=M) → Prop)
      (sched : list Z) w :
  (∀ r p a rest l n nt nt',
     I r p → todo p = a :: rest →
     perform' r a (lattice p) (calls p) nt = Some (l, n, nt') →
     I r (mkProc rest l n (history p ++ [(a, lattice p)]))) →
  (∀ r p, procs w !! r = Some p → I r p) →
  ∀ r p, procs (run' sched w) !! r = Some p → I r p.
Proof.
  intros Hstep. revert w.
  induction sched as [|r' sched IH]; intros w Hw r p Hp; simpl in Hp.
  - eauto.
  - destruct (step' r' w) as [w'|] eqn:Hs; simpl in Hp; [|eauto].
    eapply IH; [|exact Hp].
    intros r0 p0 Hp0.
    destruct (step_inv _ _ _ _ _ _ _ _ Hs)
      as (q & a & rest & l & n & Hq & Ht & Ha & Hw').
    rewrite Hw' in Hp0. destruct (decide (r' = r0)) as [->|Hne].
    + rewrite lookup_insert_eq in Hp0. injection Hp0 as <-. eauto.
    + rewrite lookup_insert_ne in Hp0 by done. eauto.
Qed.

(** The statistics arrays hold what the [StoreStats] actions run so far
    have stored, and [complete] is set by [SetComplete] only. *)
Lemma stats_logged (l0 : Z → Surface Temp E M) (sched : list Z) w :
  (∀ r p, procs w !! r = Some p → lattice p = l0 r ∧ history p = []) →
  ∀ r p, procs (run' sched w) !! r = Some p →
    avgEnergy (lattice p)
    = foldl (log_energy calculate_energy) (avgEnergy (l0 r)) (history p)
    ∧ avgMag (lattice p)
      = foldl (log_magnetism calculate_magnetism) (avgMag (l0 r)) (history p)
    ∧ (complete (lattice p) = true →
       complete (l0 r) = true ∨ SetComplete ∈ ran p).
Proof.
  intros Hinit. apply run_invariant.
  - intros r p a rest l n nt nt' (He & Hm & Hc) Ht Ha.
    unfold ran. simpl. rewrite !foldl_app, fmap_app. simpl.
    rewrite <- He, <- Hm.
    unfold log_energy, log_magnetism. simpl.
    destruct a; simpl in Ha;
      try (injection Ha as <- _ _; simpl;
           split; [done|split; [done|]];
           intros Hcomp; destruct (Hc Hcomp) as [?|?];
           [by left|right; apply elem_of_app; by left]).
    + destruct (matching world_size r src tag nt) as [k|]; simpl in Ha; [|done].
      destruct (chan nt k); [done|]. injection Ha as <- _ _. simpl.
      split; [done|split; [done|]].
      intros Hcomp; destruct (Hc Hcomp) as [?|?];
        [by left|right; apply elem_of_app; by left].
    + injection Ha as <- _ _. simpl. split; [done|split; [done|]].
      intros _. right. apply elem_of_app. right. apply list_elem_of_here.
  - intros r p Hp. destruct (Hinit r p Hp) as [-> ->]. simpl.
    split; [done|split; [done|]]. by left.
Qed.

Lemma foldl_log_energy_other (m : gmap Z E)
      (h : list (Action * Surface Temp E M)) (i : Z) :
  i ∉ stores h.*1 →
  foldl (log_energy calculate_energy) m h !! i = m !! i.
Proof.
  revert m. induction h as [|[a l] h IH]; intros m Hi; simpl; [done|].
  simpl in Hi. rewrite IH.
  - unfold log_energy. simpl. destruct a; try done.
    rewrite lookup_insert_ne; [done|]. intros ->.
    apply Hi. simpl. apply list_elem_of_here.
  - intros Hin. apply Hi. unfold stores in *. simpl.
    destruct a; simpl; try done. by apply list_elem_of_further.
Qed.

Lemma foldl_log_magnetism_other (m : gmap Z M)
      (h : list (Action * Surface Temp E M)) (i : Z) :
  i ∉ stores h.*1 →
  foldl (log_magnetism calculate_magnetism) m h !! i = m !! i.
Proof.
  revert m. induction h as [|[a l] h IH]; intros m Hi; simpl; [done|].
  simpl in Hi. rewrite IH.
  - unfold log_magnetism. simpl. destruct a; try done.
    rewrite lookup_insert_ne; [done|]. intros ->.
    apply Hi. simpl. apply list_elem_of_here.
  - intros Hin. apply Hi. unfold stores in *. simpl.
    destruct a; simpl; try done. by apply list_elem_of_further.
Qed.

Lemma foldl_log_energy_dom (m : gmap Z E)
      (h : list (Action * Surface Temp E M)) (i : Z) :
  is_Some (foldl (log_energy calculate_energy) m h !! i)
  ↔ is_Some (m !! i) ∨ i ∈ stores h.*1.
Proof.
  revert m. induction h as [|[a l] h IH]; intros m; simpl.
  - rewrite elem_of_nil. tauto.
  - rewrite IH. unfold log_energy, stores. simpl.
    destruct a; simpl; try tauto.
    rewrite elem_of_cons, lookup_insert_is_Some. split.
    + intros [[->|[_ ?]]|?]; auto.
    + intros [?|[->|?]]; auto.
      destruct (decide (i0 = i)); auto.
Qed.

Lemma foldl_log_magnetism_dom (m : gmap Z M)
      (h : list (Action * Surface Temp E M)) (i : Z) :
  is_Some (foldl (log_magnetism calculate_magnetism) m h !! i)
  ↔ is_Some (m !! i) ∨ i ∈ stores h.*1.
Proof.
  revert m. induction h as [|[a l] h IH]; intros m; simpl.
  - rewrite elem_of_nil. tauto.
  - rewrite IH. unfold log_magnetism, stores. simpl.
    destruct a; simpl; try tauto.
    rewrite elem_of_cons, lookup_insert_is_Some. split.
    + intros [[->|[_ ?]]|?]; auto.
    + intros [?|[->|?]]; auto.
      destruct (decide (i0 = i)); auto.
Qed.

(** The coordinator of a run has run a prefix of its program. *)
(** Every action of a history ran on the lattice recorded with it and left
    the lattice recorded next. *)
Lemma history_follows (sched : list Z) w :
  (∀ r p, procs w !! r = Some p → history p = []) →
  ∀ r p, procs (run' sched w) !! r = Some p →
    ∀ k a l l', history p !! k = Some (a, l) → seen p (Datatypes.S k) = Some l' →
      follows clear calculate_energy calculate_magnetism calculate_spin a l l'.
Proof.
  intros Hinit.
  apply (run_invariant (λ r p, ∀ k a l l',
           history p !! k = Some (a, l) → seen p (Datatypes.S k) = Some l' →
           follows clear calculate_energy calculate_magnetism calculate_spin
                   a l l')).
  - intros r p a rest l n nt nt' IH Ht Ha k a' l1 l2. simpl.
    unfold seen. simpl. rewrite length_app. simpl.
    destruct (decide (k < length (history p))%nat) as [Hk|Hk].
    + rewrite lookup_app_l by done. intros H1.
      destruct (decide (Datatypes.S k < length (history p))%nat) as [Hk'|Hk'].
      * rewrite lookup_app_l by done. intros H2.
        apply (IH k); [done|]. unfold seen.
        destruct (history p !! Datatypes.S k) as [[? ?]|] eqn:Hsk; [done|].
        apply lookup_ge_None in Hsk. lia.
      * assert (Datatypes.S k = length (history p)) as Hk2 by lia.
        rewrite Hk2, lookup_app_r by lia.
        replace (length (history p) - length (history p))%nat with 0%nat by lia.
        simpl. intros [= <-]. apply (IH k); [done|].
        rewrite Hk2. apply seen_now.
    + rewrite lookup_app_r by lia.
      destruct (decide (k = length (history p))) as [->|Hne].
      * replace (length (history p) - length (history p))%nat with 0%nat by lia.
        simpl. intros [= <- <-].
        rewrite lookup_ge_None_2 by (rewrite length_app; simpl; lia).
        rewrite decide_True by lia. intros [= <-].
        destruct a; simpl in Ha |- *; try (by injection Ha as <- _ _).
        -- destruct (matching world_size r src tag nt) as [c|]; simpl in Ha; [|done].
           destruct (chan nt c) as [|buf ?]; [done|]. injection Ha as <- _ _.
           by exists buf.
        -- injection Ha as <- _ _. by exists (calls p).
      * rewrite lookup_ge_None_2 by (simpl; lia). done.
  - intros r p Hp k a l l'. rewrite (Hinit r p Hp). done.
Qed.

Lemma worker_program (rps : Z) (lat : Z → Surface Temp E M)
      (sched : list Z) r p :
  r ≠ 0 →
  procs (run' sched (boot world_size rps lat)) !! r = Some p →
  ran p ++ todo p
  = recvs_rows (FromRank 0) (size (lat r))
      ++ (_ ← range 0 (loops (lat r));
          updates (size (lat r)) (start r rps) (finish r rps)
            ++ recvs_rows (FromRank 0) (size (lat r))).
Proof.
  intros Hr Hp. destruct (run_program _ _ _ _ _ _ _ _ _ Hp) as (q & Hq & Heq).
  rewrite boot_lookup in Hq. destruct (decide _); [|done].
  injection Hq as <-. simpl in Heq. rewrite <- Heq.
  by apply program_worker.
Qed.

Lemma coordinator_program (rps : Z) (lat : Z → Surface Temp E M)
      (sched : list Z) p :
  procs (run' sched (boot world_size rps lat)) !! 0 = Some p →
  ran p ++ todo p
  = sends_all world_size (size (lat 0))
      ++ [Clear; Save]
      ++ (i ← range 0 (loops (lat 0));
          StoreStats i :: recvs_rows MPI_ANY_SOURCE (size (lat 0))
            ++ sends_all world_size (size (lat 0)))
      ++ [SetComplete; Save; Report].
Proof.
  intros Hp. destruct (run_program _ _ _ _ _ _ _ _ _ Hp) as (q & Hq & Heq).
  rewrite boot_lookup in Hq. destruct (decide _); [|done].
  injection Hq as <-. rewrite <- Heq. unfold ran. simpl.
  apply program_coordinator.
Qed.
(** A coordinator whose [K]-th action is a receive with a tag that no
    message has, or will have, does not get past that action. *)
Lemma waits_for_ever (prog : list Action) (K : nat) (row t0 : Z)
      (sched : list Z) w p0 :
  prog !! K = Some (MPI_Recv row MPI_ANY_SOURCE t0) →
  (∀ s, ¬ may_arrive w s 0 t0) →
  (∀ p, procs w !! 0 = Some p →
        ran p ++ todo p = prog ∧ (length (history p) ≤ K)%nat) →
  procs (run' sched w) !! 0 = Some p0 →
  (length (history p0) ≤ K)%nat.
Proof.
  intros HK Hnone Hinit Hp0.
  assert (Hinv : (∀ s, ¬ may_arrive (run' sched w) s 0 t0)
                 ∧ ∀ p, procs (run' sched w) !! 0 = Some p →
                        ran p ++ todo p = prog ∧ (length (history p) ≤ K)%nat);
    [|by apply Hinv].
  apply (run_keeps clear calculate_energy calculate_magnetism calculate_spin
           world_size
           (λ w, (∀ s, ¬ may_arrive w s 0 t0)
                 ∧ ∀ p, procs w !! 0 = Some p →
                        ran p ++ todo p = prog ∧ (length (history p) ≤ K)%nat));
    [|by split].
  clear Hnone Hinit Hp0. intros r w1 w2 [Hna Hp] Hs. split.
  { intros s Hm. eapply Hna, may_arrive_step; eauto. }
  intros p' Hp'.
  destruct (step_program _ _ _ _ _ _ _ _ _ _ Hs Hp') as (q & Hq & Heq).
  destruct (Hp q Hq) as [Hprog Hlen]. split; [congruence|].
  destruct (step_inv _ _ _ _ _ _ _ _ Hs)
    as (pr & a & rest & l & n & Hpr & Ht & Ha & Hw).
  rewrite Hw in Hp'. destruct (decide (r = 0)) as [->|Hne].
  - rewrite lookup_insert_eq in Hp'. injection Hp' as <-. simpl.
    rewrite length_app. simpl.
    assert (q = pr) as -> by congruence.
    destruct (decide (length (history pr) = K)) as [HeqK|]; [exfalso|lia].
    assert (Hak : prog !! K = Some a).
    { rewrite <- Hprog, Ht. rewrite lookup_app_r
        by (unfold ran; rewrite length_fmap; lia).
      unfold ran. rewrite length_fmap, HeqK, Nat.sub_diag. done. }
    rewrite HK in Hak. injection Hak as <-.
    destruct (perform_recv_ready _ _ _ _ _ _ _ _ _ _ _ _ _ Ha) as [k Hk].
    destruct (matching_key _ _ _ _ _ _ Hk) as (s & -> & Hne & _).
    apply (Hna s). by left.
  - rewrite lookup_insert_ne in Hp' by done.
    assert (q = p') as -> by congruence. done.
Qed.

(** A row that is in no worker's range is never sent, so the coordinator
    does not get past its receive in the first gather. *)
Lemma gather_needs_cover (rps : Z) (lat : Z → Surface Temp E M)
      (sched : list Z) p0 (t0 : Z) :
  0 < loops (lat 0) → 0 ≤ t0 < size (lat 0) →
  (∀ s, 1 ≤ s < world_size → ¬ (start s rps ≤ t0 < finish s rps)) →
  procs (run' sched (boot world_size rps lat)) !! 0 = Some p0 →
  (length (history p0)
   ≤ stats_at world_size (size (lat 0%Z)) 0 + 1 + Z.to_nat t0)%nat.
Proof.
  intros HL Ht0 Hnone Hp0.
  eapply (waits_for_ever
            (mpi_program world_size 0 rps (lat 0)).1 _ t0 t0 sched
            (boot world_size rps lat) p0); [| | |exact Hp0].
  - rewrite program_coordinator.
    rewrite (range_cons 0 (loops (lat 0))) by lia. rewrite bind_cons.
    set (S := size (lat 0)).
    rewrite lookup_app_r by (rewrite length_sends_all; unfold stats_at; lia).
    rewrite length_sends_all.
    replace (stats_at world_size S 0 + 1 + Z.to_nat t0
             - Z.to_nat (world_size - 1) * Z.to_nat S)%nat
      with (3 + Z.to_nat t0)%nat by (unfold stats_at; lia).
    rewrite lookup_app_r by (simpl; lia).
    rewrite <- !app_assoc, <- app_comm_cons.
    rewrite lookup_cons_ne_0 by (simpl; lia).
    rewrite <- !app_assoc.
    rewrite lookup_app_l by (rewrite length_recvs_rows; simpl; lia).
    replace (Nat.pred (3 + Z.to_nat t0 - length [Clear; Save]))
      with (Z.to_nat t0) by (simpl; lia).
    unfold recvs_rows, range. rewrite list_lookup_fmap.
    rewrite (lookup_seqZ_lt _ _ _) by lia. simpl.
    rewrite Z2Nat.id by lia. done.
  - intros s [Hc|(p & row & Hp & Hin)].
    + rewrite boot_net in Hc. done.
    + rewrite boot_lookup in Hp. destruct (decide _) as [Hs|]; [|done].
      injection Hp as <-. simpl in Hin.
      apply sends_of_program in Hin as [[_ ?]|(Hs0 & _ & Hin)]; [lia|].
      apply (Hnone s); [lia|done].
  - intros p Hp. rewrite boot_lookup in Hp. destruct (decide _); [|done].
    injection Hp as <-. simpl. split; [done|lia].
Qed.
End Invariants.

(** * Properties of the runs *)

Section Properties.
Context {Temp E M : Type}.
Variable clear : Grid → Grid.
Variable calculate_energy : Grid → E.
Variable calculate_magnetism : Grid → M.
Variable calculate_spin : Temp → nat → Grid → Z → Z → Grid.

Local Abbreviation run' :=
  (run clear calculate_energy calculate_magnetism calculate_spin).
Implicit Types (w : World (Temp:=Temp) (E:=E) (M:=M))
               (p : Proc (Temp:=Temp) (E:=E) (M:=M))
               (lat : Z → Surface Temp E M) (r : Z).

Lemma seen_bound p (k : nat) l : seen p k = Some l → (k ≤ length (history p))%nat.
Proof.
  unfold seen. destruct (history p !! k) as [[? ?]|] eqn:Hk.
  - intros _. apply lookup_lt_Some in Hk. lia.
  - destruct (decide _); [lia|done].
Qed.

Lemma seen_history p (k : nat) a l : history p !! k = Some (a, l) → seen p k = Some l.
Proof. unfold seen. by intros ->. Qed.

(** C8: in every run of the protocol, once the coordinator has set
    [complete], the [StoreStats] actions it has run wrote the indices
    0, 1, ..., [loops - 1], in this order, and so both statistics arrays
    (empty when the lattice is constructed) hold an entry at exactly these
    [loops] indices. *)
Theorem complete_run_entries (world_size rows_per_slave : Z) lat
        (sched : list Z) p0 :
  procs (run' world_size sched (boot world_size rows_per_slave lat)) !! 0
  = Some p0 →
  complete (lat 0) = false → avgEnergy (lat 0) = ∅ → avgMag (lat 0) = ∅ →
  complete (lattice p0) = true →
  stores (ran p0) = range 0 (loops (lat 0))
  ∧ (∀ i, is_Some (avgEnergy (lattice p0) !! i) ↔ 0 ≤ i < loops (lat 0))
  ∧ (∀ i, is_Some (avgMag (lattice p0) !! i) ↔ 0 ≤ i < loops (lat 0))
  ∧ base.size (avgEnergy (lattice p0)) = Z.to_nat (loops (lat 0))
  ∧ base.size (avgMag (lattice p0)) = Z.to_nat (loops (lat 0)).
Proof.
  intros Hp0 Hc0 He0 Hm0 Hc.
  destruct (stats_logged clear calculate_energy calculate_magnetism
              calculate_spin world_size lat sched
              (boot world_size rows_per_slave lat)) with (r := 0) (p := p0)
    as (He & Hm & Hcomp); [|done|].
  { intros r p Hp. rewrite boot_lookup in Hp. destruct (decide _); [|done].
    by injection Hp as <-. }
  destruct (Hcomp Hc) as [?|Hset]; [congruence|].
  pose proof (coordinator_program _ _ _ _ _ _ _ _ _ Hp0) as Hprog.
  rewrite !app_assoc in Hprog.
  change [SetComplete; Save; Report] with (SetComplete :: [Save; Report]) in Hprog.
  destruct (app_split_elem _ _ _ _ _ Hprog Hset) as (b' & Hran & Hb).
  { unfold sends_all, sends_rows, recvs_rows. set_unfold. naive_solver. }
  assert (Hb' : stores b' = []).
  { assert (Hs : stores [Save; Report] = stores b' ++ stores (todo p0))
      by (rewrite Hb; apply stores_app).
    simpl in Hs. symmetry in Hs. by apply app_eq_nil in Hs as [? _]. }
  assert (Hstores : stores (ran p0) = range 0 (loops (lat 0))).
  { rewrite Hran.
    change (SetComplete :: b') with ([SetComplete] ++ b').
    rewrite !stores_app, stores_sends_all, stores_sweeps, Hb'. simpl.
    by rewrite app_nil_r. }
  assert (HE : ∀ i, is_Some (avgEnergy (lattice p0) !! i) ↔ 0 ≤ i < loops (lat 0)).
  { intros i. rewrite He, foldl_log_energy_dom, He0, lookup_empty.
    fold (ran p0). rewrite Hstores, elem_of_range.
    split; [intros [[? ?]|?]; done|by right]. }
  assert (HM : ∀ i, is_Some (avgMag (lattice p0) !! i) ↔ 0 ≤ i < loops (lat 0)).
  { intros i. rewrite Hm, foldl_log_magnetism_dom, Hm0, lookup_empty.
    fold (ran p0). rewrite Hstores, elem_of_range.
    split; [intros [[? ?]|?]; done|by right]. }
  split; [done|]. split; [done|]. split; [done|]. split.
  - rewrite <- size_dom.
    assert (dom (avgEnergy (lattice p0)) = list_to_set (range 0 (loops (lat 0))))
      as ->.
    { apply set_eq. intros i. rewrite elem_of_dom, HE, elem_of_list_to_set.
      by rewrite elem_of_range. }
    rewrite size_list_to_set by apply NoDup_seqZ.
    rewrite range_length. f_equal. lia.
  - rewrite <- size_dom.
    assert (dom (avgMag (lattice p0)) = list_to_set (range 0 (loops (lat 0))))
      as ->.
    { apply set_eq. intros i. rewrite elem_of_dom, HM, elem_of_list_to_set.
      by rewrite elem_of_range. }
    rewrite size_list_to_set by apply NoDup_seqZ.
    rewrite range_length. f_equal. lia.
Qed.

(** C1, as the code has it: the coordinator stores the statistics of sweep
    [i] as the first action of the sweep.  Whatever the schedule, when it has
    run that action, the actions it ran before are the first synchronisation,
    [clear], [save] and the complete sweeps 0 to [i - 1] (so none of the
    receives of sweep [i], which are the actions that follow); the action is
    the store at index [i]; and the entries at index [i] are the energy and
    the magnetism of the lattice [l] it held at that point. *)
Theorem stats_precede_gather (world_size rows_per_slave : Z) lat
        (sched : list Z) p0 (i : nat) a l :
  let S := size (lat 0) in
  procs (run' world_size sched (boot world_size rows_per_slave lat)) !! 0
  = Some p0 →
  (i < Z.to_nat (loops (lat 0%Z)))%nat →
  history p0 !! stats_at world_size S i = Some (a, l) →
  a = StoreStats (Z.of_nat i)
  ∧ take (stats_at world_size S i) (ran p0)
    = sends_all world_size S ++ [Clear; Save]
        ++ (j ← range 0 (Z.of_nat i);
            StoreStats j :: recvs_rows MPI_ANY_SOURCE S ++ sends_all world_size S)
  ∧ take (Z.to_nat S) (drop (stats_at world_size S i + 1) (ran p0 ++ todo p0))
    = recvs_rows MPI_ANY_SOURCE S
  ∧ avgEnergy (lattice p0) !! Z.of_nat i = Some (calculate_energy (surface l))
  ∧ avgMag (lattice p0) !! Z.of_nat i = Some (calculate_magnetism (surface l)).
Proof.
  intros S Hp0 Hi Hk.
  destruct (stats_logged clear calculate_energy calculate_magnetism
              calculate_spin world_size lat sched
              (boot world_size rows_per_slave lat)) with (r := 0) (p := p0)
    as (He & Hm & _); [|done|].
  { intros r p Hp. rewrite boot_lookup in Hp. destruct (decide _); [|done].
    by injection Hp as <-. }
  pose proof (coordinator_program _ _ _ _ _ _ _ _ _ Hp0) as Hprog.
  fold S in Hprog.
  set (F := λ j, StoreStats j :: recvs_rows MPI_ANY_SOURCE S
                   ++ sends_all world_size S) in *.
  rewrite (range_split 0 (loops (lat 0)) (Z.of_nat i)) in Hprog by lia.
  rewrite bind_app, bind_cons in Hprog.
  set (A := sends_all world_size S ++ [Clear; Save] ++ (range 0 (Z.of_nat i) ≫= F)).
  set (R := sends_all world_size S
              ++ (range (Z.of_nat i + 1) (loops (lat 0)) ≫= F)
              ++ [SetComplete; Save; Report]).
  assert (Hprog' : ran p0 ++ todo p0
                   = A ++ StoreStats (Z.of_nat i)
                       :: recvs_rows MPI_ANY_SOURCE S ++ R).
  { rewrite Hprog. subst A R F. simpl. rewrite <- !app_assoc. simpl.
    rewrite <- !app_assoc. done. }
  assert (HlenA : length A = stats_at world_size S i).
  { subst A. rewrite !length_app, length_sends_all. simpl.
    erewrite length_bind_const; cycle 1.
    { intros j. subst F. simpl.
      rewrite length_app, length_recvs_rows, length_sends_all. reflexivity. }
    rewrite range_length. unfold stats_at. lia. }
  assert (Hlt : (length A < length (ran p0))%nat).
  { unfold ran. rewrite length_fmap, HlenA. eapply lookup_lt_Some; eauto. }
  destruct (app_split_at _ _ _ _ Hprog' ltac:(lia)) as (b' & Hran & Hb).
  destruct b' as [|c b'].
  { rewrite Hran, app_nil_r in Hlt. lia. }
  simpl in Hb. injection Hb as <- Hb.
  assert (Ha : a = StoreStats (Z.of_nat i)).
  { assert (Hl : ran p0 !! stats_at world_size S i = Some a).
    { unfold ran. rewrite list_lookup_fmap, Hk. done. }
    rewrite Hran, <- HlenA in Hl.
    rewrite lookup_app_r in Hl by lia.
    replace (length A - length A)%nat with 0%nat in Hl by lia.
    simpl in Hl. congruence. }
  assert (Hstores : Z.of_nat i ∉ stores b').
  { intros Hin.
    assert (Hs : stores (recvs_rows MPI_ANY_SOURCE S ++ R)
                 = stores b' ++ stores (todo p0))
      by (rewrite Hb; apply stores_app).
    subst R. rewrite !stores_app, stores_recvs_rows, stores_sends_all in Hs.
    subst F. rewrite stores_sweeps in Hs. simpl in Hs.
    rewrite app_nil_r in Hs.
    assert (Hin' : Z.of_nat i ∈ range (Z.of_nat i + 1) (loops (lat 0))).
    { rewrite Hs. apply elem_of_app. by left. }
    apply elem_of_range in Hin'. lia. }
  pose proof (take_drop_middle _ _ _ Hk) as Hsplit.
  set (h1 := take (stats_at world_size S i) (history p0)) in *.
  set (h2 := drop (Datatypes.S (stats_at world_size S i)) (history p0)) in *.
  assert (Hh2 : h2.*1 = b').
  { assert (Hr : ran p0 = h1.*1 ++ a :: h2.*1).
    { unfold ran. rewrite <- Hsplit at 1. rewrite fmap_app. done. }
    rewrite Hran in Hr.
    assert (Hl1 : length h1.*1 = length A).
    { rewrite length_fmap. subst h1. rewrite length_take, HlenA.
      apply lookup_lt_Some in Hk. lia. }
    apply app_inj_1 in Hr as [_ Hr]; [|done].
    by injection Hr as _ <-. }
  split; [done|]. split; [|split; [|split]].
  - rewrite Hran, <- HlenA. apply take_app_length.
  - rewrite Hprog', <- HlenA.
    change (StoreStats (Z.of_nat i) :: recvs_rows MPI_ANY_SOURCE S ++ R)
      with ([StoreStats (Z.of_nat i)] ++ recvs_rows MPI_ANY_SOURCE S ++ R).
    rewrite app_assoc.
    replace (length A + 1)%nat with (length (A ++ [StoreStats (Z.of_nat i)]))
      by (rewrite length_app; simpl; lia).
    rewrite drop_app_length.
    rewrite <- (length_recvs_rows MPI_ANY_SOURCE S). apply take_app_length.
  - rewrite He, <- Hsplit, foldl_app. simpl.
    rewrite foldl_log_energy_other by (rewrite Hh2; done).
    unfold log_energy at 1. simpl. rewrite Ha. apply lookup_insert_eq.
  - rewrite Hm, <- Hsplit, foldl_app. simpl.
    rewrite foldl_log_magnetism_other by (rewrite Hh2; done).
    unfold log_magnetism at 1. simpl. rewrite Ha. apply lookup_insert_eq.
Qed.

(** C2, as the code has it: [main] synchronises the workers before
    [initialise] clears the lattice.  Whatever the schedule, when the
    coordinator is about to start sweep 0 it holds the cleared lattice, and
    when a worker is about to start sweep 0 it holds the lattice as the
    coordinator constructed it, before [clear]. *)
Theorem workers_start_before_clear (world_size rows_per_slave : Z) lat
        (S L : Z) (sched : list Z) r l0 lr :
  0 ≤ S → 0 ≤ L → 0 ≤ rows_per_slave →
  rows_per_slave * (world_size - 1) = S →
  (∀ r, size (lat r) = S ∧ loops (lat r) = L
        ∧ length (surface (lat r)) = Z.to_nat S) →
  keeps_rows clear →
  1 ≤ r < world_size →
  seen_at (run' world_size sched (boot world_size rows_per_slave lat)) 0
          (stats_at world_size S 0) = Some l0 →
  seen_at (run' world_size sched (boot world_size rows_per_slave lat)) r
          (sweep_at rows_per_slave S 0) = Some lr →
  surface l0 = clear (surface (lat 0)) ∧ surface lr = surface (lat 0).
Proof.
  intros HS HL Hrps Hdiv Hlat Hclear Hr H0 Hw.
  assert (Hlat' : ∀ r, size (lat r) = S ∧ loops (lat r) = L)
    by (intros r'; destruct (Hlat r') as (? & ? & ?); done).
  destruct (Hlat 0) as (_ & _ & Hlen0). destruct (Hlat r) as (_ & _ & Hlenr).
  destruct (every_run_completes clear calculate_energy calculate_magnetism
              calculate_spin world_size rows_per_slave lat S L sched)
    as [more Hmore]; try done; [lia|].
  destruct (phased_run clear calculate_energy calculate_magnetism
              calculate_spin world_size rows_per_slave lat S L)
    as (_ & _ & _ & Hc & Hws); try done; [lia|].
  rewrite <- Hmore, run_app in Hc, Hws.
  apply (seen_run clear calculate_energy calculate_magnetism calculate_spin
                  world_size more) in H0.
  apply (seen_run clear calculate_energy calculate_magnetism calculate_spin
                  world_size more) in Hw.
  unfold stats_at in H0. unfold sweep_at in Hw.
  rewrite Nat.mul_0_l, Nat.add_0_r in H0, Hw.
  rewrite Hc in H0. injection H0 as <-.
  destruct (Hws r Hr) as (lr' & Hlr & Hsurf).
  rewrite Hlr in Hw. injection Hw as <-.
  split; [done|]. rewrite Hsurf. by apply store_all_rows.
Qed.

(** C5: a worker sends each row of its range to the coordinator in a message
    tagged with the row, and the coordinator receives row [y] from any source
    with tag [y].  Whatever the schedule, when the coordinator has completed
    the gather of sweep [i], every row [y] of the lattice has one owner, and
    the row [y] the coordinator holds is the row [y] its owner held after its
    updates of sweep [i] (the owner gets there in a continuation of the run,
    if it is not there yet). *)
Theorem gather_places_rows_by_tag (world_size rows_per_slave : Z) lat
        (S L : Z) :
  1 ≤ world_size → 0 ≤ S → 0 ≤ L → 0 ≤ rows_per_slave →
  rows_per_slave * (world_size - 1) ≤ S →
  (∀ r, size (lat r) = S ∧ loops (lat r) = L) →
  length (surface (lat 0)) = Z.to_nat S →
  keeps_rows clear →
  touches_own_row calculate_spin →
  (∀ r row d t,
     r ≠ 0 → MPI_Send row d t ∈ (simulate world_size r rows_per_slave (lat r)).1 →
     d = 0 ∧ t = row
     ∧ start r rows_per_slave ≤ row < finish r rows_per_slave)
  ∧ (∀ row src t,
       MPI_Recv row src t ∈ (simulate world_size 0 rows_per_slave (lat 0)).1 →
       src = MPI_ANY_SOURCE ∧ t = row ∧ 0 ≤ row < S)
  ∧ ∀ (sched : list Z) (i : nat) y lc,
      (i < Z.to_nat L)%nat → 0 ≤ y < S →
      seen_at (run' world_size sched (boot world_size rows_per_slave lat)) 0
              (gathered_at world_size S i) = Some lc →
      1 ≤ owner rows_per_slave y < world_size
      ∧ start (owner rows_per_slave y) rows_per_slave ≤ y
        < finish (owner rows_per_slave y) rows_per_slave
      ∧ ∃ more lw,
          seen_at (run' world_size (sched ++ more)
                        (boot world_size rows_per_slave lat))
                  (owner rows_per_slave y) (updated_at rows_per_slave S i)
          = Some lw
          ∧ row_at (surface lc) y = row_at (surface lw) y.
Proof.
  intros Hws HS HL Hrps Hle Hlat Hlen0 Hclear Htouch.
  split; [|split].
  - intros r row d t Hr Hin. unfold simulate in Hin. simpl in Hin.
    apply list_elem_of_bind in Hin as (i & Hin & _).
    rewrite sweep_worker in Hin by done.
    unfold updates, recvs_rows in Hin. set_unfold in Hin. naive_solver lia.
  - intros row src t Hin. unfold simulate in Hin. simpl in Hin.
    apply list_elem_of_bind in Hin as (i & Hin & _).
    rewrite sweep_coordinator in Hin.
    destruct (Hlat 0) as [HS0 _]. rewrite HS0 in Hin.
    unfold sends_all, sends_rows, recvs_rows in Hin. set_unfold in Hin.
    naive_solver lia.
  - intros sched i y lc Hi Hy Hlc.
    destruct (Hlat 0) as [HS0 HL0].
    destruct (decide (rows_per_slave * (world_size - 1) = S)) as [Hdiv|Hndiv].
    + destruct (every_run_completes clear calculate_energy calculate_magnetism
                  calculate_spin world_size rows_per_slave lat S L sched)
        as [more Hmore]; try done.
      destruct (phased_run clear calculate_energy calculate_magnetism
                  calculate_spin world_size rows_per_slave lat S L)
        as (_ & _ & Hrows & _); try done.
      destruct (Hrows i y Hi Hy) as (lc' & lw & Hc & _ & _ & Hown).
      destruct (Hown Htouch) as (lw' & Hlw' & Hrow).
      destruct (owner_range rows_per_slave (world_size - 1) y) as [Ho Hin];
        [lia|lia|].
      split; [lia|]. split; [done|].
      exists more, lw'. rewrite Hmore. split; [exact Hlw'|].
      apply (seen_run clear calculate_energy calculate_magnetism calculate_spin
                      world_size more) in Hlc.
      rewrite <- run_app, Hmore in Hlc.
      assert (Heq : Some lc = Some lc') by (rewrite <- Hlc; exact Hc).
      injection Heq as ->. done.
    + exfalso.
      unfold seen_at in Hlc.
      destruct (procs _ !! 0) as [p0|] eqn:Hp0; [|done]. simpl in Hlc.
      apply seen_bound in Hlc.
      pose proof (gather_needs_cover clear calculate_energy calculate_magnetism
                    calculate_spin world_size rows_per_slave lat sched p0
                    (rows_per_slave * (world_size - 1))) as Hwait.
      rewrite HS0, HL0 in Hwait.
      assert (Hbound : (length (history p0)
                        ≤ stats_at world_size S 0 + 1
                          + Z.to_nat (rows_per_slave * (world_size - 1)))%nat).
      { apply Hwait; [lia|nia| |done].
        intros s Hs. unfold finish, start.
        assert (s * rows_per_slave ≤ (world_size - 1) * rows_per_slave)
          by (apply Z.mul_le_mono_nonneg_r; lia).
        lia. }
      unfold gathered_at, stats_at in Hlc, Hbound. nia.
Qed.

(** [simulate] has one return statement, with [EXIT_SUCCESS], and
    [initialise] and [main] pass the status on; when the workers' ranges cover
    the lattice, every run can be continued to one in which every process has
    run its program to the end. *)
Lemma covered_simulate_returns_success (world_size rows_per_slave : Z) lat
        (S L : Z) (sched : list Z) r :
  1 ≤ world_size → 0 ≤ S → 0 ≤ L → 0 ≤ rows_per_slave →
  rows_per_slave * (world_size - 1) = S →
  (∀ r, size (lat r) = S ∧ loops (lat r) = L) →
  length (surface (lat 0)) = Z.to_nat S →
  keeps_rows clear →
  (simulate world_size r rows_per_slave (lat r)).2 = EXIT_SUCCESS
  ∧ (initialise world_size r rows_per_slave (lat r)).2 = EXIT_SUCCESS
  ∧ (mpi_program world_size r rows_per_slave (lat r)).2 = EXIT_SUCCESS
  ∧ ∃ more,
      finished (run' world_size (sched ++ more)
                     (boot world_size rows_per_slave lat)).
Proof.
  intros Hws HS HL Hrps Hdiv Hlat Hlen0 Hclear.
  split; [done|]. split; [done|]. split; [done|].
  destruct (every_run_completes clear calculate_energy calculate_magnetism
              calculate_spin world_size rows_per_slave lat S L sched)
    as [more Hmore]; try done.
  exists more. rewrite Hmore.
  by destruct (phased_run clear calculate_energy calculate_magnetism
                 calculate_spin world_size rows_per_slave lat S L)
    as (Hfin & _).
Qed.

(** The actions of a worker between the start of sweep [i] and the end of
    its updates of that sweep are updates of cells of its rows and sends of
    these rows. *)
Lemma worker_sweep_action (world_size rows_per_slave : Z) lat
      (sched : list Z) r p (i k : nat) a :
  r ≠ 0 → 0 ≤ rows_per_slave →
  procs (run' world_size sched (boot world_size rows_per_slave lat)) !! r
  = Some p →
  (i < Z.to_nat (loops (lat r)))%nat →
  (sweep_at rows_per_slave (size (lat r)) i ≤ k
   < updated_at rows_per_slave (size (lat r)) i)%nat →
  (ran p ++ todo p) !! k = Some a →
  (∃ x j, a = CalculateSpin x j
          ∧ start r rows_per_slave ≤ j < finish r rows_per_slave
          ∧ 0 ≤ x < size (lat r))
  ∨ (∃ j, a = MPI_Send j 0 j
          ∧ start r rows_per_slave ≤ j < finish r rows_per_slave).
Proof.
  intros Hr Hrps Hp Hi Hk Ha.
  rewrite (worker_program clear calculate_energy calculate_magnetism
             calculate_spin world_size rows_per_slave lat sched r p Hr Hp) in Ha.
  set (S := size (lat r)) in *.
  set (U := updates S (start r rows_per_slave) (finish r rows_per_slave)) in *.
  set (F := λ _ : Z, U ++ recvs_rows (FromRank 0) S) in *.
  rewrite (range_split 0 (loops (lat r)) (Z.of_nat i)) in Ha by lia.
  rewrite bind_app, bind_cons in Ha.
  assert (HlenU : length U = (Z.to_nat rows_per_slave * (Z.to_nat S + 1))%nat).
  { subst U. rewrite length_updates. unfold finish.
    replace (start r rows_per_slave + rows_per_slave - start r rows_per_slave)
      with rows_per_slave by lia. done. }
  assert (HlenA : length (recvs_rows (FromRank 0) S ++ (range 0 (Z.of_nat i) ≫= F))
                  = sweep_at rows_per_slave S i).
  { rewrite length_app, length_recvs_rows.
    erewrite length_bind_const; cycle 1.
    { intros j. subst F. simpl. rewrite length_app, length_recvs_rows, HlenU.
      reflexivity. }
    rewrite range_length. unfold sweep_at. lia. }
  unfold updated_at in Hk.
  rewrite app_assoc in Ha. subst F. simpl in Ha. rewrite <- !app_assoc in Ha.
  rewrite app_assoc in Ha.
  rewrite lookup_app_r in Ha by lia.
  rewrite lookup_app_l in Ha by lia.
  apply list_elem_of_lookup_2 in Ha.
  subst U. unfold updates in Ha. set_unfold in Ha.
  destruct Ha as (j & [(x & Hax & Hx)|[Haj|[]]] & Hj).
  - left. exists x, j. split; [done|]. split; lia.
  - right. exists j. split; [done|lia].
Qed.

(** While a worker updates its rows in sweep [i], the rows outside its range
    stay as it held them when the sweep started. *)
Lemma worker_rows_kept (world_size rows_per_slave : Z) lat
      (sched : list Z) r p (i : nat) ls :
  touches_own_row calculate_spin →
  r ≠ 0 → 0 ≤ rows_per_slave →
  procs (run' world_size sched (boot world_size rows_per_slave lat)) !! r
  = Some p →
  (i < Z.to_nat (loops (lat r)))%nat →
  seen p (sweep_at rows_per_slave (size (lat r)) i) = Some ls →
  ∀ (d : nat) l,
    (sweep_at rows_per_slave (size (lat r)) i + d
     ≤ updated_at rows_per_slave (size (lat r)) i)%nat →
    seen p (sweep_at rows_per_slave (size (lat r)) i + d) = Some l →
    ∀ y, ¬ (start r rows_per_slave ≤ y < finish r rows_per_slave) →
         row_at (surface l) y = row_at (surface ls) y.
Proof.
  intros Htouch Hr Hrps Hp Hi Hls.
  induction d as [|d IH]; intros l Hd Hl y Hy.
  - rewrite Nat.add_0_r in Hl. congruence.
  - rewrite Nat.add_succ_r in Hl.
    pose proof (seen_bound _ _ _ Hl) as Hb.
    destruct (lookup_lt_is_Some_2 (history p)
                (sweep_at rows_per_slave (size (lat r)) i + d) ltac:(lia))
      as [[a lp] Hk].
    assert (Hfol : follows clear calculate_energy calculate_magnetism
                           calculate_spin a lp l).
    { eapply (history_follows clear calculate_energy calculate_magnetism
                calculate_spin world_size sched); eauto.
      intros r' p'. rewrite boot_lookup. destruct (decide _); [|done].
      by intros [= <-]. }
    assert (Ha : (ran p ++ todo p)
                   !! (sweep_at rows_per_slave (size (lat r)) i + d)%nat
                 = Some a).
    { apply lookup_app_l_Some. unfold ran. rewrite list_lookup_fmap, Hk. done. }
    rewrite <- (IH lp) by (try lia; eauto using seen_history).
    assert (Hin : (sweep_at rows_per_slave (size (lat r)) i
                   ≤ sweep_at rows_per_slave (size (lat r)) i + d
                   < updated_at rows_per_slave (size (lat r)) i)%nat) by lia.
    destruct (worker_sweep_action _ _ _ _ _ _ i _ _ Hr Hrps Hp Hi Hin Ha)
      as [(x & j & -> & Hj & _)|(j & -> & _)]; simpl in Hfol.
    + destruct Hfol as [n ->]. simpl. apply Htouch. lia.
    + by subst.
Qed.

(** C6, as the code has it: a worker updates its lattice in place.  Whatever
    the schedule, an update that a worker runs in sweep [i] is an update of a
    cell of one of its rows, it is computed from the lattice the worker holds
    at that point, which is the result of its earlier updates of the sweep,
    and in that lattice the rows outside the worker's range are as they were
    when the worker started the sweep. *)
Theorem updates_read_own_copy (world_size rows_per_slave : Z) lat
        (sched : list Z) r p (i k : nat) x j l l' ls :
  touches_own_row calculate_spin →
  r ≠ 0 → 0 ≤ rows_per_slave →
  procs (run' world_size sched (boot world_size rows_per_slave lat)) !! r
  = Some p →
  (i < Z.to_nat (loops (lat r)))%nat →
  (sweep_at rows_per_slave (size (lat r)) i ≤ k
   < updated_at rows_per_slave (size (lat r)) i)%nat →
  seen p (sweep_at rows_per_slave (size (lat r)) i) = Some ls →
  history p !! k = Some (CalculateSpin x j, l) →
  seen p (Datatypes.S k) = Some l' →
  start r rows_per_slave ≤ j < finish r rows_per_slave
  ∧ (∃ n, surface l' = calculate_spin (temperature l) n (surface l) x j)
  ∧ (∀ y, ¬ (start r rows_per_slave ≤ y < finish r rows_per_slave) →
          row_at (surface l) y = row_at (surface ls) y
          ∧ row_at (surface l') y = row_at (surface ls) y).
Proof.
  intros Htouch Hr Hrps Hp Hi Hk Hls Hh Hl'.
  assert (Ha : (ran p ++ todo p) !! k = Some (CalculateSpin x j)).
  { apply lookup_app_l_Some. unfold ran. rewrite list_lookup_fmap, Hh. done. }
  destruct (worker_sweep_action _ _ _ _ _ _ i _ _ Hr Hrps Hp Hi Hk Ha)
    as [(x' & j' & [= -> ->] & Hj & _)|(j' & [=] & _)].
  split; [done|]. split.
  - assert (Hfol : follows clear calculate_energy calculate_magnetism
                           calculate_spin (CalculateSpin x' j') l l').
    { eapply (history_follows clear calculate_energy calculate_magnetism
                calculate_spin world_size sched); eauto.
      intros r' p'. rewrite boot_lookup. destruct (decide _); [|done].
      by intros [= <-]. }
    destruct Hfol as [n ->]. by exists n.
  - intros y Hy.
    pose proof (worker_rows_kept _ _ _ _ _ _ i ls Htouch Hr Hrps Hp Hi Hls)
      as Hkept.
    split.
    + apply (Hkept (k - sweep_at rows_per_slave (size (lat r)) i)%nat);
        [lia| |done].
      replace (sweep_at rows_per_slave (size (lat r)) i
               + (k - sweep_at rows_per_slave (size (lat r)) i))%nat
        with k by lia.
      eauto using seen_history.
    + apply (Hkept (Datatypes.S k - sweep_at rows_per_slave (size (lat r)) i)%nat);
        [lia| |done].
      replace (sweep_at rows_per_slave (size (lat r)) i
               + (Datatypes.S k - sweep_at rows_per_slave (size (lat r)) i))%nat
        with (Datatypes.S k) by lia.
      done.
Qed.
End Properties.

(** * Further properties of the runs *)

Section Further.
Context {Temp E M : Type}.
Variable clear : Grid → Grid.
Variable calculate_energy : Grid → E.
Variable calculate_magnetism : Grid → M.
Variable calculate_spin : Temp → nat → Grid → Z → Z → Grid.

Local Abbreviation run' :=
  (run clear calculate_energy calculate_magnetism calculate_spin).
Local Abbreviation halted' :=
  (halted clear calculate_energy calculate_magnetism calculate_spin).
Implicit Types (w : World (Temp:=Temp) (E:=E) (M:=M))
               (p : Proc (Temp:=Temp) (E:=E) (M:=M))
               (lat : Z → Surface Temp E M) (r : Z).

Lemma boot_initial (world_size rows_per_slave : Z) lat r p :
  procs (boot world_size rows_per_slave lat) !! r = Some p →
  lattice p = lat r ∧ history p = [] ∧ calls p = 0%nat
  ∧ todo p = (mpi_program world_size r rows_per_slave (lat r)).1.
Proof.
  rewrite boot_lookup. destruct (decide _); [|done]. by intros [= <-].
Qed.

(** X4: in every run, the parameters of the lattice of every process
    ([name], [loops], [size], [temperature], [out], [outName]) stay as they
    were constructed; the statistics arrays and the [complete] flag of a
    worker stay as constructed too: only the coordinator writes them. *)
Theorem workers_keep_statistics (world_size rows_per_slave : Z) lat
        (sched : list Z) r p :
  procs (run' world_size sched (boot world_size rows_per_slave lat)) !! r
  = Some p →
  (name (lattice p) = name (lat r) ∧ loops (lattice p) = loops (lat r)
   ∧ size (lattice p) = size (lat r)
   ∧ temperature (lattice p) = temperature (lat r)
   ∧ out (lattice p) = out (lat r) ∧ outName (lattice p) = outName (lat r))
  ∧ (r ≠ 0 →
     avgEnergy (lattice p) = avgEnergy (lat r)
     ∧ avgMag (lattice p) = avgMag (lat r)
     ∧ complete (lattice p) = complete (lat r)).
Proof.
  intros Hp. split.
  - revert r p Hp.
    apply (run_invariant clear calculate_energy calculate_magnetism
             calculate_spin world_size
             (λ r p, name (lattice p) = name (lat r)
                     ∧ loops (lattice p) = loops (lat r)
                     ∧ size (lattice p) = size (lat r)
                     ∧ temperature (lattice p) = temperature (lat r)
                     ∧ out (lattice p) = out (lat r)
                     ∧ outName (lattice p) = outName (lat r))).
    + intros r p a rest l n nt nt' IH _ Ha. simpl.
      destruct a; simpl in Ha; try (by injection Ha as <- _ _).
      destruct (matching world_size r src tag nt) as [k|]; simpl in Ha; [|done].
      destruct (chan nt k); [done|]. by injection Ha as <- _ _.
    + intros r p Hp. apply boot_initial in Hp as (-> & _). done.
  - intros Hr.
    assert (Hprog := worker_program clear calculate_energy calculate_magnetism
                       calculate_spin world_size rows_per_slave lat sched r p
                       Hr Hp).
    assert (Hno : ∀ a, a ∈ ran p → ∀ i, a ≠ StoreStats i ∧ a ≠ SetComplete).
    { intros a Ha i.
      assert (Hin : a ∈ ran p ++ todo p) by (apply elem_of_app; by left).
      rewrite Hprog in Hin. unfold updates, recvs_rows in Hin.
      set_unfold in Hin. naive_solver. }
    destruct (stats_logged clear calculate_energy calculate_magnetism
                calculate_spin world_size lat sched
                (boot world_size rows_per_slave lat)) with (r := r) (p := p)
      as (He & Hm & _); [|done|].
    { intros r' p' Hp'. apply boot_initial in Hp' as (-> & -> & _). done. }
    assert (Hst : ∀ i, i ∉ stores (history p).*1).
    { intros i Hi. apply elem_of_stores in Hi.
      destruct (Hno _ Hi i) as [Hne _]. done. }
    split; [|split].
    + rewrite He. apply map_eq. intros i. by apply foldl_log_energy_other.
    + rewrite Hm. apply map_eq. intros i. by apply foldl_log_magnetism_other.
    + assert (Hinv : SetComplete ∉ ran p → complete (lattice p) = complete (lat r)).
      { revert r p Hp Hr Hprog Hno He Hm Hst. intros r0 p0 Hp0 _ _ _ _ _ _.
        revert r0 p0 Hp0.
        apply (run_invariant clear calculate_energy calculate_magnetism
                 calculate_spin world_size
                 (λ r p, SetComplete ∉ ran p
                         → complete (lattice p) = complete (lat r))).
        - intros r0 p0 a rest l n nt nt' IH _ Ha. unfold ran. simpl.
          rewrite fmap_app. simpl. intros Hnot.
          rewrite <- IH by (intros Hin; apply Hnot, elem_of_app; by left).
          destruct a; simpl in Ha; try (by injection Ha as <- _ _).
          + destruct (matching world_size r0 src tag nt) as [k|];
              simpl in Ha; [|done].
            destruct (chan nt k); [done|]. by injection Ha as <- _ _.
          + exfalso. apply Hnot, elem_of_app. right. apply list_elem_of_here.
        - intros r0 p0 Hp0. apply boot_initial in Hp0 as (-> & _). done. }
      apply Hinv. intros Hin. destruct (Hno _ Hin 0) as [_ Hne]. done.
Qed.

(** X5: who does what.  Every message carries the row named by its tag.  A
    worker sends only to rank 0, and only rows of its own range; it receives
    only from rank 0; it is the only kind of process that updates spins, and
    only cells of its own rows.  The coordinator sends only to the workers,
    receives from any source, and is the only process that stores statistics
    (at the indices below [loops]), clears, saves, sets [complete] and
    reports. *)
Theorem star_topology (world_size rows_per_slave : Z) (l : Surface Temp E M)
        r (a : Action) :
  a ∈ (mpi_program world_size r rows_per_slave l).1 →
  match a with
  | MPI_Send row dest tag =>
      tag = row
      ∧ (if decide (r = 0)
         then 1 ≤ dest < world_size ∧ 0 ≤ row < size l
         else dest = 0
              ∧ start r rows_per_slave ≤ row < finish r rows_per_slave)
  | MPI_Recv row src tag =>
      tag = row ∧ 0 ≤ row < size l
      ∧ src = (if decide (r = 0) then MPI_ANY_SOURCE else FromRank 0)
  | CalculateSpin k j =>
      r ≠ 0 ∧ 0 ≤ k < size l
      ∧ start r rows_per_slave ≤ j < finish r rows_per_slave
  | StoreStats i => r = 0 ∧ 0 ≤ i < loops l
  | Clear | Save | SetComplete | Report => r = 0
  end.
Proof.
  destruct (decide (r = 0)) as [->|Hr].
  - rewrite program_coordinator. unfold sends_all, sends_rows, recvs_rows.
    intros Ha. set_unfold in Ha. destruct a; naive_solver lia.
  - rewrite program_worker by done. unfold updates, recvs_rows.
    intros Ha. set_unfold in Ha. destruct a; naive_solver lia.
Qed.

Lemma rows_kept (world_size rows_per_slave : Z) lat
      (sched : list Z) r p (k : nat) l :
  keeps_rows clear →
  (∀ t n x j, keeps_rows (λ g, calculate_spin t n g x j)) →
  procs (run' world_size sched (boot world_size rows_per_slave lat)) !! r
  = Some p →
  seen p k = Some l →
  length (surface l) = length (surface (lat r)).
Proof.
  intros Hclear Hspin Hp Hl.
  assert (Hinv : length (surface (lattice p)) = length (surface (lat r))
                 ∧ Forall (λ e, length (surface e.2) = length (surface (lat r)))
                          (history p)).
  { revert r p Hp Hl. intros r p Hp _. revert r p Hp.
    apply (run_invariant clear calculate_energy calculate_magnetism
             calculate_spin world_size
             (λ r p, length (surface (lattice p)) = length (surface (lat r))
                     ∧ Forall (λ e, length (surface e.2)
                                    = length (surface (lat r))) (history p))).
    - intros r p a rest l' n nt nt' [IHl IHh] _ Ha. simpl. split.
      + rewrite <- IHl.
        destruct a; simpl in Ha; try (by injection Ha as <- _ _).
        * destruct (matching world_size r src tag nt) as [c|];
            simpl in Ha; [|done].
          destruct (chan nt c); [done|]. injection Ha as <- _ _. simpl.
          unfold store_row. apply length_insert.
        * injection Ha as <- _ _. simpl. apply Hspin.
        * injection Ha as <- _ _. simpl. apply Hclear.
      + apply Forall_app. split; [done|]. by apply Forall_singleton.
    - intros r p Hp. apply boot_initial in Hp as (-> & -> & _). done. }
  destruct Hinv as [Hnow Hhist]. unfold seen in Hl.
  destruct (history p !! k) as [[a l']|] eqn:Hk.
  - injection Hl as <-. rewrite Forall_lookup in Hhist.
    apply (Hhist _ _ Hk).
  - destruct (decide _); [|done]. by injection Hl as <-.
Qed.


(** ** What the statistics measure *)

Lemma seen_first (world_size rows_per_slave : Z) lat (sched : list Z) r p :
  procs (run' world_size sched (boot world_size rows_per_slave lat)) !! r
  = Some p →
  seen p 0 = Some (lat r).
Proof.
  intros Hp.
  assert (H0 : seen_at (boot world_size rows_per_slave lat) r 0 = Some (lat r)).
  { unfold seen_at.
    destruct (procs (boot world_size rows_per_slave lat) !! r) as [q|] eqn:Hq.
    - apply boot_initial in Hq as (Hl & Hh & _). simpl. unfold seen.
      rewrite Hh. simpl. by rewrite Hl.
    - apply (run_dom clear calculate_energy calculate_magnetism calculate_spin
               world_size sched) in Hq. congruence. }
  apply (seen_run clear calculate_energy calculate_magnetism calculate_spin
           world_size sched) in H0.
  unfold seen_at in H0. rewrite Hp in H0. done.
Qed.

Lemma quiet_keeps (world_size rows_per_slave : Z) lat (sched : list Z) r p
      (a : nat) :
  procs (run' world_size sched (boot world_size rows_per_slave lat)) !! r
  = Some p →
  ∀ (d : nat) l,
    (∀ k act, (a ≤ k < a + d)%nat → ran p !! k = Some act → quiet act) →
    seen p (a + d) = Some l → seen p a = Some l.
Proof.
  intros Hp. induction d as [|d IH]; intros l Hq Hl.
  - by rewrite Nat.add_0_r in Hl.
  - rewrite Nat.add_succ_r in Hl.
    pose proof (seen_bound _ _ _ Hl) as Hb.
    destruct (lookup_lt_is_Some_2 (history p) (a + d) ltac:(lia))
      as [[act lp] Hk].
    assert (Hfol : follows clear calculate_energy calculate_magnetism
                           calculate_spin act lp l).
    { eapply (history_follows clear calculate_energy calculate_magnetism
                calculate_spin world_size sched); eauto.
      intros r' p' Hp'. by apply boot_initial in Hp' as (_ & -> & _). }
    assert (Hact : quiet act).
    { apply (Hq (a + d)%nat); [lia|].
      unfold ran. rewrite list_lookup_fmap, Hk. done. }
    assert (l = lp) as -> by (destruct act; simpl in Hact, Hfol; done).
    apply IH.
    + intros k act' Hk'. apply Hq. lia.
    + eauto using seen_history.
Qed.

(** The coordinator's program around sweep [i]. *)
Lemma coordinator_layout (world_size : Z) (l : Surface Temp E M) (i : nat) :
  (i < Z.to_nat (loops l))%nat →
  let S := size l in
  let F := λ j, StoreStats j :: recvs_rows MPI_ANY_SOURCE S
                  ++ sends_all world_size S in
  let before := sends_all world_size S ++ [Clear; Save]
                  ++ (range 0 (Z.of_nat i) ≫= F) in
  ∀ rps,
    (mpi_program world_size 0 rps l).1
    = before
        ++ StoreStats (Z.of_nat i)
        :: recvs_rows MPI_ANY_SOURCE S ++ sends_all world_size S
        ++ (range (Z.of_nat i + 1) (loops l) ≫= F)
        ++ [SetComplete; Save; Report]
    ∧ length before = stats_at world_size S i
    ∧ stores before = range 0 (Z.of_nat i).
Proof.
  intros Hi S F before rps. split; [|split].
  - rewrite program_coordinator. fold S. fold F.
    rewrite (range_split 0 (loops l) (Z.of_nat i)) by lia.
    rewrite bind_app, bind_cons. subst before F. simpl.
    rewrite <- !app_assoc. simpl. rewrite <- !app_assoc. done.
  - subst before. rewrite !length_app, length_sends_all. simpl.
    erewrite length_bind_const; cycle 1.
    { intros j. subst F. simpl.
      rewrite length_app, length_recvs_rows, length_sends_all. reflexivity. }
    rewrite range_length. unfold stats_at. lia.
  - subst before F. rewrite !stores_app, stores_sends_all, stores_sweeps. done.
Qed.

(** When the coordinator has stored the statistics of sweep [i], it did so
    at its action number [stats_at], and the entries at index [i] are the
    energy and the magnetism of the lattice it held then. *)
Lemma stats_entry (world_size rows_per_slave : Z) lat (sched : list Z) p0
      (i : nat) :
  procs (run' world_size sched (boot world_size rows_per_slave lat)) !! 0
  = Some p0 →
  StoreStats (Z.of_nat i) ∈ ran p0 →
  (i < Z.to_nat (loops (lat 0%Z)))%nat
  ∧ ∃ l, history p0 !! stats_at world_size (size (lat 0)) i
         = Some (StoreStats (Z.of_nat i), l)
       ∧ avgEnergy (lattice p0) !! Z.of_nat i
         = Some (calculate_energy (surface l))
       ∧ avgMag (lattice p0) !! Z.of_nat i
         = Some (calculate_magnetism (surface l)).
Proof.
  intros Hp0 Hran.
  pose proof (coordinator_program _ _ _ _ _ _ _ _ _ Hp0) as Hprog.
  assert (Hi : (i < Z.to_nat (loops (lat 0%Z)))%nat).
  { assert (Hin : StoreStats (Z.of_nat i) ∈ ran p0 ++ todo p0)
      by (apply elem_of_app; by left).
    rewrite Hprog in Hin. apply elem_of_stores in Hin.
    rewrite !stores_app, stores_sends_all, stores_sweeps in Hin.
    simpl in Hin. rewrite app_nil_r in Hin.
    apply elem_of_range in Hin. lia. }
  split; [done|].
  destruct (coordinator_layout world_size (lat 0) i Hi rows_per_slave)
    as (Hlay & Hlen & Hst).
  rewrite <- program_coordinator with (rows_per_slave := rows_per_slave)
    in Hprog.
  rewrite Hlay in Hprog.
  set (S := size (lat 0)) in *.
  set (F := λ j, StoreStats j :: recvs_rows MPI_ANY_SOURCE S
                   ++ sends_all world_size S) in *.
  set (A := sends_all world_size S ++ [Clear; Save]
              ++ (range 0 (Z.of_nat i) ≫= F)) in *.
  destruct (app_split_elem _ _ _ _ _ Hprog Hran) as (b' & Hr & Hb).
  { intros Hin. apply elem_of_stores in Hin. rewrite Hst in Hin.
    apply elem_of_range in Hin. lia. }
  assert (Hk : ran p0 !! stats_at world_size S i = Some (StoreStats (Z.of_nat i))).
  { rewrite Hr, <- Hlen. rewrite lookup_app_r by lia.
    rewrite Nat.sub_diag. done. }
  unfold ran in Hk. rewrite list_lookup_fmap in Hk.
  destruct (history p0 !! stats_at world_size S i) as [[a l]|] eqn:Hh; [|done].
  simpl in Hk. injection Hk as ->.
  exists l. split; [done|].
  destruct (stats_logged clear calculate_energy calculate_magnetism
              calculate_spin world_size lat sched
              (boot world_size rows_per_slave lat)) with (r := 0) (p := p0)
    as (He & Hm & _); [|done|].
  { intros r p Hp. by apply boot_initial in Hp as (-> & -> & _). }
  pose proof (take_drop_middle _ _ _ Hh) as Hsplit.
  assert (Hlater : Z.of_nat i
                   ∉ stores (drop (Datatypes.S (stats_at world_size S i))
                               (history p0)).*1).
  { rewrite fmap_drop. fold (ran p0). rewrite Hr, <- Hlen.
    rewrite cons_middle, app_assoc.
    rewrite drop_app_length' by (rewrite length_app; simpl; lia).
    intros Hin.
    assert (Hin' : Z.of_nat i ∈ stores (b' ++ todo p0))
      by (rewrite stores_app; apply elem_of_app; by left).
    rewrite <- Hb in Hin'.
    rewrite !stores_app, stores_recvs_rows, stores_sends_all in Hin'.
    subst F. rewrite stores_sweeps in Hin'. simpl in Hin'.
    rewrite app_nil_r in Hin'. apply elem_of_range in Hin'. lia. }
  split.
  - rewrite He, <- Hsplit, foldl_app. simpl.
    rewrite foldl_log_energy_other by done.
    unfold log_energy at 1. simpl. apply lookup_insert_eq.
  - rewrite Hm, <- Hsplit, foldl_app. simpl.
    rewrite foldl_log_magnetism_other by done.
    unfold log_magnetism at 1. simpl. apply lookup_insert_eq.
Qed.

Lemma ran_of_program (world_size rows_per_slave : Z) lat (sched : list Z) r p
      (k : nat) a :
  procs (run' world_size sched (boot world_size rows_per_slave lat)) !! r
  = Some p →
  ran p !! k = Some a →
  (mpi_program world_size r rows_per_slave (lat r)).1 !! k = Some a.
Proof.
  intros Hp Hk.
  destruct (run_program _ _ _ _ _ _ _ _ _ Hp) as (q & Hq & Heq).
  apply boot_initial in Hq as (_ & Hh & _ & Ht).
  assert (Hq' : ran q = []) by (unfold ran; rewrite Hh; done).
  rewrite Hq', Ht, app_nil_l in Heq.
  rewrite Heq. by apply lookup_app_l_Some.
Qed.

Lemma sends_all_quiet (world_size n : Z) a : a ∈ sends_all world_size n → quiet a.
Proof.
  unfold sends_all, sends_rows. intros H. set_unfold in H.
  destruct H as (d & (y & -> & _) & _). done.
Qed.

(** X7: the first entry of the statistics measures the cleared lattice: in
    every run, once the coordinator has stored the statistics of sweep 0, the
    entries at index 0 are the energy and the magnetism of [clear] of the
    lattice the coordinator constructed, whatever the workers do in sweep
    0. *)
Theorem first_statistics_of_cleared_lattice (world_size rows_per_slave : Z)
        lat (sched : list Z) p0 :
  procs (run' world_size sched (boot world_size rows_per_slave lat)) !! 0
  = Some p0 →
  StoreStats 0 ∈ ran p0 →
  avgEnergy (lattice p0) !! 0
  = Some (calculate_energy (clear (surface (lat 0))))
  ∧ avgMag (lattice p0) !! 0
    = Some (calculate_magnetism (clear (surface (lat 0)))).
Proof.
  intros Hp0 Hran.
  destruct (stats_entry world_size rows_per_slave lat sched p0 0%nat Hp0 Hran)
    as (Hi & l & Hh & He & Hm).
  destruct (coordinator_layout world_size (lat 0) 0%nat Hi rows_per_slave)
    as (Hlay & Hlen & _).
  cbn [Z.of_nat range] in Hlay, Hlen.
  set (S := size (lat 0)) in *.
  set (n := (Z.to_nat (world_size - 1) * Z.to_nat S)%nat).
  assert (Hn : stats_at world_size S 0 = (n + 2)%nat)
    by (unfold stats_at; subst n; lia).
  rewrite Hn in Hh.
  assert (Hprog : ∀ k a, ran p0 !! k = Some a →
            (sends_all world_size S ++ [Clear; Save]) !! k = Some a
            ∨ (n + 2 ≤ k)%nat).
  { intros k a Hk. destruct (decide (n + 2 ≤ k)%nat); [by right|left].
    apply (ran_of_program _ _ _ _ _ _ _ _ Hp0) in Hk.
    rewrite Hlay in Hk. unfold range in Hk. simpl in Hk.
    rewrite app_assoc in Hk.
    rewrite lookup_app_l in Hk; [done|].
    rewrite length_app, length_sends_all. simpl. fold n. lia. }
  assert (Hb : (n + 2 < length (history p0))%nat)
    by (eapply lookup_lt_Some; eauto).
  destruct (lookup_lt_is_Some_2 (history p0) (n + 1) ltac:(lia)) as [[a1 l1] H1].
  destruct (lookup_lt_is_Some_2 (history p0) n ltac:(lia)) as [[a2 l2] H2].
  assert (Hfol : ∀ k a la lb, history p0 !! k = Some (a, la) →
            seen p0 (Datatypes.S k) = Some lb →
            follows clear calculate_energy calculate_magnetism calculate_spin
                    a la lb).
  { intros k a la lb. eapply (history_follows clear calculate_energy
      calculate_magnetism calculate_spin world_size sched); eauto.
    intros r' p' Hp'. by apply boot_initial in Hp' as (_ & -> & _). }
  assert (Ha1 : a1 = Save).
  { destruct (Hprog (n + 1)%nat a1) as [Hk|]; [|  |lia].
    - unfold ran. rewrite list_lookup_fmap, H1. done.
    - rewrite lookup_app_r in Hk by (rewrite length_sends_all; fold n; lia).
      rewrite length_sends_all in Hk. fold n in Hk.
      replace (n + 1 - n)%nat with 1%nat in Hk by lia. simpl in Hk. congruence. }
  assert (Ha2 : a2 = Clear).
  { destruct (Hprog n a2) as [Hk|]; [|  |lia].
    - unfold ran. rewrite list_lookup_fmap, H2. done.
    - rewrite lookup_app_r in Hk by (rewrite length_sends_all; fold n; lia).
      rewrite length_sends_all in Hk. fold n in Hk.
      rewrite Nat.sub_diag in Hk. simpl in Hk. congruence. }
  subst a1 a2.
  assert (Hl1 : l = l1).
  { apply (Hfol (n + 1)%nat Save l1 l H1).
    replace (Datatypes.S (n + 1)) with (n + 2)%nat by lia.
    eauto using seen_history. }
  assert (Hl2 : l1 = set_surface (clear (surface l2)) l2).
  { apply (Hfol n Clear l2 l1 H2).
    replace (Datatypes.S n) with (n + 1)%nat by lia.
    eauto using seen_history. }
  assert (Hl0 : seen p0 0 = Some l2).
  { apply (quiet_keeps world_size rows_per_slave lat sched 0 p0 0 Hp0 n).
    - intros k act Hk Hact. destruct (Hprog k act Hact) as [Hin|]; [|lia].
      rewrite lookup_app_l in Hin by (rewrite length_sends_all; fold n; lia).
      apply list_elem_of_lookup_2 in Hin. by eapply sends_all_quiet.
    - simpl. eauto using seen_history. }
  rewrite (seen_first _ _ _ _ _ _ Hp0) in Hl0. injection Hl0 as <-.
  change (Z.of_nat 0) with 0 in He, Hm.
  rewrite He, Hm, Hl1, Hl2. done.
Qed.

(** X8: the statistics lag one sweep behind.  In every run, once the
    coordinator has stored the statistics of sweep [i + 1], it has completed
    the gather of sweep [i], and the entries at index [i + 1] are the energy
    and the magnetism of the lattice it held when that gather was complete. *)
Theorem statistics_of_previous_gather (world_size rows_per_slave : Z) lat
        (sched : list Z) p0 (i : nat) :
  procs (run' world_size sched (boot world_size rows_per_slave lat)) !! 0
  = Some p0 →
  StoreStats (Z.of_nat (i + 1)) ∈ ran p0 →
  ∃ lc, seen p0 (gathered_at world_size (size (lat 0)) i) = Some lc
        ∧ avgEnergy (lattice p0) !! Z.of_nat (i + 1)
          = Some (calculate_energy (surface lc))
        ∧ avgMag (lattice p0) !! Z.of_nat (i + 1)
          = Some (calculate_magnetism (surface lc)).
Proof.
  intros Hp0 Hran.
  destruct (stats_entry world_size rows_per_slave lat sched p0 (i + 1)%nat
              Hp0 Hran) as (Hi & l & Hh & He & Hm).
  assert (Hi' : (i < Z.to_nat (loops (lat 0%Z)))%nat) by lia.
  destruct (coordinator_layout world_size (lat 0) i Hi' rows_per_slave)
    as (Hlay & Hlen & _).
  set (S := size (lat 0)) in *.
  set (n := (Z.to_nat (world_size - 1) * Z.to_nat S)%nat).
  assert (Hn : stats_at world_size S (i + 1)
               = (gathered_at world_size S i + n)%nat)
    by (unfold gathered_at, stats_at; subst n; lia).
  exists l. split; [|done].
  apply (quiet_keeps world_size rows_per_slave lat sched 0 p0
           (gathered_at world_size S i) Hp0 n).
  - intros k act Hk Hact.
    apply (ran_of_program _ _ _ _ _ _ _ _ Hp0) in Hact.
    rewrite Hlay in Hact.
    rewrite lookup_app_r in Hact by (unfold gathered_at in Hk; lia).
    rewrite Hlen in Hact.
    rewrite lookup_cons_ne_0 in Hact by (unfold gathered_at in Hk; lia).
    rewrite lookup_app_r in Hact
      by (rewrite length_recvs_rows; unfold gathered_at in Hk; lia).
    rewrite length_recvs_rows in Hact.
    rewrite lookup_app_l in Hact
      by (rewrite length_sends_all; unfold gathered_at in Hk; fold n; lia).
    apply list_elem_of_lookup_2 in Hact. by eapply sends_all_quiet.
  - rewrite <- Hn. eauto using seen_history.
Qed.

(** ** Schedules *)

Lemma halted_runs_agree (world_size rows_per_slave : Z) lat
      (s1 s2 : list Z) :
  halted' world_size (run' world_size s1 (boot world_size rows_per_slave lat)) →
  halted' world_size (run' world_size s2 (boot world_size rows_per_slave lat)) →
  run' world_size s1 (boot world_size rows_per_slave lat)
  = run' world_size s2 (boot world_size rows_per_slave lat).
Proof.
  intros H1 H2.
  destruct (run_confluent clear calculate_energy calculate_magnetism
              calculate_spin world_size
              (moves clear calculate_energy calculate_magnetism calculate_spin
                     world_size s1 (boot world_size rows_per_slave lat))
              s2 (boot world_size rows_per_slave lat)
              (run' world_size s1 (boot world_size rows_per_slave lat)))
    as [more Hmore].
  - apply unambiguous_boot.
  - apply exec_moves.
  - exact H1.
  - rewrite <- Hmore, run_app. by apply run_halted.
Qed.

(** X9: the outcome of a run does not depend on the schedule: two schedules
    that both run the processes until none can move (finished, or waiting for
    ever) leave the same world: the same lattices, statistics, histories and
    messages in flight.  The receives from any source do not make the run
    depend on arrival order. *)
Theorem schedule_independence (world_size rows_per_slave : Z) lat
        (s1 s2 : list Z) :
  halted' world_size (run' world_size s1 (boot world_size rows_per_slave lat)) →
  halted' world_size (run' world_size s2 (boot world_size rows_per_slave lat)) →
  run' world_size s1 (boot world_size rows_per_slave lat)
  = run' world_size s2 (boot world_size rows_per_slave lat).
Proof. apply halted_runs_agree. Qed.

(** X10: a run completes exactly when the workers' ranges cover the lattice.
    With [rows_per_slave = size / (world_size - 1)] as [main] computes it and
    at least one sweep: when [world_size - 1] divides [size], every run can be
    continued until every process has run its program to the end; when it
    does not, in no run does the coordinator get past the first gather: it
    has actions left, and it has not set [complete]. *)
Theorem completion_needs_cover (world_size : Z) lat (S L : Z) :
  2 ≤ world_size → 0 < S → 0 < L →
  (∀ r, size (lat r) = S ∧ loops (lat r) = L) →
  length (surface (lat 0)) = Z.to_nat S →
  keeps_rows clear →
  let rows_per_slave := Z.quot S (world_size - 1) in
  (Z.rem S (world_size - 1) = 0 →
   ∀ sched : list Z, ∃ more,
     finished (run' world_size (sched ++ more)
                    (boot world_size rows_per_slave lat)))
  ∧ (Z.rem S (world_size - 1) ≠ 0 →
     ∀ (sched : list Z) p0,
       procs (run' world_size sched (boot world_size rows_per_slave lat)) !! 0
       = Some p0 →
       todo p0 ≠ [] ∧ (SetComplete ∉ ran p0)
       ∧ (length (history p0) < gathered_at world_size S 0)%nat).
Proof.
  intros Hws HS HL Hlat Hlen0 Hclear rps.
  pose proof (Z.quot_rem' S (world_size - 1)) as Hqr.
  pose proof (Z.rem_bound_pos S (world_size - 1) ltac:(lia) ltac:(lia)) as Hrem.
  assert (Hrps : 0 ≤ rps) by (apply Z.quot_pos; lia).
  fold rps in Hqr.
  destruct (Hlat 0) as [HS0 HL0].
  split.
  - intros Hdiv sched.
    destruct (every_run_completes clear calculate_energy calculate_magnetism
                calculate_spin world_size rps lat S L sched)
      as [more Hmore]; try done; try lia.
    exists more. rewrite Hmore.
    by destruct (phased_run clear calculate_energy calculate_magnetism
                   calculate_spin world_size rps lat S L)
      as (Hfin & _); try done; try lia.
  - intros Hndiv sched p0 Hp0.
    pose proof (gather_needs_cover clear calculate_energy calculate_magnetism
                  calculate_spin world_size rps lat sched p0
                  (rps * (world_size - 1))) as Hwait.
    rewrite HS0, HL0 in Hwait.
    assert (Hbound : (length (history p0)
                      ≤ stats_at world_size S 0 + 1
                        + Z.to_nat (rps * (world_size - 1)))%nat).
    { apply Hwait; [lia|nia| |done].
      intros s Hs. unfold finish, start.
      assert (s * rps ≤ (world_size - 1) * rps)
        by (apply Z.mul_le_mono_nonneg_r; lia).
      lia. }
    assert (Hlt : (length (history p0) < gathered_at world_size S 0)%nat)
      by (unfold gathered_at; lia).
    pose proof (coordinator_program _ _ _ _ _ _ _ _ _ Hp0) as Hprog.
    rewrite HS0, HL0 in Hprog.
    assert (Hl : length (ran p0) = length (history p0))
      by (unfold ran; apply length_fmap).
    assert (Hfirst : ∃ rest,
               ran p0 ++ todo p0
               = (sends_all world_size S ++ [Clear; Save; StoreStats 0]
                    ++ recvs_rows MPI_ANY_SOURCE S) ++ rest
               ∧ SetComplete ∉ (sends_all world_size S
                                 ++ [Clear; Save; StoreStats 0]
                                 ++ recvs_rows MPI_ANY_SOURCE S)).
    { rewrite Hprog. rewrite (range_cons 0 L) by lia. rewrite bind_cons.
      eexists. split.
      - rewrite <- !app_assoc. simpl. rewrite <- !app_assoc. reflexivity.
      - unfold sends_all, sends_rows, recvs_rows. set_unfold. naive_solver. }
    destruct Hfirst as (rest & Hsplit & Hno).
    assert (Hlenf : length (sends_all world_size S ++ [Clear; Save; StoreStats 0]
                              ++ recvs_rows MPI_ANY_SOURCE S)
                    = gathered_at world_size S 0).
    { rewrite !length_app, length_sends_all, length_recvs_rows.
      unfold gathered_at, stats_at. simpl. lia. }
    symmetry in Hsplit.
    destruct (app_split_at _ _ _ _ Hsplit ltac:(lia)) as (b' & Hb & Ht).
    split; [|split; [|done]].
    + intros Hnil. rewrite Hnil in Ht. symmetry in Ht.
      apply app_eq_nil in Ht as [-> _]. rewrite app_nil_r in Hb.
      rewrite Hb in Hlenf. lia.
    + intros Hin. apply Hno. rewrite Hb. apply elem_of_app. by left.
Qed.

(** ** What a sweep updates and sends *)

Lemma omap_bind {A B C} (f : B → option C) (g : A → list B) (xs : list A) :
  omap f (xs ≫= g) = xs ≫= λ x, omap f (g x).
Proof.
  induction xs as [|x xs IH]; csimpl; [done|]. by rewrite omap_app, IH.
Qed.

Lemma bind_bind {A B C} (f : A → list B) (g : B → list C) (xs : list A) :
  (xs ≫= f) ≫= g = xs ≫= λ x, f x ≫= g.
Proof.
  induction xs as [|x xs IH]; csimpl; [done|]. by rewrite bind_app, IH.
Qed.

(** The ranges of the workers 1, ..., [n], one after the other, are the
    rows below [rows_per_slave * n]. *)
Lemma ranges_in_a_row (rows_per_slave : Z) (n : nat) :
  0 ≤ rows_per_slave →
  (r ← range 1 (Z.of_nat n + 1);
   range (start r rows_per_slave) (finish r rows_per_slave))
  = range 0 (rows_per_slave * Z.of_nat n).
Proof.
  intros Hrps. induction n as [|n IH].
  - simpl. rewrite Z.mul_0_r. done.
  - rewrite Nat2Z.inj_succ. unfold Z.succ.
    rewrite (range_snoc 1 (Z.of_nat n + 1)) by lia.
    rewrite bind_app, IH. csimpl. rewrite app_nil_r.
    unfold finish, start, range.
    replace (Z.of_nat n + 1 - 1) with (Z.of_nat n) by lia.
    replace (Z.of_nat n * rows_per_slave + rows_per_slave
             - Z.of_nat n * rows_per_slave) with rows_per_slave by lia.
    replace (rows_per_slave * (Z.of_nat n + 1) - 0)
      with (rows_per_slave * Z.of_nat n + rows_per_slave) by lia.
    rewrite !Z.sub_0_r.
    rewrite (seqZ_app 0) by nia. f_equal. f_equal. lia.
Qed.

Lemma spins_updates (n lo hi : Z) :
  spins (updates n lo hi) = (j ← range lo hi; k ← range 0 n; [(k, j)])
  ∧ rows_sent 0 (updates n lo hi) = range lo hi.
Proof.
  unfold updates, spins, rows_sent. rewrite !omap_bind. split.
  - apply bind_ext. intros j. rewrite omap_app. simpl. rewrite app_nil_r.
    induction (range 0 n) as [|k ks IH]; csimpl; [done|]. by rewrite IH.
  - assert (Hno : ∀ j, omap (λ a, match a with
                                  | MPI_Send row d _ =>
                                      if decide (d = 0) then Some row else None
                                  | _ => None
                                  end)
                            ((λ k, CalculateSpin k j) <$> range 0 n) = []).
    { intros j. induction (range 0 n) as [|k ks IHk]; [done|]. simpl. apply IHk. }
    induction (range lo hi) as [|j js IH]; csimpl; [done|].
    rewrite IH, omap_app, Hno. done.
Qed.

Lemma sends_all_only_sends (world_size n : Z) :
  rows_received (sends_all world_size n) = []
  ∧ spins (sends_all world_size n) = [].
Proof.
  assert (Hrow : ∀ d, rows_received (sends_rows d n) = []
                      ∧ spins (sends_rows d n) = []).
  { intros d. unfold sends_rows, rows_received, spins.
    induction (range 0 n) as [|y ys [IH1 IH2]]; [done|]. simpl. done. }
  unfold sends_all, rows_received, spins. rewrite !omap_bind.
  induction (range 1 world_size) as [|d ds [IH1 IH2]]; csimpl; [done|].
  destruct (Hrow d) as [H1 H2]. unfold rows_received, spins in H1, H2.
  rewrite IH1, IH2, H1, H2. done.
Qed.

(** X11: every sweep updates each cell of the covered rows exactly once.
    Over the workers in rank order, the cells updated in one sweep are the
    cells of the rows below [rows_per_slave * (world_size - 1)], row by row
    and, in a row, by increasing [k]; the rows sent to the coordinator are
    these rows, once each, while the coordinator receives every row below
    [size], once each; the coordinator updates no cell. *)
Theorem sweep_updates_each_cell_once (world_size rows_per_slave : Z)
        (l : Surface Temp E M) (i : Z) :
  1 ≤ world_size → 0 ≤ rows_per_slave →
  (r ← range 1 world_size; spins (sweep world_size r rows_per_slave l i))
  = (j ← range 0 (rows_per_slave * (world_size - 1));
     k ← range 0 (size l); [(k, j)])
  ∧ (r ← range 1 world_size;
     rows_sent 0 (sweep world_size r rows_per_slave l i))
    = range 0 (rows_per_slave * (world_size - 1))
  ∧ rows_received (sweep world_size 0 rows_per_slave l i) = range 0 (size l)
  ∧ spins (sweep world_size 0 rows_per_slave l i) = [].
Proof.
  intros Hws Hrps.
  assert (Hrecv : ∀ src n,
             spins (recvs_rows src n) = []
             ∧ rows_sent 0 (recvs_rows src n) = []
             ∧ rows_received (recvs_rows src n) = range 0 n).
  { intros src n. unfold recvs_rows, spins, rows_sent, rows_received.
    induction (range 0 n) as [|y ys (IH1 & IH2 & IH3)]; [done|]. simpl.
    split; [exact IH1|]. split; [exact IH2|]. f_equal. exact IH3. }
  assert (Hworkers : ∀ r, r ∈ range 1 world_size →
             spins (sweep world_size r rows_per_slave l i)
             = (j ← range (start r rows_per_slave) (finish r rows_per_slave);
                k ← range 0 (size l); [(k, j)])
             ∧ rows_sent 0 (sweep world_size r rows_per_slave l i)
               = range (start r rows_per_slave) (finish r rows_per_slave)).
  { intros r Hr. apply elem_of_range in Hr.
    rewrite sweep_worker by lia. unfold spins, rows_sent.
    rewrite !omap_app.
    destruct (Hrecv (FromRank 0) (size l)) as (H1 & H2 & _).
    destruct (spins_updates (size l) (start r rows_per_slave)
                (finish r rows_per_slave)) as [H3 H4].
    unfold spins, rows_sent in H1, H2, H3, H4.
    rewrite H1, H2, H3, H4, !app_nil_r. done. }
  pose proof (ranges_in_a_row rows_per_slave (Z.to_nat (world_size - 1)) Hrps)
    as Hrows.
  rewrite Z2Nat.id in Hrows by lia.
  replace (world_size - 1 + 1) with world_size in Hrows by lia.
  split; [|split; [|split]].
  - rewrite <- Hrows, bind_bind.
    assert (Hall : Forall (λ r, r ∈ range 1 world_size) (range 1 world_size))
      by (apply Forall_forall; done).
    induction Hall as [|r rs Hr _ IH]; csimpl; [done|].
    rewrite IH. by destruct (Hworkers r Hr) as [-> _].
  - rewrite <- Hrows.
    assert (Hall : Forall (λ r, r ∈ range 1 world_size) (range 1 world_size))
      by (apply Forall_forall; done).
    induction Hall as [|r rs Hr _ IH]; csimpl; [done|].
    rewrite IH. by destruct (Hworkers r Hr) as [_ ->].
  - rewrite sweep_coordinator. unfold rows_received. simpl.
    rewrite omap_app.
    destruct (Hrecv MPI_ANY_SOURCE (size l)) as (_ & _ & H3).
    unfold rows_received in H3. rewrite H3.
    destruct (sends_all_only_sends world_size (size l)) as [Hs _].
    unfold rows_received in Hs. rewrite Hs, app_nil_r. done.
  - rewrite sweep_coordinator. unfold spins. simpl. rewrite omap_app.
    destruct (Hrecv MPI_ANY_SOURCE (size l)) as (H1 & _).
    unfold spins in H1. rewrite H1. simpl.
    destruct (sends_all_only_sends world_size (size l)) as [_ Hs].
    exact Hs.
Qed.

(** ** Synchronisation *)

Lemma cells_kept (world_size rows_per_slave : Z) lat (sched : list Z) r p
      (a : nat) :
  procs (run' world_size sched (boot world_size rows_per_slave lat)) !! r
  = Some p →
  ∀ (d : nat) l,
    (∀ k act, (a ≤ k < a + d)%nat → ran p !! k = Some act → keeps_cells act) →
    seen p (a + d) = Some l →
    ∃ l', seen p a = Some l' ∧ surface l' = surface l.
Proof.
  intros Hp. induction d as [|d IH]; intros l Hq Hl.
  - rewrite Nat.add_0_r in Hl. eauto.
  - rewrite Nat.add_succ_r in Hl.
    pose proof (seen_bound _ _ _ Hl) as Hb.
    destruct (lookup_lt_is_Some_2 (history p) (a + d) ltac:(lia))
      as [[act lp] Hk].
    assert (Hfol : follows clear calculate_energy calculate_magnetism
                           calculate_spin act lp l).
    { eapply (history_follows clear calculate_energy calculate_magnetism
                calculate_spin world_size sched); eauto.
      intros r' p' Hp'. by apply boot_initial in Hp' as (_ & -> & _). }
    assert (Hact : keeps_cells act).
    { apply (Hq (a + d)%nat); [lia|].
      unfold ran. rewrite list_lookup_fmap, Hk. done. }
    assert (Hs : surface l = surface lp)
      by (destruct act; simpl in Hact, Hfol; try done; by subst l).
    destruct (IH lp) as (l' & Hl' & Hsurf).
    + intros k act' Hk'. apply Hq. lia.
    + eauto using seen_history.
    + exists l'. split; [done|]. congruence.
Qed.

(** X12: the synchronisation at the end of a sweep gives every worker the
    lattice of the coordinator.  When the workers' ranges cover the lattice
    and nothing resizes it, whatever the schedule, the lattice a worker holds
    when it has received the rows of the synchronisation that ends sweep [i]
    (so when it starts sweep [i + 1], or at the end of its program) is, cell
    for cell, the lattice the coordinator held when its gather of sweep [i]
    was complete. *)
Theorem sync_gives_workers_the_lattice (world_size rows_per_slave : Z) lat
        (S L : Z) (sched : list Z) (i : nat) r le :
  1 ≤ world_size → 0 ≤ S → 0 ≤ L → 0 ≤ rows_per_slave →
  rows_per_slave * (world_size - 1) = S →
  (∀ r, size (lat r) = S ∧ loops (lat r) = L
        ∧ length (surface (lat r)) = Z.to_nat S) →
  keeps_rows clear →
  (∀ t n x j, keeps_rows (λ g, calculate_spin t n g x j)) →
  (i < Z.to_nat L)%nat → 1 ≤ r < world_size →
  seen_at (run' world_size sched (boot world_size rows_per_slave lat)) r
          (sweep_at rows_per_slave S (i + 1)) = Some le →
  ∃ more lc,
    seen_at (run' world_size (sched ++ more)
                  (boot world_size rows_per_slave lat)) 0
            (gathered_at world_size S i) = Some lc
    ∧ surface le = surface lc.
Proof.
  intros Hws HS HL Hrps Hdiv Hlat Hclear Hspin Hi Hr Hle.
  assert (Hlat' : ∀ r, size (lat r) = S ∧ loops (lat r) = L)
    by (intros r'; destruct (Hlat r') as (? & ? & ?); done).
  destruct (Hlat 0) as (_ & _ & Hlen0). destruct (Hlat r) as (_ & _ & Hlenr).
  destruct (every_run_completes clear calculate_energy calculate_magnetism
              calculate_spin world_size rows_per_slave lat S L sched)
    as [more Hmore]; try done.
  destruct (phased_run_full clear calculate_energy calculate_magnetism
              calculate_spin world_size rows_per_slave lat S L)
    as (_ & _ & _ & _ & _ & _ & Hsync); try done.
  destruct (Hsync i r Hi Hr) as (lc & lm & le' & Hc & Hm & He & Hsurf).
  apply (seen_run clear calculate_energy calculate_magnetism calculate_spin
                  world_size more) in Hle.
  rewrite <- run_app, Hmore in Hle.
  assert (Heq : Some le = Some le') by (rewrite <- Hle; exact He).
  injection Heq as <-.
  exists more, lc. rewrite Hmore. split; [exact Hc|].
  rewrite Hsurf. apply store_all_rows; [| |done].
  - unfold seen_at in Hc.
    destruct (procs _ !! 0) as [p0|] eqn:Hp0; [|done]. simpl in Hc.
    rewrite (rows_kept _ _ _ _ _ _ _ _ Hclear Hspin Hp0 Hc). done.
  - unfold seen_at in Hm.
    destruct (procs _ !! r) as [p|] eqn:Hp; [|done]. simpl in Hm.
    rewrite (rows_kept _ _ _ _ _ _ _ _ Hclear Hspin Hp Hm). done.
Qed.

(** X13: how a complete run ends.  When the workers' ranges cover the
    lattice, nothing resizes it and there is at least one sweep, then in every
    run in which all processes have run their programs to the end no message
    is left in flight, the coordinator has set [complete], and every worker
    holds, cell for cell, the lattice of the coordinator. *)
Theorem complete_run_ends_in_sync (world_size rows_per_slave : Z) lat
        (S L : Z) (sched : list Z) :
  1 ≤ world_size → 0 ≤ S → 0 < L → 0 ≤ rows_per_slave →
  rows_per_slave * (world_size - 1) = S →
  (∀ r, size (lat r) = S ∧ loops (lat r) = L
        ∧ length (surface (lat r)) = Z.to_nat S) →
  keeps_rows clear →
  (∀ t n x j, keeps_rows (λ g, calculate_spin t n g x j)) →
  finished (run' world_size sched (boot world_size rows_per_slave lat)) →
  (∀ k, chan (net (run' world_size sched
                        (boot world_size rows_per_slave lat))) k = [])
  ∧ ∃ p0,
      procs (run' world_size sched (boot world_size rows_per_slave lat)) !! 0
      = Some p0
      ∧ complete (lattice p0) = true
      ∧ ∀ r p, 1 ≤ r < world_size →
          procs (run' world_size sched (boot world_size rows_per_slave lat))
            !! r = Some p →
          surface (lattice p) = surface (lattice p0).
Proof.
  intros Hws HS HL Hrps Hdiv Hlat Hclear Hspin Hfin.
  assert (Hlat' : ∀ r, size (lat r) = S ∧ loops (lat r) = L)
    by (intros r'; destruct (Hlat r') as (? & ? & ?); done).
  destruct (Hlat 0) as (HS0 & HL0 & Hlen0).
  destruct (phased_run_full clear calculate_energy calculate_magnetism
              calculate_spin world_size rows_per_slave lat S L)
    as (Hfinf & (p0 & Hp0 & Hcomp) & _ & _ & _ & Hnet & Hsync);
    try done; try lia.
  rewrite (halted_runs_agree world_size rows_per_slave lat sched
             (phased world_size rows_per_slave S L)) in *
    by (by apply finished_halted).
  split; [exact Hnet|].
  exists p0. split; [done|]. split; [done|].
  intros r p Hr Hp.
  destruct (Hlat r) as (HSr & HLr & Hlenr).
  assert (HiL : L = Z.of_nat (Z.to_nat (L - 1)) + 1) by lia.
  assert (HiL' : (Z.to_nat (L - 1) < Z.to_nat L)%nat) by lia.
  set (sz := Z.to_nat S). set (rp := Z.to_nat rows_per_slave).
  set (nw := Z.to_nat (world_size - 1)).
  set (i := Z.to_nat (L - 1)) in *.
  destruct (Hsync i r HiL' Hr) as (lc & lm & le & Hc & Hm & He & Hsurf).
  (* the worker is at the end of its program *)
  assert (Hlenp : length (history p) = (sz + (i + 1) * (rp * (sz + 1) + sz))%nat).
  { assert (Hr0 : r ≠ 0) by lia.
    pose proof (worker_program clear calculate_energy calculate_magnetism
                  calculate_spin world_size rows_per_slave lat _ r p Hr0 Hp)
      as Hprog.
    rewrite (Hfin r p Hp), app_nil_r, HSr, HLr in Hprog.
    assert (Hl : length (ran p) = length (history p))
      by (unfold ran; apply length_fmap).
    rewrite <- Hl, Hprog, length_app, length_recvs_rows.
    erewrite length_bind_const; cycle 1.
    { intros j. rewrite length_app, length_updates, length_recvs_rows.
      unfold finish.
      replace (start r rows_per_slave + rows_per_slave
               - start r rows_per_slave) with rows_per_slave by lia.
      reflexivity. }
    rewrite range_length. subst sz rp i. f_equal.
    replace (Z.to_nat (L - 0)) with (Z.to_nat (L - 1) + 1)%nat by lia. done. }
  assert (Hle : le = lattice p).
  { pose proof (seen_at_now _ _ _ Hp) as Hseen. rewrite Hlenp in Hseen.
    assert (Heq : Some le = Some (lattice p)) by (rewrite <- He; exact Hseen).
    by injection Heq. }
  subst le.
  assert (Hlc : surface (lattice p) = surface lc).
  { rewrite Hsurf. apply store_all_rows; [| |done].
    - unfold seen_at in Hc. rewrite Hp0 in Hc. simpl in Hc.
      rewrite (rows_kept _ _ _ _ _ _ _ _ Hclear Hspin Hp0 Hc). done.
    - unfold seen_at in Hm. rewrite Hp in Hm. simpl in Hm.
      rewrite (rows_kept _ _ _ _ _ _ _ _ Hclear Hspin Hp Hm). done. }
  rewrite Hlc.
  (* the coordinator only sends, sets [complete], saves and reports after
     the last gather *)
  unfold seen_at in Hc. rewrite Hp0 in Hc. simpl in Hc.
  assert (Hi : (i < Z.to_nat (loops (lat 0%Z)))%nat) by (rewrite HL0; lia).
  destruct (coordinator_layout world_size (lat 0) i Hi rows_per_slave)
    as (Hlay & Hlenb & _).
  rewrite HS0 in Hlay, Hlenb. rewrite HL0 in Hlay.
  rewrite <- HiL in Hlay.
  pose proof (coordinator_program _ _ _ _ _ _ _ _ _ Hp0) as Hprog.
  rewrite <- program_coordinator with (rows_per_slave := rows_per_slave)
    in Hprog.
  rewrite Hlay, (Hfin 0 p0 Hp0), app_nil_r in Hprog.
  set (before := sends_all world_size S ++ [Clear; Save]
                   ++ (range 0 (Z.of_nat i)
                       ≫= λ j, StoreStats j :: recvs_rows MPI_ANY_SOURCE S
                                 ++ sends_all world_size S)) in *.
  rewrite (range_empty L L) in Hprog by lia. csimpl in Hprog.
  set (g := (nw * sz + 2 + i * (1 + sz + nw * sz) + 1 + sz)%nat) in *.
  assert (Hg : g = (length before + 1 + sz)%nat)
    by (rewrite Hlenb; unfold stats_at; subst g nw sz; lia).
  assert (Hlen0' : length (history p0) = (g + (nw * sz + 3))%nat).
  { assert (Hl : length (ran p0) = length (history p0))
      by (unfold ran; apply length_fmap).
    rewrite <- Hl, Hprog. rewrite length_app. simpl.
    rewrite !length_app, length_recvs_rows, length_sends_all. simpl.
    rewrite Hg. unfold nw, sz. lia. }
  destruct (cells_kept world_size rows_per_slave lat
              (phased world_size rows_per_slave S L) 0 p0 g Hp0
              (nw * sz + 3)%nat (lattice p0)) as (lc' & Hlc' & Hs).
  - intros k act Hk Hact. rewrite Hprog in Hact.
    rewrite lookup_app_r in Hact by lia.
    rewrite lookup_cons_ne_0 in Hact by lia.
    rewrite lookup_app_r in Hact by (rewrite length_recvs_rows; fold sz; lia).
    apply list_elem_of_lookup_2 in Hact.
    apply elem_of_app in Hact as [Hact|Hact].
    + apply sends_all_quiet in Hact. by destruct act.
    + set_unfold in Hact. by destruct Hact as [->|[->|[->|[]]]].
  - rewrite <- Hlen0'. apply seen_now.
  - assert (Heq : Some lc' = Some lc) by (rewrite <- Hlc'; exact Hc).
    injection Heq as ->. done.
Qed.

(** ** What is saved *)

(** X14: the two snapshots.  In every run in which the coordinator has run
    its program to the end, the first lattice it saved is the lattice it
    constructed with the cells cleared (statistics and [complete] as
    constructed), saved before any statistics were stored or any row
    received; and the last lattice it saved is the lattice it ends with, with
    [complete] set. *)
Theorem snapshots (world_size rows_per_slave : Z) lat (sched : list Z) p0 :
  procs (run' world_size sched (boot world_size rows_per_slave lat)) !! 0
  = Some p0 →
  todo p0 = [] →
  let n := (Z.to_nat (world_size - 1) * Z.to_nat (size (lat 0%Z)))%nat in
  take (n + 2) (ran p0) = sends_all world_size (size (lat 0)) ++ [Clear; Save]
  ∧ history p0 !! (n + 1)%nat
    = Some (Save, set_surface (clear (surface (lat 0))) (lat 0))
  ∧ drop (length (history p0) - 3) (ran p0) = [SetComplete; Save; Report]
  ∧ history p0 !! (length (history p0) - 2)%nat = Some (Save, lattice p0)
  ∧ complete (lattice p0) = true.
Proof.
  intros Hp0 Htodo n.
  pose proof (coordinator_program _ _ _ _ _ _ _ _ _ Hp0) as Hprog.
  rewrite Htodo, app_nil_r in Hprog.
  set (S := size (lat 0)) in *.
  set (sweeps := range 0 (loops (lat 0))
                 ≫= λ i, StoreStats i :: recvs_rows MPI_ANY_SOURCE S
                           ++ sends_all world_size S) in *.
  assert (Hl : length (ran p0) = length (history p0))
    by (unfold ran; apply length_fmap).
  assert (Hlen : length (history p0) = (n + 2 + length sweeps + 3)%nat).
  { rewrite <- Hl, Hprog, !length_app, length_sends_all. simpl. fold n. lia. }
  assert (Hfol : ∀ k a la lb, history p0 !! k = Some (a, la) →
            seen p0 (Datatypes.S k) = Some lb →
            follows clear calculate_energy calculate_magnetism calculate_spin
                    a la lb).
  { intros k a la lb. eapply (history_follows clear calculate_energy
      calculate_magnetism calculate_spin world_size sched); eauto.
    intros r' p' Hp'. by apply boot_initial in Hp' as (_ & -> & _). }
  assert (Hat : ∀ k a, ran p0 !! k = Some a →
            ∃ l, history p0 !! k = Some (a, l)).
  { intros k a Hk. unfold ran in Hk. rewrite list_lookup_fmap in Hk.
    destruct (history p0 !! k) as [[a' l]|]; [|done].
    simpl in Hk. injection Hk as ->. eauto. }
  (* the first snapshot *)
  assert (Hk1 : ran p0 !! (n + 1)%nat = Some Save).
  { rewrite Hprog, lookup_app_r by (rewrite length_sends_all; fold n; lia).
    rewrite length_sends_all. fold n.
    replace (n + 1 - n)%nat with 1%nat by lia. done. }
  assert (Hk0 : ran p0 !! n = Some Clear).
  { rewrite Hprog, lookup_app_r by (rewrite length_sends_all; fold n; lia).
    rewrite length_sends_all. fold n. rewrite Nat.sub_diag. done. }
  destruct (Hat _ _ Hk1) as [l1 H1]. destruct (Hat _ _ Hk0) as [l2 H2].
  assert (Hl2 : l1 = set_surface (clear (surface l2)) l2).
  { apply (Hfol n Clear l2 l1 H2).
    replace (Datatypes.S n) with (n + 1)%nat by lia.
    eauto using seen_history. }
  assert (Hl0 : seen p0 0 = Some l2).
  { apply (quiet_keeps world_size rows_per_slave lat sched 0 p0 0 Hp0 n).
    - intros k act Hk Hact. rewrite Hprog in Hact.
      rewrite lookup_app_l in Hact by (rewrite length_sends_all; fold n; lia).
      apply list_elem_of_lookup_2 in Hact. by eapply sends_all_quiet.
    - simpl. eauto using seen_history. }
  rewrite (seen_first _ _ _ _ _ _ Hp0) in Hl0. injection Hl0 as <-.
  (* the last snapshot *)
  set (m := (n + 2 + length sweeps)%nat).
  assert (Hend : ∀ j a, [SetComplete; Save; Report] !! j = Some a →
            ran p0 !! (m + j)%nat = Some a).
  { intros j a Hj. rewrite Hprog.
    rewrite lookup_app_r by (rewrite length_sends_all; fold n; subst m; lia).
    rewrite length_sends_all. fold n.
    replace (m + j - n)%nat with (2 + (length sweeps + j))%nat
      by (subst m; lia).
    simpl. rewrite lookup_app_r by lia.
    replace (length sweeps + j - length sweeps)%nat with j by lia. done. }
  destruct (Hat _ _ (Hend 0%nat SetComplete eq_refl)) as [la Ha].
  destruct (Hat _ _ (Hend 1%nat Save eq_refl)) as [lb Hb].
  destruct (Hat _ _ (Hend 2%nat Report eq_refl)) as [lc Hc].
  assert (Hlb : lb = set_complete true la).
  { apply (Hfol _ SetComplete la lb Ha).
    replace (Datatypes.S (m + 0)) with (m + 1)%nat by lia.
    eauto using seen_history. }
  assert (Hlc : lc = lb).
  { apply (Hfol _ Save lb lc Hb).
    replace (Datatypes.S (m + 1)) with (m + 2)%nat by lia.
    eauto using seen_history. }
  assert (Hlast : lattice p0 = lc).
  { apply (Hfol _ Report lc (lattice p0) Hc).
    replace (Datatypes.S (m + 2)) with (length (history p0))
      by (rewrite Hlen; subst m; lia).
    apply seen_now. }
  split; [|split; [|split; [|split]]].
  - rewrite Hprog. rewrite app_assoc.
    apply take_app_length'. rewrite length_app, length_sends_all. simpl.
    fold n. lia.
  - rewrite H1, Hl2. done.
  - rewrite Hprog, Hlen.
    replace (n + 2 + length sweeps + 3 - 3)%nat with m by (subst m; lia).
    rewrite !app_assoc. apply drop_app_length'.
    rewrite !length_app, length_sends_all. simpl. fold n. subst m. lia.
  - replace (length (history p0) - 2)%nat with (m + 1)%nat
      by (rewrite Hlen; subst m; lia).
    rewrite Hb, Hlast, Hlc. done.
  - rewrite Hlast, Hlc, Hlb. done.
Qed.
End Further.

(** * Concrete runs *)

Section Concrete_runs.
Import Example.

(** At temperature 1, with draws that are 0 or 1/2, the runs are those of
    the decided rule. *)
Lemma run_with_decided (hot : nat → bool) (world_size : Z) (sched : list Z)
      (w : World (Temp:=R) (E:=Z) (M:=Q)) :
  (∀ r p, procs w !! r = Some p → temperature (lattice p) = 1%R) →
  run_with hot world_size sched w = run_decided hot world_size sched w.
Proof.
  intros Hw.
  apply run_ext with (ok := λ t, t = 1%R); [|done].
  intros t n g k j ->. apply IsingFacts.calculate_spin_decided.
Qed.

Lemma run_start_decided (hot : nat → bool) (world_size rows_per_slave : Z)
      (g : Grid) (n size : Z) (sched : list Z) :
  run_with hot world_size sched (start_world world_size rows_per_slave g n size)
  = run_decided hot world_size sched
                (start_world world_size rows_per_slave g n size).
Proof.
  apply run_with_decided. intros r p.
  rewrite boot_lookup. destruct (decide _); [|done]. by intros [= <-].
Qed.

(** What the observers of a run say about its processes. *)
Lemma ran_at_Some (w : World (Temp:=R) (E:=Z) (M:=Q)) r k a g :
  ran_at w r k = Some (a, g) →
  ∃ p l, procs w !! r = Some p ∧ history p !! k = Some (a, l) ∧ surface l = g.
Proof.
  unfold ran_at. destruct (procs w !! r) as [p|] eqn:Hp; [|done].
  destruct (history p !! k) as [[a' l]|] eqn:Hk; [|done].
  intros [= -> <-]. by exists p, l.
Qed.

Lemma surface_seen_Some (w : World (Temp:=R) (E:=Z) (M:=Q)) r k g :
  surface_seen w r k = Some g →
  ∃ l, seen_at w r k = Some l ∧ surface l = g.
Proof.
  unfold surface_seen. destruct (seen_at w r k) as [l|] eqn:Hl; [|done].
  intros [= <-]. by exists l.
Qed.

Lemma seen_at_Some (w : World (Temp:=R) (E:=Z) (M:=Q)) r k p l :
  procs w !! r = Some p → seen_at w r k = Some l → seen p k = Some l.
Proof. unfold seen_at. by intros ->. Qed.

Lemma left_to_do_Some (w : World (Temp:=R) (E:=Z) (M:=Q)) r acts :
  left_to_do w r = Some acts → ∃ p, procs w !! r = Some p ∧ todo p = acts.
Proof.
  unfold left_to_do. destruct (procs w !! r) as [p|] eqn:Hp; [|done].
  intros [= <-]. by exists p.
Qed.

Lemma completed_Some (w : World (Temp:=R) (E:=Z) (M:=Q)) b :
  completed w = Some b → ∃ p, procs w !! 0 = Some p ∧ complete (lattice p) = b.
Proof.
  unfold completed. destruct (procs w !! 0) as [p|] eqn:Hp; [|done].
  intros [= <-]. by exists p.
Qed.

(** One worker, three rows, one sweep in which the first draw is 0. *)
Lemma complete_run_entries_witness :
  ∃ p0,
    procs (run_with first_hot 2 (phased 2 3 3 1) (start_world 2 3 all_up 1 3))
      !! 0 = Some p0
    ∧ complete (lattice p0) = true
    ∧ stores (ran p0) = range 0 1
    ∧ (∀ i, is_Some (avgEnergy (lattice p0) !! i) ↔ 0 ≤ i < 1)
    ∧ (∀ i, is_Some (avgMag (lattice p0) !! i) ↔ 0 ≤ i < 1)
    ∧ base.size (avgEnergy (lattice p0)) = Z.to_nat 1
    ∧ base.size (avgMag (lattice p0)) = Z.to_nat 1.
Proof.
  assert (H : completed (run_with first_hot 2 (phased 2 3 3 1)
                           (start_world 2 3 all_up 1 3)) = Some true).
  { rewrite run_start_decided. vm_compute. reflexivity. }
  destruct (completed_Some _ _ H) as (p0 & Hp0 & Hc).
  exists p0. split; [exact Hp0|]. split; [exact Hc|].
  exact (complete_run_entries Ising.clear Ising.calculate_energy
           Ising.calculate_magnetism (Ising.calculate_spin (draws first_hot))
           2 3 (λ _, lattice_of all_up 1 3) (phased 2 3 3 1) p0 Hp0
           eq_refl eq_refl eq_refl Hc).
Defined.

(** C1 at a concrete input: one worker, a 3 x 3 lattice of spins +1, one
    sweep whose first draw is 0, so that the worker flips cell (0, 0).  The
    coordinator runs its program to the end; its sixth action stores the
    statistics of sweep 0, computed over the lattice of spins +1, and only
    then come the receives of the gather; the lattice it holds after the
    gather has the flipped cell, and its energy and magnetism are not the
    entries stored at index 0. *)
Lemma stats_miss_sweep_updates :
  let w := run_with first_hot 2 (phased 2 3 3 1) (start_world 2 3 all_up 1 3) in
  let gathered := [[-1; 1; 1]; [1; 1; 1]; [1; 1; 1]] in
  left_to_do w 0 = Some []
  ∧ ran_at w 0 (stats_at 2 3 0) = Some (StoreStats 0, all_up)
  ∧ ran_at w 0 (stats_at 2 3 0 + 1) = Some (MPI_Recv 0 MPI_ANY_SOURCE 0, all_up)
  ∧ ran_at w 0 (stats_at 2 3 0 + 2) = Some (MPI_Recv 1 MPI_ANY_SOURCE 1, gathered)
  ∧ surface_seen w 0 (gathered_at 2 3 0) = Some gathered
  ∧ energy_logged w 0 = Some (-18)
  ∧ Ising.calculate_energy gathered = -10
  ∧ magnetism_logged w 0 = Some (9 # 9)%Q
  ∧ Ising.calculate_magnetism gathered = (7 # 9)%Q
  ∧ energy_logged w 0 ≠ Some (Ising.calculate_energy gathered)
  ∧ ¬ (∃ m, magnetism_logged w 0 = Some m
            ∧ (m == Ising.calculate_magnetism gathered)%Q).
Proof.
  cbv zeta. rewrite run_start_decided.
  assert (He : energy_logged
                 (run_decided first_hot 2 (phased 2 3 3 1)
                    (start_world 2 3 all_up 1 3)) 0 = Some (-18))
    by (vm_compute; reflexivity).
  assert (Hm : magnetism_logged
                 (run_decided first_hot 2 (phased 2 3 3 1)
                    (start_world 2 3 all_up 1 3)) 0 = Some (9 # 9)%Q)
    by (vm_compute; reflexivity).
  assert (He' : Ising.calculate_energy [[-1; 1; 1]; [1; 1; 1]; [1; 1; 1]] = -10)
    by (vm_compute; reflexivity).
  assert (Hm' : Ising.calculate_magnetism [[-1; 1; 1]; [1; 1; 1]; [1; 1; 1]]
                = (7 # 9)%Q)
    by (vm_compute; reflexivity).
  rewrite He, Hm, He', Hm'.
  do 5 (split; [vm_compute; reflexivity|]).
  do 4 (split; [reflexivity|]).
  split; [discriminate|].
  intros (m & [= <-] & Heq). unfold Qeq in Heq. simpl in Heq. lia.
Qed.

Lemma stats_precede_gather_witness :
  ∃ p0 l,
    procs (run_with first_hot 2 (phased 2 3 3 1) (start_world 2 3 all_up 1 3))
      !! 0 = Some p0
    ∧ history p0 !! stats_at 2 3 0 = Some (StoreStats 0, l)
    ∧ StoreStats 0 = StoreStats 0
    ∧ take (stats_at 2 3 0) (ran p0)
      = sends_all 2 3 ++ [Clear; Save]
          ++ (j ← range 0 0;
              StoreStats j :: recvs_rows MPI_ANY_SOURCE 3 ++ sends_all 2 3)
    ∧ take (Z.to_nat 3) (drop (stats_at 2 3 0 + 1) (ran p0 ++ todo p0))
      = recvs_rows MPI_ANY_SOURCE 3
    ∧ avgEnergy (lattice p0) !! 0 = Some (Ising.calculate_energy (surface l))
    ∧ avgMag (lattice p0) !! 0 = Some (Ising.calculate_magnetism (surface l)).
Proof.
  assert (H : ran_at (run_with first_hot 2 (phased 2 3 3 1)
                        (start_world 2 3 all_up 1 3)) 0 (stats_at 2 3 0)
              = Some (StoreStats 0, all_up)).
  { rewrite run_start_decided. vm_compute. reflexivity. }
  destruct (ran_at_Some _ _ _ _ _ H) as (p0 & l & Hp0 & Hk & _).
  exists p0, l. split; [exact Hp0|]. split; [exact Hk|].
  assert (Hi : (0 < Z.to_nat (loops ((λ _ : Z, lattice_of all_up 1 3) 0%Z)))%nat)
    by (simpl; lia).
  exact (stats_precede_gather Ising.clear Ising.calculate_energy
           Ising.calculate_magnetism (Ising.calculate_spin (draws first_hot))
           2 3 (λ _, lattice_of all_up 1 3) (phased 2 3 3 1) p0 0%nat _ l
           Hp0 Hi Hk).
Defined.

(** Two processes and a 2 x 2 lattice constructed as a checkerboard: the
    coordinator starts sweep 0 on the cleared lattice, the worker on the
    checkerboard. *)
Lemma workers_start_before_clear_witness :
  ∃ l0 lr,
    seen_at (run_with cold 2 (phased 2 2 2 1) (start_world 2 2 checkerboard 1 2))
            0 (stats_at 2 2 0) = Some l0
    ∧ seen_at (run_with cold 2 (phased 2 2 2 1)
                 (start_world 2 2 checkerboard 1 2))
              1 (sweep_at 2 2 0) = Some lr
    ∧ surface l0 = Ising.clear checkerboard ∧ surface lr = checkerboard
    ∧ Ising.clear checkerboard = four_up.
Proof.
  assert (H0 : surface_seen (run_with cold 2 (phased 2 2 2 1)
                               (start_world 2 2 checkerboard 1 2))
                            0 (stats_at 2 2 0) = Some four_up).
  { rewrite run_start_decided. vm_compute. reflexivity. }
  assert (H1 : surface_seen (run_with cold 2 (phased 2 2 2 1)
                               (start_world 2 2 checkerboard 1 2))
                            1 (sweep_at 2 2 0) = Some checkerboard).
  { rewrite run_start_decided. vm_compute. reflexivity. }
  destruct (surface_seen_Some _ _ _ _ H0) as (l0 & Hl0 & _).
  destruct (surface_seen_Some _ _ _ _ H1) as (lr & Hlr & _).
  exists l0, lr. split; [exact Hl0|]. split; [exact Hlr|].
  assert (Hlat : ∀ r : Z,
             size ((λ _ : Z, lattice_of checkerboard 1 2) r) = 2
             ∧ loops ((λ _ : Z, lattice_of checkerboard 1 2) r) = 1
             ∧ length (surface ((λ _ : Z, lattice_of checkerboard 1 2) r))
               = Z.to_nat 2)
    by (intros r; split; [reflexivity|split; reflexivity]).
  destruct (workers_start_before_clear Ising.clear Ising.calculate_energy
              Ising.calculate_magnetism (Ising.calculate_spin (draws cold))
              2 2 (λ _, lattice_of checkerboard 1 2) 2 1 (phased 2 2 2 1) 1 l0 lr
              ltac:(lia) ltac:(lia) ltac:(lia) ltac:(lia) Hlat
              IsingFacts.keeps_rows_clear ltac:(lia) Hl0 Hlr)
    as [Hs0 Hsr].
  split; [exact Hs0|]. split; [exact Hsr|]. reflexivity.
Defined.

(** Two workers with one row each. *)
Lemma gather_places_rows_by_tag_witness :
  ∃ lc more lw,
    seen_at (run_with cold 3 (phased 3 1 2 1) (start_world 3 1 checkerboard 1 2))
            0 (gathered_at 3 2 0) = Some lc
    ∧ 1 ≤ owner 1 1 < 3
    ∧ start (owner 1 1) 1 ≤ 1 < finish (owner 1 1) 1
    ∧ seen_at (run_with cold 3 (phased 3 1 2 1 ++ more)
                 (start_world 3 1 checkerboard 1 2))
              (owner 1 1) (updated_at 1 2 0) = Some lw
    ∧ row_at (surface lc) 1 = row_at (surface lw) 1.
Proof.
  assert (H : surface_seen (run_with cold 3 (phased 3 1 2 1)
                              (start_world 3 1 checkerboard 1 2))
                           0 (gathered_at 3 2 0) = Some [[-1; 1]; [1; -1]]).
  { rewrite run_start_decided. vm_compute. reflexivity. }
  destruct (surface_seen_Some _ _ _ _ H) as (lc & Hlc & _).
  assert (Hlat : ∀ r : Z,
             size ((λ _ : Z, lattice_of checkerboard 1 2) r) = 2
             ∧ loops ((λ _ : Z, lattice_of checkerboard 1 2) r) = 1)
    by (intros r; split; reflexivity).
  destruct (gather_places_rows_by_tag Ising.clear Ising.calculate_energy
              Ising.calculate_magnetism (Ising.calculate_spin (draws cold))
              3 1 (λ _, lattice_of checkerboard 1 2) 2 1
              ltac:(lia) ltac:(lia) ltac:(lia) ltac:(lia) ltac:(lia) Hlat
              eq_refl IsingFacts.keeps_rows_clear
              (IsingFacts.touches_own_row_calculate_spin (draws cold)))
    as (_ & _ & Hrun).
  destruct (Hrun (phased 3 1 2 1) 0%nat 1 lc ltac:(simpl; lia) ltac:(lia) Hlc)
    as (Ho & Hin & more & lw & Hw & Hrow).
  exists lc, more, lw. split; [exact Hlc|]. split; [exact Ho|].
  split; [exact Hin|]. split; [exact Hw|exact Hrow].
Defined.

(** C6 at a concrete input: one worker, a 2 x 2 lattice of spins +1, one
    sweep whose first draw is 0.  The first update of the sweep flips cell
    (0, 0); the second, of cell (1, 0), runs on the lattice with that flip,
    where flipping costs no energy, and flips; on the lattice as it was when
    the sweep started the same update with the same draw leaves the lattice
    as it is. *)
Lemma update_reads_same_sweep_update :
  let w := run_with first_hot 2 (phased 2 2 2 1) (start_world 2 2 four_up 1 2) in
  surface_seen w 1 (sweep_at 2 2 0) = Some four_up
  ∧ ran_at w 1 (sweep_at 2 2 0) = Some (CalculateSpin 0 0, four_up)
  ∧ ran_at w 1 (sweep_at 2 2 0 + 1) = Some (CalculateSpin 1 0, [[-1; 1]; [1; 1]])
  ∧ surface_seen w 1 (sweep_at 2 2 0 + 2) = Some [[-1; -1]; [1; 1]]
  ∧ Ising.calculate_spin (draws first_hot) 1 1 [[-1; 1]; [1; 1]] 1 0
    = [[-1; -1]; [1; 1]]
  ∧ Ising.calculate_spin (draws first_hot) 1 1 four_up 1 0 = four_up.
Proof.
  cbv zeta. rewrite run_start_decided.
  unfold draws. rewrite !IsingFacts.calculate_spin_decided.
  do 5 (split; [vm_compute; reflexivity|]). vm_compute. reflexivity.
Qed.

Lemma updates_read_own_copy_witness :
  ∃ p l l' ls,
    procs (run_with first_hot 2 (phased 2 2 2 1) (start_world 2 2 four_up 1 2))
      !! 1 = Some p
    ∧ seen p (sweep_at 2 2 0) = Some ls
    ∧ history p !! 3%nat = Some (CalculateSpin 1 0, l)
    ∧ seen p 4 = Some l'
    ∧ start 1 2 ≤ 0 < finish 1 2
    ∧ (∃ n, surface l'
            = Ising.calculate_spin (draws first_hot) (temperature l) n
                                   (surface l) 1 0)
    ∧ (∀ y, ¬ (start 1 2 ≤ y < finish 1 2) →
            row_at (surface l) y = row_at (surface ls) y
            ∧ row_at (surface l') y = row_at (surface ls) y).
Proof.
  assert (Hr : ran_at (run_with first_hot 2 (phased 2 2 2 1)
                         (start_world 2 2 four_up 1 2)) 1 3
               = Some (CalculateSpin 1 0, [[-1; 1]; [1; 1]])).
  { rewrite run_start_decided. vm_compute. reflexivity. }
  assert (H2 : surface_seen (run_with first_hot 2 (phased 2 2 2 1)
                               (start_world 2 2 four_up 1 2)) 1 (sweep_at 2 2 0)
               = Some four_up).
  { rewrite run_start_decided. vm_compute. reflexivity. }
  assert (H4 : surface_seen (run_with first_hot 2 (phased 2 2 2 1)
                               (start_world 2 2 four_up 1 2)) 1 4
               = Some [[-1; -1]; [1; 1]]).
  { rewrite run_start_decided. vm_compute. reflexivity. }
  destruct (ran_at_Some _ _ _ _ _ Hr) as (p & l & Hp & Hk & _).
  destruct (surface_seen_Some _ _ _ _ H2) as (ls & Hls & _).
  destruct (surface_seen_Some _ _ _ _ H4) as (l' & Hl' & _).
  apply (seen_at_Some _ _ _ _ _ Hp) in Hls, Hl'.
  exists p, l, l', ls. split; [exact Hp|]. split; [exact Hls|].
  split; [exact Hk|]. split; [exact Hl'|].
  assert (Hi : (0 < Z.to_nat (loops ((λ _ : Z, lattice_of four_up 1 2) 1%Z)))%nat)
    by (simpl; lia).
  assert (Hin : (sweep_at 2 (size ((λ _ : Z, lattice_of four_up 1 2) 1%Z)) 0 ≤ 3
                 < updated_at 2 (size ((λ _ : Z, lattice_of four_up 1 2) 1%Z)) 0)%nat)
    by (vm_compute; lia).
  exact (updates_read_own_copy Ising.clear Ising.calculate_energy
           Ising.calculate_magnetism (Ising.calculate_spin (draws first_hot))
           2 2 (λ _, lattice_of four_up 1 2) (phased 2 2 2 1) 1 p 0%nat 3%nat
           1 0 l l' ls
           (IsingFacts.touches_own_row_calculate_spin (draws first_hot))
           ltac:(lia) ltac:(lia) Hp Hi Hin Hls Hk Hl').
Defined.

(** C10 at a concrete input: [main] with three processes and three rows
    computes [rows_per_slave = 3 / 2 = 1], so the two workers send rows 0 and
    1 and no process sends row 2.  The run of the phased schedule ends in a
    world in which no process can move and the coordinator still has to run
    the receive of row 2 and what follows it; and whatever the schedule, the
    coordinator has actions left: its call of [simulate] does not return. *)
Theorem uncovered_row_blocks_simulate :
  let w0 := start_world 3 (Z.quot 3 (3 - 1)) all_up 1 3 in
  let wf := run_with cold 3 (phased 3 1 3 1) w0 in
  halted Ising.clear Ising.calculate_energy Ising.calculate_magnetism
         (Ising.calculate_spin (draws cold)) 3 wf
  ∧ left_to_do wf 0
    = Some ([MPI_Recv 2 MPI_ANY_SOURCE 2] ++ sends_all 3 3
              ++ [SetComplete; Save; Report])
  ∧ ∀ sched, ∃ a rest, left_to_do (run_with cold 3 sched w0) 0 = Some (a :: rest).
Proof.
  cbv zeta.
  assert (Hq : Z.quot 3 (3 - 1) = 1) by reflexivity. rewrite Hq.
  assert (Hhalt : halted Ising.clear Ising.calculate_energy
                    Ising.calculate_magnetism (Ising.calculate_spin (draws cold))
                    3 (run_with cold 3 (phased 3 1 3 1)
                         (start_world 3 1 all_up 1 3))).
  { apply haltedb_halted.
    - intros r Hr. apply run_dom. rewrite boot_lookup.
      by rewrite decide_False.
    - rewrite run_start_decided. vm_compute. reflexivity. }
  assert (Hleft : left_to_do (run_with cold 3 (phased 3 1 3 1)
                                (start_world 3 1 all_up 1 3)) 0
                  = Some ([MPI_Recv 2 MPI_ANY_SOURCE 2] ++ sends_all 3 3
                            ++ [SetComplete; Save; Report])).
  { rewrite run_start_decided. vm_compute. reflexivity. }
  split; [exact Hhalt|]. split; [exact Hleft|].
  intros sched.
  destruct (run_confluent Ising.clear Ising.calculate_energy
              Ising.calculate_magnetism (Ising.calculate_spin (draws cold)) 3
              (moves Ising.clear Ising.calculate_energy Ising.calculate_magnetism
                     (Ising.calculate_spin (draws cold)) 3 (phased 3 1 3 1)
                     (start_world 3 1 all_up 1 3))
              sched
              (start_world 3 1 all_up 1 3)
              (run_with cold 3 (phased 3 1 3 1) (start_world 3 1 all_up 1 3)))
    as [more Hmore].
  { apply unambiguous_boot. }
  { apply exec_moves. }
  { exact Hhalt. }
  destruct (left_to_do_Some _ _ _ Hleft) as (pf & Hpf & Htf).
  unfold left_to_do.
  destruct (procs (run_with cold 3 sched (start_world 3 1 all_up 1 3)) !! 0)
    as [p|] eqn:Hp.
  - destruct (todo p) as [|a rest] eqn:Ht; [|by eauto].
    exfalso.
    pose proof (run_finished_proc Ising.clear Ising.calculate_energy
                  Ising.calculate_magnetism (Ising.calculate_spin (draws cold))
                  3 more _ 0 p Hp Ht) as Hfin.
    rewrite <- run_app, Hmore, Hpf in Hfin. injection Hfin as ->.
    rewrite Ht in Htf. discriminate Htf.
  - apply run_dom in Hp. rewrite boot_lookup in Hp. done.
Qed.

(** One worker that owns both rows. *)
Lemma covered_simulate_returns_success_example :
  (simulate 2 0 2 (lattice_of four_up 1 2)).2 = EXIT_SUCCESS
  ∧ (initialise 2 0 2 (lattice_of four_up 1 2)).2 = EXIT_SUCCESS
  ∧ (mpi_program 2 0 2 (lattice_of four_up 1 2)).2 = EXIT_SUCCESS
  ∧ ∃ more,
      finished (run_with cold 2 ([1; 0] ++ more) (start_world 2 2 four_up 1 2)).
Proof.
  assert (Hlat : ∀ r : Z,
             size ((λ _ : Z, lattice_of four_up 1 2) r) = 2
             ∧ loops ((λ _ : Z, lattice_of four_up 1 2) r) = 1)
    by (intros r; split; reflexivity).
  exact (covered_simulate_returns_success Ising.clear Ising.calculate_energy
           Ising.calculate_magnetism (Ising.calculate_spin (draws cold))
           2 2 (λ _, lattice_of four_up 1 2) 2 1 [1; 0] 0
           ltac:(lia) ltac:(lia) ltac:(lia) ltac:(lia) ltac:(lia) Hlat
           eq_refl IsingFacts.keeps_rows_clear).
Qed.
End Concrete_runs.

(** * More concrete runs *)

Section More_runs.
Import Example.

Lemma ran_at_elem (w : World (Temp:=R) (E:=Z) (M:=Q)) r k a g :
  ran_at w r k = Some (a, g) → ∃ p, procs w !! r = Some p ∧ a ∈ ran p.
Proof.
  intros H. destruct (ran_at_Some _ _ _ _ _ H) as (p & l & Hp & Hk & _).
  exists p. split; [done|].
  apply (list_elem_of_lookup_2 _ k). unfold ran.
  rewrite list_lookup_fmap, Hk. done.
Qed.

Lemma finished_left_to_do (world_size : Z) (w : World (Temp:=R) (E:=Z) (M:=Q)) :
  (∀ r, ¬ (0 ≤ r < world_size) → procs w !! r = None) →
  (∀ r, 0 ≤ r < world_size → left_to_do w r = Some []) →
  finished w.
Proof.
  intros Hdom Hall r p Hp.
  destruct (decide (0 ≤ r < world_size)) as [Hr|Hr].
  - destruct (left_to_do_Some _ _ _ (Hall r Hr)) as (q & Hq & Ht). congruence.
  - rewrite (Hdom r Hr) in Hp. done.
Qed.

(** Two processes and a 2 x 2 checkerboard, one sweep whose first draw is 0:
    the phased schedule runs both programs to the end. *)
Lemma checkerboard_run_finished :
  finished (run_with first_hot 2 (phased 2 2 2 1)
              (start_world 2 2 checkerboard 1 2)).
Proof.
  apply (finished_left_to_do 2).
  - intros r Hr. apply run_dom. rewrite boot_lookup. by rewrite decide_False.
  - intros r Hr. assert (Hcase : r = 0 ∨ r = 1) by lia.
    rewrite run_start_decided.
    destruct Hcase as [-> | ->]; vm_compute; reflexivity.
Qed.

Lemma workers_keep_statistics_witness :
  ∃ p,
    procs (run_with first_hot 2 (phased 2 2 2 1)
             (start_world 2 2 checkerboard 1 2)) !! 1 = Some p
    ∧ (name (lattice p) = "./ising" ∧ loops (lattice p) = 1
       ∧ size (lattice p) = 2 ∧ temperature (lattice p) = 1%R
       ∧ out (lattice p) = false ∧ outName (lattice p) = "")
    ∧ (1 ≠ 0 →
       avgEnergy (lattice p) = ∅ ∧ avgMag (lattice p) = ∅
       ∧ complete (lattice p) = false).
Proof.
  assert (H : left_to_do (run_with first_hot 2 (phased 2 2 2 1)
                            (start_world 2 2 checkerboard 1 2)) 1 = Some []).
  { rewrite run_start_decided. vm_compute. reflexivity. }
  destruct (left_to_do_Some _ _ _ H) as (p & Hp & _).
  exists p. split; [exact Hp|].
  exact (workers_keep_statistics Ising.clear Ising.calculate_energy
           Ising.calculate_magnetism (Ising.calculate_spin (draws first_hot))
           2 2 (λ _, lattice_of checkerboard 1 2) (phased 2 2 2 1) 1 p Hp).
Defined.

(** The second of three processes, with one row: it sends row 0 to rank 0. *)
Lemma star_topology_witness :
  0 = 0
  ∧ (if decide (1 = 0)
     then 1 ≤ 0 < 3 ∧ 0 ≤ 0 < size (lattice_of checkerboard 1 2)
     else 0 = 0 ∧ start 1 1 ≤ 0 < finish 1 1).
Proof.
  apply (star_topology 3 1 (lattice_of checkerboard 1 2) 1 (MPI_Send 0 0 0)).
  apply (list_elem_of_lookup_2 _ 4). reflexivity.
Defined.


Lemma first_statistics_of_cleared_lattice_witness :
  ∃ p0,
    procs (run_with first_hot 2 (phased 2 2 2 1)
             (start_world 2 2 checkerboard 1 2)) !! 0 = Some p0
    ∧ StoreStats 0 ∈ ran p0
    ∧ avgEnergy (lattice p0) !! 0
      = Some (Ising.calculate_energy (Ising.clear checkerboard))
    ∧ avgMag (lattice p0) !! 0
      = Some (Ising.calculate_magnetism (Ising.clear checkerboard)).
Proof.
  assert (H : ran_at (run_with first_hot 2 (phased 2 2 2 1)
                        (start_world 2 2 checkerboard 1 2)) 0 (stats_at 2 2 0)
              = Some (StoreStats 0, four_up)).
  { rewrite run_start_decided. vm_compute. reflexivity. }
  destruct (ran_at_elem _ _ _ _ _ H) as (p0 & Hp0 & Hin).
  exists p0. split; [exact Hp0|]. split; [exact Hin|].
  exact (first_statistics_of_cleared_lattice Ising.clear Ising.calculate_energy
           Ising.calculate_magnetism (Ising.calculate_spin (draws first_hot))
           2 2 (λ _, lattice_of checkerboard 1 2) (phased 2 2 2 1) p0 Hp0 Hin).
Defined.

(** Two sweeps: the entry of sweep 1 is that of the lattice gathered in
    sweep 0. *)
Lemma statistics_of_previous_gather_witness :
  ∃ p0 lc,
    procs (run_with first_hot 2 (phased 2 2 2 2)
             (start_world 2 2 checkerboard 2 2)) !! 0 = Some p0
    ∧ StoreStats (Z.of_nat (0 + 1)) ∈ ran p0
    ∧ seen p0 (gathered_at 2 2 0) = Some lc
    ∧ avgEnergy (lattice p0) !! Z.of_nat (0 + 1)
      = Some (Ising.calculate_energy (surface lc))
    ∧ avgMag (lattice p0) !! Z.of_nat (0 + 1)
      = Some (Ising.calculate_magnetism (surface lc)).
Proof.
  assert (H : ran_at (run_with first_hot 2 (phased 2 2 2 2)
                        (start_world 2 2 checkerboard 2 2)) 0 (stats_at 2 2 1)
              = Some (StoreStats (Z.of_nat (0 + 1)), [[-1; 1]; [1; 1]])).
  { rewrite run_start_decided. vm_compute. reflexivity. }
  destruct (ran_at_elem _ _ _ _ _ H) as (p0 & Hp0 & Hin).
  destruct (statistics_of_previous_gather Ising.clear Ising.calculate_energy
              Ising.calculate_magnetism (Ising.calculate_spin (draws first_hot))
              2 2 (λ _, lattice_of checkerboard 2 2) (phased 2 2 2 2) p0 0
              Hp0 Hin) as (lc & Hlc & He & Hm).
  exists p0, lc. split; [exact Hp0|]. split; [exact Hin|].
  split; [exact Hlc|]. split; [exact He|exact Hm].
Defined.

(** The phased schedule and twenty rounds of worker, coordinator. *)
Lemma schedule_independence_witness :
  run_with first_hot 2 (phased 2 2 2 1) (start_world 2 2 checkerboard 1 2)
  = run_with first_hot 2 (concat (replicate 20 [1; 0]))
             (start_world 2 2 checkerboard 1 2).
Proof.
  apply (schedule_independence Ising.clear Ising.calculate_energy
           Ising.calculate_magnetism (Ising.calculate_spin (draws first_hot))
           2 2 (λ _, lattice_of checkerboard 1 2)).
  - apply haltedb_halted.
    + intros r Hr. apply run_dom. rewrite boot_lookup. by rewrite decide_False.
    + rewrite run_start_decided. vm_compute. reflexivity.
  - apply haltedb_halted.
    + intros r Hr. apply run_dom. rewrite boot_lookup. by rewrite decide_False.
    + rewrite run_start_decided. vm_compute. reflexivity.
Defined.

(** Three processes and three rows: two workers do not divide three rows. *)
Lemma completion_needs_cover_witness :
  Z.rem 3 (3 - 1) ≠ 0
  ∧ ∀ (sched : list Z) p0,
      procs (run_with cold 3 sched
               (start_world 3 (Z.quot 3 (3 - 1)) all_up 1 3)) !! 0 = Some p0 →
      todo p0 ≠ [] ∧ (SetComplete ∉ ran p0)
      ∧ (length (history p0) < gathered_at 3 3 0)%nat.
Proof.
  split; [discriminate|].
  assert (Hlat : ∀ r : Z,
             size ((λ _ : Z, lattice_of all_up 1 3) r) = 3
             ∧ loops ((λ _ : Z, lattice_of all_up 1 3) r) = 1)
    by (intros r; split; reflexivity).
  apply (completion_needs_cover Ising.clear Ising.calculate_energy
           Ising.calculate_magnetism (Ising.calculate_spin (draws cold))
           3 (λ _, lattice_of all_up 1 3) 3 1
           ltac:(lia) ltac:(lia) ltac:(lia) Hlat eq_refl
           IsingFacts.keeps_rows_clear).
  discriminate.
Defined.

(** Two workers with one row each of a lattice of two rows. *)
Lemma sweep_updates_each_cell_once_witness :
  (r ← range 1 3; spins (sweep 3 r 1 (lattice_of checkerboard 1 2) 0))
  = (j ← range 0 (1 * (3 - 1));
     k ← range 0 (size (lattice_of checkerboard 1 2)); [(k, j)])
  ∧ (r ← range 1 3;
     rows_sent 0 (sweep 3 r 1 (lattice_of checkerboard 1 2) 0))
    = range 0 (1 * (3 - 1))
  ∧ rows_received (sweep 3 0 1 (lattice_of checkerboard 1 2) 0)
    = range 0 (size (lattice_of checkerboard 1 2))
  ∧ spins (sweep 3 0 1 (lattice_of checkerboard 1 2) 0) = [].
Proof.
  apply (sweep_updates_each_cell_once 3 1 (lattice_of checkerboard 1 2) 0); lia.
Defined.

Lemma sync_gives_workers_the_lattice_witness :
  ∃ le more lc,
    seen_at (run_with first_hot 2 (phased 2 2 2 1)
               (start_world 2 2 checkerboard 1 2)) 1 (sweep_at 2 2 (0 + 1))
    = Some le
    ∧ seen_at (run_with first_hot 2 (phased 2 2 2 1 ++ more)
                 (start_world 2 2 checkerboard 1 2)) 0 (gathered_at 2 2 0)
      = Some lc
    ∧ surface le = surface lc.
Proof.
  assert (H : surface_seen (run_with first_hot 2 (phased 2 2 2 1)
                              (start_world 2 2 checkerboard 1 2))
                           1 (sweep_at 2 2 (0 + 1))
              = Some [[-1; 1]; [1; 1]]).
  { rewrite run_start_decided. vm_compute. reflexivity. }
  destruct (surface_seen_Some _ _ _ _ H) as (le & Hle & _).
  assert (Hlat : ∀ r : Z,
             size ((λ _ : Z, lattice_of checkerboard 1 2) r) = 2
             ∧ loops ((λ _ : Z, lattice_of checkerboard 1 2) r) = 1
             ∧ length (surface ((λ _ : Z, lattice_of checkerboard 1 2) r))
               = Z.to_nat 2)
    by (intros r; split; [reflexivity|split; reflexivity]).
  destruct (sync_gives_workers_the_lattice Ising.clear Ising.calculate_energy
              Ising.calculate_magnetism (Ising.calculate_spin (draws first_hot))
              2 2 (λ _, lattice_of checkerboard 1 2) 2 1 (phased 2 2 2 1)
              0 1 le
              ltac:(lia) ltac:(lia) ltac:(lia) ltac:(lia) ltac:(lia) Hlat
              IsingFacts.keeps_rows_clear
              (IsingFacts.keeps_rows_calculate_spin (draws first_hot))
              ltac:(simpl; lia) ltac:(lia) Hle)
    as (more & lc & Hlc & Heq).
  exists le, more, lc. split; [exact Hle|]. split; [exact Hlc|exact Heq].
Defined.

Lemma complete_run_ends_in_sync_witness :
  let w := run_with first_hot 2 (phased 2 2 2 1)
                    (start_world 2 2 checkerboard 1 2) in
  finished w
  ∧ (∀ k, chan (net w) k = [])
  ∧ ∃ p0,
      procs w !! 0 = Some p0
      ∧ complete (lattice p0) = true
      ∧ ∀ r p, 1 ≤ r < 2 → procs w !! r = Some p →
          surface (lattice p) = surface (lattice p0).
Proof.
  cbv zeta. split; [exact checkerboard_run_finished|].
  assert (Hlat : ∀ r : Z,
             size ((λ _ : Z, lattice_of checkerboard 1 2) r) = 2
             ∧ loops ((λ _ : Z, lattice_of checkerboard 1 2) r) = 1
             ∧ length (surface ((λ _ : Z, lattice_of checkerboard 1 2) r))
               = Z.to_nat 2)
    by (intros r; split; [reflexivity|split; reflexivity]).
  exact (complete_run_ends_in_sync Ising.clear Ising.calculate_energy
           Ising.calculate_magnetism (Ising.calculate_spin (draws first_hot))
           2 2 (λ _, lattice_of checkerboard 1 2) 2 1 (phased 2 2 2 1)
           ltac:(lia) ltac:(lia) ltac:(lia) ltac:(lia) ltac:(lia) Hlat
           IsingFacts.keeps_rows_clear
           (IsingFacts.keeps_rows_calculate_spin (draws first_hot))
           checkerboard_run_finished).
Defined.

Lemma snapshots_witness :
  ∃ p0,
    procs (run_with first_hot 2 (phased 2 2 2 1)
             (start_world 2 2 checkerboard 1 2)) !! 0 = Some p0
    ∧ todo p0 = []
    ∧ take (2 + 2) (ran p0) = sends_all 2 2 ++ [Clear; Save]
    ∧ history p0 !! (2 + 1)%nat
      = Some (Save, set_surface (Ising.clear checkerboard)
                                (lattice_of checkerboard 1 2))
    ∧ drop (length (history p0) - 3) (ran p0) = [SetComplete; Save; Report]
    ∧ history p0 !! (length (history p0) - 2)%nat = Some (Save, lattice p0)
    ∧ complete (lattice p0) = true.
Proof.
  assert (H : left_to_do (run_with first_hot 2 (phased 2 2 2 1)
                            (start_world 2 2 checkerboard 1 2)) 0 = Some []).
  { rewrite run_start_decided. vm_compute. reflexivity. }
  destruct (left_to_do_Some _ _ _ H) as (p0 & Hp0 & Ht).
  exists p0. split; [exact Hp0|]. split; [exact Ht|].
  exact (snapshots Ising.clear Ising.calculate_energy
           Ising.calculate_magnetism (Ising.calculate_spin (draws first_hot))
           2 2 (λ _, lattice_of checkerboard 1 2) (phased 2 2 2 1) p0 Hp0 Ht).
Defined.
End More_runs.
